(** * A shallow embedding of the markdown-kit terminal renderer

    The development follows the Go sources of [github.com/pgavlin/markdown-kit]:
    the [renderer] package (line writer, word-wrap buffer, span-tree builder,
    style stack and the per-node rendering functions) and the decoder of the
    [internal/kitty] package.

    Conventions.
    - Go [int] values are modelled by [Z]; byte slices and strings by
      [list byte].
    - A Go slice used as a stack keeps its order: the top of the stack is the
      last element of the list.
    - Run-time panics of Go (integer division by zero, index out of range,
      a negative repeat count, calling a nil function) are explicit
      outcomes of the model, see [outcome].
    - The destination writer [w] is an in-memory buffer that accepts every
      write completely (as [bytes.Buffer] behind [bufio.Writer] does); it is
      the [sink] component of the state.
    - [*NodeSpan] pointers are indices into the [heap] component of the
      state, which holds every span allocated by [OpenSpan]. *)

From Stdlib Require Import ZArith List Bool Lia String Ascii DecimalString.
From Stdlib.Strings Require Import Byte.
From stdpp Require Import base list.
Import ListNotations.
Local Open Scope Z_scope.

Abbreviation bytes := (list byte).

(** ** Bytes and strings *)

Definition b2z (b : byte) : Z := Z.of_N (Byte.to_N b).
Definition len {A} (l : list A) : Z := Z.of_nat (length l).
Definition str (s : string) : bytes := list_byte_of_string s.

Definition newline : byte := x0a.
Definition space : byte := x20.
Definition backtick : byte := x60.

(** The top of a Go slice used as a stack, and the slice without it. *)
Definition top {A} (l : list A) : option A := last l.
Definition pop {A} (l : list A) : list A := removelast l.

(** ** Outcomes: normal return, error return, panic *)

Inductive panic : Type :=
| DivideByZero
| IndexOutOfRange
| NegativeRepeatCount
| NilFunctionCall
| BadTypeAssertion.

Inductive outcome (A : Type) : Type :=
| Ok (a : A)
| Fail (err : bytes)
| Panic (p : panic).
Arguments Ok {A} a.
Arguments Fail {A} err.
Arguments Panic {A} p.

(** [bytes.Repeat] and [strings.Repeat] panic on a negative count. *)
Definition Repeat (b : bytes) (count : Z) : outcome bytes :=
  if count <? 0 then Panic NegativeRepeatCount
  else Ok (concat (repeat b (Z.to_nat count))).

(** ** The [unicode/utf8] and [unicode] functions used by the renderer *)

Definition RuneError : Z := 65533.

Definition inRange (lo hi : Z) (b : byte) : bool := (lo <=? b2z b) && (b2z b <=? hi).

(** [utf8.DecodeRune]: the rune at the head of the buffer and its width in
    bytes; an invalid encoding yields [(RuneError, 1)], the empty buffer
    [(RuneError, 0)]. *)
Definition DecodeRune (p : bytes) : Z * nat :=
  match p with
  | [] => (RuneError, 0%nat)
  | b0 :: p1 =>
    let x0 := b2z b0 in
    if x0 <? 128 then (x0, 1%nat)
    else
      (* size and accepted range of the second byte, from the first byte *)
      let info : option (nat * Z * Z) :=
        if (194 <=? x0) && (x0 <=? 223) then Some (2%nat, 128, 191)
        else if x0 =? 224 then Some (3%nat, 160, 191)
        else if (225 <=? x0) && (x0 <=? 236) then Some (3%nat, 128, 191)
        else if x0 =? 237 then Some (3%nat, 128, 159)
        else if (238 <=? x0) && (x0 <=? 239) then Some (3%nat, 128, 191)
        else if x0 =? 240 then Some (4%nat, 144, 191)
        else if (241 <=? x0) && (x0 <=? 243) then Some (4%nat, 128, 191)
        else if x0 =? 244 then Some (4%nat, 128, 143)
        else None in
      match info with
      | None => (RuneError, 1%nat)
      | Some (sz, lo, hi) =>
        match p1 with
        | [] => (RuneError, 1%nat)
        | b1 :: p2 =>
          if negb (inRange lo hi b1) then (RuneError, 1%nat)
          else if (sz <=? 2)%nat then
            (Z.lor (Z.shiftl (Z.land x0 31) 6) (Z.land (b2z b1) 63), 2%nat)
          else
            match p2 with
            | [] => (RuneError, 1%nat)
            | b2 :: p3 =>
              if negb (inRange 128 191 b2) then (RuneError, 1%nat)
              else if (sz <=? 3)%nat then
                (Z.lor (Z.lor (Z.shiftl (Z.land x0 15) 12)
                              (Z.shiftl (Z.land (b2z b1) 63) 6))
                       (Z.land (b2z b2) 63), 3%nat)
              else
                match p3 with
                | [] => (RuneError, 1%nat)
                | b3 :: _ =>
                  if negb (inRange 128 191 b3) then (RuneError, 1%nat)
                  else
                    (Z.lor (Z.lor (Z.lor (Z.shiftl (Z.land x0 7) 18)
                                         (Z.shiftl (Z.land (b2z b1) 63) 12))
                                  (Z.shiftl (Z.land (b2z b2) 63) 6))
                           (Z.land (b2z b3) 63), 4%nat)
                end
            end
        end
      end
  end.

(** [unicode.IsSpace]: the Unicode White_Space property. *)
Definition IsSpace (c : Z) : bool :=
  ((9 <=? c) && (c <=? 13)) || (c =? 32) || (c =? 133) || (c =? 160)
  || (c =? 5760) || ((8192 <=? c) && (c <=? 8202))
  || (c =? 8232) || (c =? 8233) || (c =? 8239) || (c =? 8287) || (c =? 12288).

(** ** The chroma style model *)

Module chroma.

(** [chroma.Trilean]. *)
Inductive Trilean : Type := Pass | Yes | No.

Definition Trilean_eqb (a b : Trilean) : bool :=
  match a, b with
  | Pass, Pass | Yes, Yes | No, No => true
  | _, _ => false
  end.

(** [chroma.Colour]: zero is the unset colour, [n+1] encodes RGB value [n]. *)
Definition Colour : Type := Z.

Definition IsSet (c : Colour) : bool := negb (c =? 0).
Definition Red (c : Colour) : Z := Z.land (Z.shiftr (c - 1) 16) 255.
Definition Green (c : Colour) : Z := Z.land (Z.shiftr (c - 1) 8) 255.
Definition Blue (c : Colour) : Z := Z.land (c - 1) 255.

Record StyleEntry : Type := {
  Colour_ : Colour;
  Background : Colour;
  Border : Colour;
  Bold : Trilean;
  Italic : Trilean;
  Underline : Trilean;
  NoInherit : bool
}.

(** The zero value of [StyleEntry]. *)
Definition zero : StyleEntry :=
  {| Colour_ := 0; Background := 0; Border := 0;
     Bold := Pass; Italic := Pass; Underline := Pass; NoInherit := false |}.

Definition IsZero (s : StyleEntry) : bool :=
  (Colour_ s =? 0) && (Background s =? 0) && (Border s =? 0)
  && Trilean_eqb (Bold s) Pass && Trilean_eqb (Italic s) Pass
  && Trilean_eqb (Underline s) Pass && negb (NoInherit s).

(** [chroma.TokenType] is an integer code. *)
Definition TokenType : Type := Z.
Definition Generic : TokenType := 4000.
Definition GenericDeleted : TokenType := 4001.
Definition GenericEmph : TokenType := 4002.
Definition GenericHeading : TokenType := 4004.
Definition GenericSubheading : TokenType := 4009.
Definition GenericUnderline : TokenType := 4011.
Definition LiteralStringHeredoc : TokenType := 3108.

(** A [*chroma.Style] is observed only through [Style.Get]. *)
Definition Style : Type := TokenType -> StyleEntry.

Record Token : Type := { Type_ : TokenType; Value : bytes }.

End chroma.

(** The token types declared by the [styles] package of the repository. *)
Module styles.
Definition TableHeader : chroma.TokenType := 9000.
Definition TableRow : chroma.TokenType := 9001.
Definition TableRowAlt : chroma.TokenType := 9002.
End styles.

(** ** The document tree (goldmark [ast] and [extension/ast] packages)

    The tree is produced by the external parser.  A node carries the
    attributes the renderer reads; a segment of the source buffer is
    represented by the bytes it denotes ([Segment.Value(source)]). *)

Module ast.

Inductive NodeKind : Type :=
| KindDocument | KindHeading | KindBlockquote | KindCodeBlock
| KindFencedCodeBlock | KindHTMLBlock | KindLinkReferenceDefinition
| KindList | KindListItem | KindParagraph | KindTextBlock | KindThematicBreak
| KindTable | KindTableHeader | KindTableRow | KindTableCell
| KindAutoLink | KindCodeSpan | KindEmphasis | KindImage | KindLink
| KindRawHTML | KindText | KindString | KindWhitespace
| KindOther.

Definition NodeKind_eqb (a b : NodeKind) : bool :=
  match a, b with
  | KindDocument, KindDocument | KindHeading, KindHeading
  | KindBlockquote, KindBlockquote | KindCodeBlock, KindCodeBlock
  | KindFencedCodeBlock, KindFencedCodeBlock | KindHTMLBlock, KindHTMLBlock
  | KindLinkReferenceDefinition, KindLinkReferenceDefinition
  | KindList, KindList | KindListItem, KindListItem
  | KindParagraph, KindParagraph | KindTextBlock, KindTextBlock
  | KindThematicBreak, KindThematicBreak | KindTable, KindTable
  | KindTableHeader, KindTableHeader | KindTableRow, KindTableRow
  | KindTableCell, KindTableCell | KindAutoLink, KindAutoLink
  | KindCodeSpan, KindCodeSpan | KindEmphasis, KindEmphasis
  | KindImage, KindImage | KindLink, KindLink | KindRawHTML, KindRawHTML
  | KindText, KindText | KindString, KindString
  | KindWhitespace, KindWhitespace | KindOther, KindOther => true
  | _, _ => false
  end.

Inductive LinkReferenceType : Type :=
| LinkInline | LinkFullReference | LinkCollapsedReference | LinkShortcutReference.

(** The kind-specific attributes of a node. *)
Inductive Data : Type :=
| Document
| Heading (Level : Z) (IsSetext : bool)
| Blockquote
| CodeBlock (Lines : list bytes)
| FencedCodeBlock (Fence Language : bytes) (Lines : list bytes)
| HTMLBlock (Lines : list bytes) (ClosureLine : option bytes)
| LinkReferenceDefinition (Lines : list bytes)
| List (Marker : byte) (IsOrdered : bool) (Start : Z)
| ListItem (Offset : Z)
| Paragraph
| TextBlock
| ThematicBreak
| Table
| TableHeader
| TableRow
| TableCell
| AutoLink (Label : bytes)
| CodeSpan (Backticks : Z)
| Emphasis (Marker : byte) (Level : Z)
| Image (ReferenceType : LinkReferenceType) (Label Destination Title : bytes)
| Link (ReferenceType : LinkReferenceType) (Label Destination Title : bytes)
| RawHTML (Segments : list bytes)
| Text (Value : bytes) (SoftLineBreak HardLineBreak : bool)
| String (Value : bytes)
| Whitespace (Value : bytes)
| Other.

Inductive Node : Type :=
| mkNode (data : Data) (HasBlankPreviousLines : bool)
         (LeadingWhitespace : bytes) (children : list Node).

Definition data (n : Node) : Data := let 'mkNode d _ _ _ := n in d.
Definition HasBlankPreviousLines (n : Node) : bool := let 'mkNode _ b _ _ := n in b.
Definition LeadingWhitespace (n : Node) : bytes := let 'mkNode _ _ ws _ := n in ws.
Definition children (n : Node) : list Node := let 'mkNode _ _ _ cs := n in cs.

Definition Kind (n : Node) : NodeKind :=
  match data n with
  | Document => KindDocument
  | Heading _ _ => KindHeading
  | Blockquote => KindBlockquote
  | CodeBlock _ => KindCodeBlock
  | FencedCodeBlock _ _ _ => KindFencedCodeBlock
  | HTMLBlock _ _ => KindHTMLBlock
  | LinkReferenceDefinition _ => KindLinkReferenceDefinition
  | List _ _ _ => KindList
  | ListItem _ => KindListItem
  | Paragraph => KindParagraph
  | TextBlock => KindTextBlock
  | ThematicBreak => KindThematicBreak
  | Table => KindTable
  | TableHeader => KindTableHeader
  | TableRow => KindTableRow
  | TableCell => KindTableCell
  | AutoLink _ => KindAutoLink
  | CodeSpan _ => KindCodeSpan
  | Emphasis _ _ => KindEmphasis
  | Image _ _ _ _ => KindImage
  | Link _ _ _ _ => KindLink
  | RawHTML _ => KindRawHTML
  | Text _ _ _ => KindText
  | String _ => KindString
  | Whitespace _ => KindWhitespace
  | Other => KindOther
  end.

(** What a node sees of its surroundings: [Parent()], whether it is the
    parent's [FirstChild()], and the kind of its [PreviousSibling()]. *)
Record Context : Type := {
  parent : option (NodeKind * bool);   (* kind, HasBlankPreviousLines *)
  isFirstChild : bool;
  previousSibling : option NodeKind
}.

Definition rootContext : Context :=
  {| parent := None; isFirstChild := false; previousSibling := None |}.

Inductive WalkStatus : Type := WalkStop | WalkSkipChildren | WalkContinue.

End ast.

(** ** Renderer state *)

Record blockState : Type := {
  node : ast.Node;
  fresh : bool
}.

Record listState : Type := {
  marker : byte;
  ordered : bool;
  index : Z
}.

Record tableState : Type := {
  columnWidths : list Z;
  cellWidths : list Z;
  rowIndex : Z;
  columnIndex : Z;
  cellIndex : Z;
  measuring : bool
}.

(** [NodeSpan]; the pointer fields are indices into the span heap. *)
Record NodeSpan : Type := {
  Start : Z;
  End_ : Z;
  Node : ast.Node;
  Parent : option nat;
  Next : option nat;
  Prev : option nat;
  Children : list nat
}.

Definition Contains (s : NodeSpan) (offset : Z) : bool :=
  (Start s <=? offset) && (offset <? End_ s).

Record Renderer : Type := {
  theme : option chroma.Style;
  wordWrap : Z;
  hyperlinks : bool;
  images : bool;
  maxImageWidth : Z;
  contentRoot : bytes;
  softBreak : bool;

  listStack : list listState;
  tableStack : list tableState;
  openBlocks : list blockState;
  wrapping : list bool;
  spanStack : list nat;
  lastSpan : option nat;

  rootSpan : option nat;

  styles : list chroma.StyleEntry;
  prefixStack : list bytes;
  prefix : bytes;
  wordBuffer : bytes;
  lineWidth : Z;
  atNewline : bool;
  byteOffset : Z;
  inImage : bool;

  heap : list NodeSpan;   (* the NodeSpan objects allocated so far *)
  sink : bytes            (* the bytes received by the writer [w] *)
}.

Definition set_listStack (v : _) (r : Renderer) : Renderer :=
  {| theme := theme r; wordWrap := wordWrap r; hyperlinks := hyperlinks r; images := images r;
     maxImageWidth := maxImageWidth r; contentRoot := contentRoot r; softBreak := softBreak r;
     listStack := v; tableStack := tableStack r; openBlocks := openBlocks r;
     wrapping := wrapping r; spanStack := spanStack r; lastSpan := lastSpan r;
     rootSpan := rootSpan r; styles := styles r; prefixStack := prefixStack r;
     prefix := prefix r; wordBuffer := wordBuffer r; lineWidth := lineWidth r;
     atNewline := atNewline r; byteOffset := byteOffset r; inImage := inImage r;
     heap := heap r; sink := sink r |}.
Definition set_tableStack (v : _) (r : Renderer) : Renderer :=
  {| theme := theme r; wordWrap := wordWrap r; hyperlinks := hyperlinks r; images := images r;
     maxImageWidth := maxImageWidth r; contentRoot := contentRoot r; softBreak := softBreak r;
     listStack := listStack r; tableStack := v; openBlocks := openBlocks r;
     wrapping := wrapping r; spanStack := spanStack r; lastSpan := lastSpan r;
     rootSpan := rootSpan r; styles := styles r; prefixStack := prefixStack r;
     prefix := prefix r; wordBuffer := wordBuffer r; lineWidth := lineWidth r;
     atNewline := atNewline r; byteOffset := byteOffset r; inImage := inImage r;
     heap := heap r; sink := sink r |}.
Definition set_openBlocks (v : _) (r : Renderer) : Renderer :=
  {| theme := theme r; wordWrap := wordWrap r; hyperlinks := hyperlinks r; images := images r;
     maxImageWidth := maxImageWidth r; contentRoot := contentRoot r; softBreak := softBreak r;
     listStack := listStack r; tableStack := tableStack r; openBlocks := v;
     wrapping := wrapping r; spanStack := spanStack r; lastSpan := lastSpan r;
     rootSpan := rootSpan r; styles := styles r; prefixStack := prefixStack r;
     prefix := prefix r; wordBuffer := wordBuffer r; lineWidth := lineWidth r;
     atNewline := atNewline r; byteOffset := byteOffset r; inImage := inImage r;
     heap := heap r; sink := sink r |}.
Definition set_wrapping (v : _) (r : Renderer) : Renderer :=
  {| theme := theme r; wordWrap := wordWrap r; hyperlinks := hyperlinks r; images := images r;
     maxImageWidth := maxImageWidth r; contentRoot := contentRoot r; softBreak := softBreak r;
     listStack := listStack r; tableStack := tableStack r; openBlocks := openBlocks r;
     wrapping := v; spanStack := spanStack r; lastSpan := lastSpan r; rootSpan := rootSpan r;
     styles := styles r; prefixStack := prefixStack r; prefix := prefix r;
     wordBuffer := wordBuffer r; lineWidth := lineWidth r; atNewline := atNewline r;
     byteOffset := byteOffset r; inImage := inImage r; heap := heap r; sink := sink r |}.
Definition set_spanStack (v : _) (r : Renderer) : Renderer :=
  {| theme := theme r; wordWrap := wordWrap r; hyperlinks := hyperlinks r; images := images r;
     maxImageWidth := maxImageWidth r; contentRoot := contentRoot r; softBreak := softBreak r;
     listStack := listStack r; tableStack := tableStack r; openBlocks := openBlocks r;
     wrapping := wrapping r; spanStack := v; lastSpan := lastSpan r; rootSpan := rootSpan r;
     styles := styles r; prefixStack := prefixStack r; prefix := prefix r;
     wordBuffer := wordBuffer r; lineWidth := lineWidth r; atNewline := atNewline r;
     byteOffset := byteOffset r; inImage := inImage r; heap := heap r; sink := sink r |}.
Definition set_lastSpan (v : _) (r : Renderer) : Renderer :=
  {| theme := theme r; wordWrap := wordWrap r; hyperlinks := hyperlinks r; images := images r;
     maxImageWidth := maxImageWidth r; contentRoot := contentRoot r; softBreak := softBreak r;
     listStack := listStack r; tableStack := tableStack r; openBlocks := openBlocks r;
     wrapping := wrapping r; spanStack := spanStack r; lastSpan := v; rootSpan := rootSpan r;
     styles := styles r; prefixStack := prefixStack r; prefix := prefix r;
     wordBuffer := wordBuffer r; lineWidth := lineWidth r; atNewline := atNewline r;
     byteOffset := byteOffset r; inImage := inImage r; heap := heap r; sink := sink r |}.
Definition set_rootSpan (v : _) (r : Renderer) : Renderer :=
  {| theme := theme r; wordWrap := wordWrap r; hyperlinks := hyperlinks r; images := images r;
     maxImageWidth := maxImageWidth r; contentRoot := contentRoot r; softBreak := softBreak r;
     listStack := listStack r; tableStack := tableStack r; openBlocks := openBlocks r;
     wrapping := wrapping r; spanStack := spanStack r; lastSpan := lastSpan r; rootSpan := v;
     styles := styles r; prefixStack := prefixStack r; prefix := prefix r;
     wordBuffer := wordBuffer r; lineWidth := lineWidth r; atNewline := atNewline r;
     byteOffset := byteOffset r; inImage := inImage r; heap := heap r; sink := sink r |}.
Definition set_styles (v : _) (r : Renderer) : Renderer :=
  {| theme := theme r; wordWrap := wordWrap r; hyperlinks := hyperlinks r; images := images r;
     maxImageWidth := maxImageWidth r; contentRoot := contentRoot r; softBreak := softBreak r;
     listStack := listStack r; tableStack := tableStack r; openBlocks := openBlocks r;
     wrapping := wrapping r; spanStack := spanStack r; lastSpan := lastSpan r;
     rootSpan := rootSpan r; styles := v; prefixStack := prefixStack r; prefix := prefix r;
     wordBuffer := wordBuffer r; lineWidth := lineWidth r; atNewline := atNewline r;
     byteOffset := byteOffset r; inImage := inImage r; heap := heap r; sink := sink r |}.
Definition set_prefixStack (v : _) (r : Renderer) : Renderer :=
  {| theme := theme r; wordWrap := wordWrap r; hyperlinks := hyperlinks r; images := images r;
     maxImageWidth := maxImageWidth r; contentRoot := contentRoot r; softBreak := softBreak r;
     listStack := listStack r; tableStack := tableStack r; openBlocks := openBlocks r;
     wrapping := wrapping r; spanStack := spanStack r; lastSpan := lastSpan r;
     rootSpan := rootSpan r; styles := styles r; prefixStack := v; prefix := prefix r;
     wordBuffer := wordBuffer r; lineWidth := lineWidth r; atNewline := atNewline r;
     byteOffset := byteOffset r; inImage := inImage r; heap := heap r; sink := sink r |}.
Definition set_prefix (v : _) (r : Renderer) : Renderer :=
  {| theme := theme r; wordWrap := wordWrap r; hyperlinks := hyperlinks r; images := images r;
     maxImageWidth := maxImageWidth r; contentRoot := contentRoot r; softBreak := softBreak r;
     listStack := listStack r; tableStack := tableStack r; openBlocks := openBlocks r;
     wrapping := wrapping r; spanStack := spanStack r; lastSpan := lastSpan r;
     rootSpan := rootSpan r; styles := styles r; prefixStack := prefixStack r; prefix := v;
     wordBuffer := wordBuffer r; lineWidth := lineWidth r; atNewline := atNewline r;
     byteOffset := byteOffset r; inImage := inImage r; heap := heap r; sink := sink r |}.
Definition set_wordBuffer (v : _) (r : Renderer) : Renderer :=
  {| theme := theme r; wordWrap := wordWrap r; hyperlinks := hyperlinks r; images := images r;
     maxImageWidth := maxImageWidth r; contentRoot := contentRoot r; softBreak := softBreak r;
     listStack := listStack r; tableStack := tableStack r; openBlocks := openBlocks r;
     wrapping := wrapping r; spanStack := spanStack r; lastSpan := lastSpan r;
     rootSpan := rootSpan r; styles := styles r; prefixStack := prefixStack r;
     prefix := prefix r; wordBuffer := v; lineWidth := lineWidth r; atNewline := atNewline r;
     byteOffset := byteOffset r; inImage := inImage r; heap := heap r; sink := sink r |}.
Definition set_lineWidth (v : _) (r : Renderer) : Renderer :=
  {| theme := theme r; wordWrap := wordWrap r; hyperlinks := hyperlinks r; images := images r;
     maxImageWidth := maxImageWidth r; contentRoot := contentRoot r; softBreak := softBreak r;
     listStack := listStack r; tableStack := tableStack r; openBlocks := openBlocks r;
     wrapping := wrapping r; spanStack := spanStack r; lastSpan := lastSpan r;
     rootSpan := rootSpan r; styles := styles r; prefixStack := prefixStack r;
     prefix := prefix r; wordBuffer := wordBuffer r; lineWidth := v; atNewline := atNewline r;
     byteOffset := byteOffset r; inImage := inImage r; heap := heap r; sink := sink r |}.
Definition set_atNewline (v : _) (r : Renderer) : Renderer :=
  {| theme := theme r; wordWrap := wordWrap r; hyperlinks := hyperlinks r; images := images r;
     maxImageWidth := maxImageWidth r; contentRoot := contentRoot r; softBreak := softBreak r;
     listStack := listStack r; tableStack := tableStack r; openBlocks := openBlocks r;
     wrapping := wrapping r; spanStack := spanStack r; lastSpan := lastSpan r;
     rootSpan := rootSpan r; styles := styles r; prefixStack := prefixStack r;
     prefix := prefix r; wordBuffer := wordBuffer r; lineWidth := lineWidth r; atNewline := v;
     byteOffset := byteOffset r; inImage := inImage r; heap := heap r; sink := sink r |}.
Definition set_byteOffset (v : _) (r : Renderer) : Renderer :=
  {| theme := theme r; wordWrap := wordWrap r; hyperlinks := hyperlinks r; images := images r;
     maxImageWidth := maxImageWidth r; contentRoot := contentRoot r; softBreak := softBreak r;
     listStack := listStack r; tableStack := tableStack r; openBlocks := openBlocks r;
     wrapping := wrapping r; spanStack := spanStack r; lastSpan := lastSpan r;
     rootSpan := rootSpan r; styles := styles r; prefixStack := prefixStack r;
     prefix := prefix r; wordBuffer := wordBuffer r; lineWidth := lineWidth r;
     atNewline := atNewline r; byteOffset := v; inImage := inImage r; heap := heap r;
     sink := sink r |}.
Definition set_inImage (v : _) (r : Renderer) : Renderer :=
  {| theme := theme r; wordWrap := wordWrap r; hyperlinks := hyperlinks r; images := images r;
     maxImageWidth := maxImageWidth r; contentRoot := contentRoot r; softBreak := softBreak r;
     listStack := listStack r; tableStack := tableStack r; openBlocks := openBlocks r;
     wrapping := wrapping r; spanStack := spanStack r; lastSpan := lastSpan r;
     rootSpan := rootSpan r; styles := styles r; prefixStack := prefixStack r;
     prefix := prefix r; wordBuffer := wordBuffer r; lineWidth := lineWidth r;
     atNewline := atNewline r; byteOffset := byteOffset r; inImage := v; heap := heap r;
     sink := sink r |}.
Definition set_heap (v : _) (r : Renderer) : Renderer :=
  {| theme := theme r; wordWrap := wordWrap r; hyperlinks := hyperlinks r; images := images r;
     maxImageWidth := maxImageWidth r; contentRoot := contentRoot r; softBreak := softBreak r;
     listStack := listStack r; tableStack := tableStack r; openBlocks := openBlocks r;
     wrapping := wrapping r; spanStack := spanStack r; lastSpan := lastSpan r;
     rootSpan := rootSpan r; styles := styles r; prefixStack := prefixStack r;
     prefix := prefix r; wordBuffer := wordBuffer r; lineWidth := lineWidth r;
     atNewline := atNewline r; byteOffset := byteOffset r; inImage := inImage r; heap := v;
     sink := sink r |}.
Definition set_sink (v : _) (r : Renderer) : Renderer :=
  {| theme := theme r; wordWrap := wordWrap r; hyperlinks := hyperlinks r; images := images r;
     maxImageWidth := maxImageWidth r; contentRoot := contentRoot r; softBreak := softBreak r;
     listStack := listStack r; tableStack := tableStack r; openBlocks := openBlocks r;
     wrapping := wrapping r; spanStack := spanStack r; lastSpan := lastSpan r;
     rootSpan := rootSpan r; styles := styles r; prefixStack := prefixStack r;
     prefix := prefix r; wordBuffer := wordBuffer r; lineWidth := lineWidth r;
     atNewline := atNewline r; byteOffset := byteOffset r; inImage := inImage r;
     heap := heap r; sink := v |}.

(** [New]: a renderer with the given options; every other field has its
    zero value. *)
Definition New (theme : option chroma.Style) (wordWrap : Z) (hyperlinks : bool)
    (images : bool) (maxImageWidth : Z) (contentRoot : bytes) (softBreak : bool)
  : Renderer :=
  {| theme := theme; wordWrap := wordWrap; hyperlinks := hyperlinks; images := images;
     maxImageWidth := maxImageWidth; contentRoot := contentRoot; softBreak := softBreak;
     listStack := []; tableStack := []; openBlocks := []; wrapping := [];
     spanStack := []; lastSpan := None; rootSpan := None; styles := [];
     prefixStack := []; prefix := []; wordBuffer := []; lineWidth := 0;
     atNewline := false; byteOffset := 0; inImage := false; heap := []; sink := [] |}.

(** ** The monad of renderer methods *)

Definition M (A : Type) : Type := Renderer -> outcome (A * Renderer).

Definition ret {A} (a : A) : M A := fun r => Ok (a, r).

Definition bind {A B} (m : M A) (f : A -> M B) : M B :=
  fun r =>
    match m r with
    | Ok (a, r') => f a r'
    | Fail e => Fail e
    | Panic p => Panic p
    end.

Definition raise {A} (p : panic) : M A := fun _ => Panic p.
Definition fail {A} (e : bytes) : M A := fun _ => Fail e.
Definition get : M Renderer := fun r => Ok (r, r).
Definition modify (f : Renderer -> Renderer) : M unit := fun r => Ok (tt, f r).
Definition lift {A} (o : outcome A) : M A :=
  fun r => match o with Ok a => Ok (a, r) | Fail e => Fail e | Panic p => Panic p end.

Declare Scope go_scope.
Delimit Scope go_scope with go.
Notation "'let*' x ':=' c1 'in' c2" := (bind c1 (fun x => c2))
  (at level 10, x name, c1 at level 100, c2 at level 200) : go_scope.
Notation "c1 ';;' c2" := (bind c1 (fun _ => c2))
  (at level 100, c2 at level 200, right associativity) : go_scope.
Local Open Scope go_scope.

(** Writing to the destination writer directly. *)
Definition wWrite (b : bytes) : M unit := modify (fun r => set_sink (sink r ++ b) r).

Definition when (c : bool) (m : M unit) : M unit := if c then m else ret tt.

Fixpoint forEach {A} (l : list A) (f : A -> M unit) : M unit :=
  match l with
  | [] => ret tt
  | x :: l' => f x ;; forEach l' f
  end.

(** ** External collaborators

    The grapheme segmentation of [uniseg], the control-sequence decoder of
    [ansicsi], the chroma lexers and the image pipeline are outside the
    repository; the renderer is parametrised by them. *)

Inductive lexResult : Type :=
| NoLexer
| LexError (err : bytes)
| Tokens (ts : list chroma.Token).

Record Externals : Type := {
  (** [uniseg.GraphemeClusterCount] *)
  GraphemeClusterCount : bytes -> nat;
  (** the size returned by [ansicsi.Decode]: zero when the buffer does not
      start with a control sequence *)
  csiDecode : bytes -> nat;
  (** [lexers.Get] or [lexers.Analyse], followed by [Tokenise] *)
  tokenise : bytes -> bytes -> lexResult;
  (** [openImage], [image.Decode], [resize.Thumbnail] and the base64 PNG
      encoding of [renderImage]: the encoded data, or an error *)
  encodeImage : bytes -> Z -> bytes -> option bytes
}.

Section Writer.

Context (ext : Externals).

(** *** Width measurement *)

(** The loop of [measureText]: [seg] is [buf[start:end]] and [rest] is
    [buf[end:]].  Every iteration that continues consumes a byte of
    [rest], so [S (length buf)] iterations suffice. *)
Fixpoint measureLoop (fuel : nat) (seg rest : bytes) (width : Z) : Z :=
  match fuel with
  | O => width
  | S fuel' =>
    let sz := csiDecode ext rest in
    if negb (sz =? 0)%nat || (length rest =? 0)%nat then
      let width' := width + Z.of_nat (GraphemeClusterCount ext seg) in
      match skipn sz rest with
      | [] => width'
      | rest' => measureLoop fuel' [] rest' width'
      end
    else
      match rest with
      | [] => width
      | c :: rest' => measureLoop fuel' (seg ++ [c]) rest' width
      end
  end.

Definition measureText (buf : bytes) : Z :=
  match buf with
  | [] => 0
  | _ => measureLoop (S (length buf)) [] buf 0
  end.

(** *** The line writer *)

Definition isContinuation (r : Renderer) : bool :=
  match top (openBlocks r) with
  | Some current =>
    ast.NodeKind_eqb (ast.Kind (node current)) ast.KindParagraph && negb (fresh current)
  | None => false
  end.

Definition beginLine : M unit :=
  fun r =>
    if isContinuation r then Ok (tt, r)
    else
      let n := len (prefix r) in
      let r := set_sink (sink r ++ prefix r) r in
      if n =? 0 then Ok (tt, r)
      else
        let r := set_atNewline
                   (match last (prefix r) with
                    | Some c => Byte.eqb c newline
                    | None => false
                    end) r in
        let r := if atNewline r then r else set_lineWidth n r in
        Ok (tt, set_byteOffset (byteOffset r + n) r).

(** The pieces [write] cuts a buffer into: the bytes up to the next
    newline, and whether a newline follows them. *)
Fixpoint chunks (buf : bytes) : list (bytes * bool) :=
  match buf with
  | [] => []
  | c :: rest =>
    if Byte.eqb c newline then ([], true) :: chunks rest
    else
      match chunks rest with
      | [] => [([c], false)]
      | (line, hasNewline) :: cs => (c :: line, hasNewline) :: cs
      end
  end.

Definition markNotFresh (bs : list blockState) : list blockState :=
  match top bs with
  | Some b => pop bs ++ [{| node := node b; fresh := false |}]
  | None => bs
  end.

(** One iteration of the loop of [write]. *)
Definition writeChunk (line : bytes) (hasNewline : bool) : M unit :=
  let* r0 := get in
  when (atNewline r0 && negb (measureText line =? 0)) beginLine ;;
  (* write up to the newline *)
  wWrite line ;;
  let writtenWidth := measureText line in
  when hasNewline (
    (* pad out to the wrap width if necessary *)
    let* r := get in
    let remaining := wordWrap r - (lineWidth r + writtenWidth) in
    (if remaining <? 0 then
       if wordWrap r =? 0 then raise DivideByZero
       else
         let* pad := lift (Repeat [space] (wordWrap r - Z.rem (- remaining) (wordWrap r))) in
         wWrite pad
     else if 0 <? remaining then
       let* pad := lift (Repeat [space] remaining) in
       wWrite pad
     else ret tt) ;;
    (* write the newline *)
    wWrite [newline]) ;;
  modify (fun r =>
    let r := set_atNewline (atNewline r && (writtenWidth =? 0) || hasNewline) r in
    let r := if atNewline r then set_lineWidth 0 r
             else set_lineWidth (lineWidth r + writtenWidth) r in
    set_openBlocks (markNotFresh (openBlocks r)) r).

Fixpoint writeChunks (cs : list (bytes * bool)) (written : Z) : M Z :=
  match cs with
  | [] => ret written
  | (line, hasNewline) :: cs' =>
    writeChunk line hasNewline ;;
    writeChunks cs' (written + len line)
  end.

(** [write]: the result counts the bytes written before each newline;
    the newline itself is added to [n] after [written += n]. *)
Definition write (buf : bytes) : M Z := writeChunks (chunks buf) 0.

(** *** The word-wrap buffer *)

Definition WordWrap (r : Renderer) : bool :=
  (0 <? wordWrap r) && (0 <? len (wrapping r))
  && match top (wrapping r) with Some b => b | None => false end.

Definition PushWordWrap (wrap : bool) : M unit :=
  modify (fun r => set_wrapping (wrapping r ++ [wrap]) r).

Definition PopWordWrap : M unit :=
  fun r =>
    match wrapping r with
    | [] => Panic IndexOutOfRange
    | _ => Ok (tt, set_wrapping (pop (wrapping r)) r)
    end.

Definition flushWordBuffer : M unit :=
  let* r := get in
  let buf := wordBuffer r in
  let wordWidth := measureText buf in
  (* If the currently buffered word would exceed the wrap point, write a newline. *)
  when ((0 <? lineWidth r) && (wordWrap r <=? lineWidth r + wordWidth)) (
    write [newline] ;;
    modify (fun r => set_byteOffset (byteOffset r + 1) r)) ;;
  write buf ;;
  modify (set_wordBuffer []).

(** The rune loop of [Write] when wrapping is enabled. *)
Fixpoint WriteRunes (fuel : nat) (buf : bytes) (written : Z) : M Z :=
  match fuel, buf with
  | _, [] => ret written
  | O, _ => ret written
  | S fuel', _ =>
    let '(c, sz) := DecodeRune buf in
    (if IsSpace c then
       (* Flush the word buffer, then write out the whitespace. *)
       flushWordBuffer ;;
       write (firstn sz buf) ;;
       ret tt
     else
       modify (fun r => set_wordBuffer (wordBuffer r ++ firstn sz buf) r)) ;;
    modify (fun r => set_byteOffset (byteOffset r + Z.of_nat sz) r) ;;
    WriteRunes fuel' (skipn sz buf) (written + Z.of_nat sz)
  end.

Definition Write (buf : bytes) : M Z :=
  let* r := get in
  if negb (WordWrap r) then
    (* a transition between wrapping and no wrapping: empty the buffer *)
    when (0 <? len (wordBuffer r)) flushWordBuffer ;;
    let* n := write buf in
    modify (fun r => set_byteOffset (byteOffset r + n) r) ;;
    ret n
  else WriteRunes (length buf) buf 0.

Definition WriteByte (c : byte) : M unit := Write [c] ;; ret tt.
Definition WriteRune (encoded : bytes) : M Z := Write encoded.
Definition WriteString (s : bytes) : M Z := Write s.

End Writer.

(** ** The span-tree builder *)

Definition addChild (p : nat) (s : NodeSpan) : NodeSpan :=
  {| Start := Start s; End_ := End_ s; Node := Node s; Parent := Parent s;
     Next := Next s; Prev := Prev s; Children := Children s ++ [p] |}.

Definition setNext (p : nat) (s : NodeSpan) : NodeSpan :=
  {| Start := Start s; End_ := End_ s; Node := Node s; Parent := Parent s;
     Next := Some p; Prev := Prev s; Children := Children s |}.

Definition setEnd (e : Z) (s : NodeSpan) : NodeSpan :=
  {| Start := Start s; End_ := e; Node := Node s; Parent := Parent s;
     Next := Next s; Prev := Prev s; Children := Children s |}.

(** [OpenSpan] begins a new span associated with the given node.  The new
    span is allocated at the end of the heap. *)
Definition OpenSpan (n : ast.Node) : M unit :=
  fun r =>
    let p := length (heap r) in
    let span := {| Start := byteOffset r; End_ := 0; Node := n;
                   Parent := top (spanStack r); Next := None;
                   Prev := lastSpan r; Children := [] |} in
    let h := heap r in
    let h := match top (spanStack r) with
             | Some q => alter (addChild p) q h
             | None => h
             end in
    let root := match top (spanStack r) with
                | Some _ => rootSpan r
                | None => Some p
                end in
    let h := match lastSpan r with
             | Some l => alter (setNext p) l h
             | None => h
             end in
    Ok (tt, set_spanStack (spanStack r ++ [p])
              (set_lastSpan (Some p)
                 (set_rootSpan root
                    (set_heap (h ++ [span]) r)))).

(** [CloseSpan] closes the current span. *)
Definition CloseSpan : M unit :=
  fun r =>
    match top (spanStack r) with
    | None => Panic IndexOutOfRange
    | Some p =>
      Ok (tt, set_heap (alter (setEnd (byteOffset r)) p (heap r))
                (set_spanStack (pop (spanStack r)) r))
    end.

(** [SpanTree]: the root of the span tree of the last render. *)
Definition SpanTree (r : Renderer) : option NodeSpan :=
  match rootSpan r with
  | Some p => heap r !! p
  | None => None
  end.

(** ** Prefixes *)

Definition PushPrefix (p : bytes) : M unit :=
  modify (fun r => set_prefix (prefix r ++ p) (set_prefixStack (prefixStack r ++ [p]) r)).

Definition PushIndent (amount : Z) : M unit :=
  let* p := lift (Repeat [space] amount) in
  PushPrefix p.

Definition PopPrefix : M unit :=
  fun r =>
    match top (prefixStack r) with
    | None => Panic IndexOutOfRange
    | Some p =>
      if len (prefix r) <? len p then Panic IndexOutOfRange
      else Ok (tt, set_prefixStack (pop (prefixStack r))
                     (set_prefix (firstn (length (prefix r) - length p) (prefix r)) r))
    end.

(** ** Styles (the SGR codec) *)

Definition FormatInt (z : Z) : bytes := str (NilZero.string_of_int (Z.to_int z)).

Definition escape : byte := x1b.

(** The parameter text of a colour command: [";2;R;G;B"] after the
    command number. *)
Definition colorCommand (command : bytes) (color : chroma.Colour) : bytes :=
  command ++ str ";2;" ++ FormatInt (chroma.Red color) ++ str ";"
          ++ FormatInt (chroma.Green color) ++ str ";" ++ FormatInt (chroma.Blue color).

Definition tristateCommand (off on : bytes) (value : chroma.Trilean) : bytes :=
  match value with
  | chroma.Yes => on
  | _ => off
  end.

Section Styles.

Context (ext : Externals).

Definition writeSGR (command : bytes) : M unit :=
  Write ext ([escape] ++ str "[" ++ command ++ str "m") ;; ret tt.

Definition writeTristateSGR (off on : bytes) (value : chroma.Trilean) : M unit :=
  match value with
  | chroma.Yes => writeSGR on
  | _ => writeSGR off
  end.

Definition writeColorSGR (command : bytes) (color : chroma.Colour) : M unit :=
  writeSGR (colorCommand command color).

Definition writeDelta (base new : chroma.StyleEntry) : M unit :=
  if chroma.IsZero new then
    (* Write a reset command. *)
    writeSGR (str "0")
  else
    when (chroma.IsSet (chroma.Background new)
          && (chroma.IsZero base
              || negb (chroma.Background new =? chroma.Background base)))
      (writeColorSGR (str "48") (chroma.Background new)) ;;
    when (chroma.IsSet (chroma.Colour_ new)
          && (chroma.IsZero base || negb (chroma.Colour_ new =? chroma.Colour_ base)))
      (writeColorSGR (str "38") (chroma.Colour_ new)) ;;
    when (chroma.IsZero base
          || negb (chroma.Trilean_eqb (chroma.Bold new) (chroma.Bold base)))
      (writeTristateSGR (str "22") (str "1") (chroma.Bold new)) ;;
    when (chroma.IsZero base
          || negb (chroma.Trilean_eqb (chroma.Underline new) (chroma.Underline base)))
      (writeTristateSGR (str "24") (str "4") (chroma.Underline new)) ;;
    when (chroma.IsZero base
          || negb (chroma.Trilean_eqb (chroma.Italic new) (chroma.Italic base)))
      (writeTristateSGR (str "23") (str "3") (chroma.Italic new)).

Definition inherit (t base : chroma.Trilean) : chroma.Trilean :=
  match t with
  | chroma.Pass => base
  | _ => t
  end.

(** The token style of [PushStyle] after its [Pass] attributes have been
    taken from the current top of the stack. *)
Definition resolve (tokenStyle base : chroma.StyleEntry) : chroma.StyleEntry :=
  {| chroma.Colour_ := chroma.Colour_ tokenStyle;
     chroma.Background := chroma.Background tokenStyle;
     chroma.Border := chroma.Border tokenStyle;
     chroma.Bold := inherit (chroma.Bold tokenStyle) (chroma.Bold base);
     chroma.Italic := inherit (chroma.Italic tokenStyle) (chroma.Italic base);
     chroma.Underline := inherit (chroma.Underline tokenStyle) (chroma.Underline base);
     chroma.NoInherit := chroma.NoInherit tokenStyle |}.

Definition topStyle (ss : list chroma.StyleEntry) : chroma.StyleEntry :=
  match top ss with
  | Some s => s
  | None => chroma.zero
  end.

Definition PushStyle (token : chroma.TokenType) : M unit :=
  let* r := get in
  match theme r with
  | None => ret tt
  | Some th =>
    let tokenStyle := th token in
    if chroma.IsZero tokenStyle then ret tt
    else
      let base := topStyle (styles r) in
      let tokenStyle := resolve tokenStyle base in
      writeDelta base tokenStyle ;;
      modify (fun r => set_styles (styles r ++ [tokenStyle]) r)
  end.

Definition PopStyle : M unit :=
  let* r := get in
  match theme r with
  | None => ret tt
  | Some _ =>
    let new := topStyle (pop (styles r)) in
    match top (styles r) with
    | None => raise IndexOutOfRange
    | Some cur =>
      writeDelta cur new ;;
      modify (fun r => set_styles (pop (styles r)) r)
    end
  end.

End Styles.

(** ** Rendering functions *)

(** The box-drawing runes of [borders], in their UTF-8 encoding. *)
Module borders.
Definition topLeft : bytes := [xe2; x95; xad].      (* U+256D *)
Definition topJoin : bytes := [xe2; x94; xac].      (* U+252C *)
Definition topRight : bytes := [xe2; x95; xae].     (* U+256E *)
Definition middleLeft : bytes := [xe2; x94; x9c].   (* U+251C *)
Definition middleJoin : bytes := [xe2; x94; xbc].   (* U+253C *)
Definition middleRight : bytes := [xe2; x94; xa4].  (* U+2524 *)
Definition bottomLeft : bytes := [xe2; x95; xb0].   (* U+2570 *)
Definition bottomJoin : bytes := [xe2; x94; xb4].   (* U+2534 *)
Definition bottomRight : bytes := [xe2; x95; xaf].  (* U+256F *)
Definition vertical : bytes := [xe2; x94; x82].     (* U+2502 *)
Definition horizontal : bytes := [xe2; x94; x80].   (* U+2500 *)
End borders.

(** [util.FirstNonSpacePosition] of goldmark: the index of the first byte
    that is neither a space nor a tab, or [-1] when there is none before the
    end of the line. *)
Fixpoint FirstNonSpacePosition_from (i : Z) (bs : bytes) : Z :=
  match bs with
  | [] => -1
  | c :: bs' =>
    if Byte.eqb c space || Byte.eqb c x09 then FirstNonSpacePosition_from (i + 1) bs'
    else if Byte.eqb c newline then -1
    else i
  end.

Definition FirstNonSpacePosition (bs : bytes) : Z := FirstNonSpacePosition_from 0 bs.

(** The segment value of a child of a code span: the child must be an
    [*ast.Text]. *)
Definition textSegment (c : ast.Node) : outcome bytes :=
  match ast.data c with
  | ast.Text v _ _ => Ok v
  | _ => Panic BadTypeAssertion
  end.

(** The whitespace scan of [shouldPadCodeSpan]: [text] is the segment of the
    current child, [rest] its next siblings.  The result is [allWhitespace]
    and the segment the scan stopped at. *)
Fixpoint scanWhitespace (text : bytes) (rest : list ast.Node) : outcome (bool * bytes) :=
  if negb (FirstNonSpacePosition text =? -1) then Ok (false, text)
  else
    match rest with
    | [] => Ok (true, text)
    | c :: rest' =>
      match textSegment c with
      | Ok text' => scanWhitespace text' rest'
      | Fail e => Fail e
      | Panic p => Panic p
      end
    end.

Definition shouldPadCodeSpan (children : list ast.Node) : outcome bool :=
  match children with
  | [] => Ok false
  | c :: rest =>
    match textSegment c with
    | Ok text =>
      let firstChar := match text with b :: _ => b | [] => x00 end in
      match scanWhitespace text rest with
      | Ok (allWhitespace, text) =>
        if allWhitespace then Ok false
        else
          let lastChar := match last text with Some b => b | None => x00 end in
          Ok (Byte.eqb firstChar backtick || Byte.eqb firstChar space
              || Byte.eqb lastChar backtick || Byte.eqb lastChar space)
      | Fail e => Fail e
      | Panic p => Panic p
      end
    | Fail e => Fail e
    | Panic p => Panic p
    end
  end.

Definition escapeLinkDest (dest : bytes) : bytes :=
  let requiresEscaping :=
    existsb (fun c => (b2z c <=? 32) || Byte.eqb c x28 || Byte.eqb c x29 || (b2z c =? 127)) dest in
  if negb requiresEscaping then dest
  else
    [x3c] ++ flat_map (fun c => if Byte.eqb c x3c || Byte.eqb c x3e then [x5c; c] else [c]) dest
          ++ [x3e].

(** [linkTitleDelimiter]: a single quote when the title holds a double quote
    that no backslash precedes. *)
Fixpoint linkTitleDelimiter_from (prev : option byte) (title : bytes) : byte :=
  match title with
  | [] => x22
  | c :: title' =>
    if Byte.eqb c x22
       && match prev with None => true | Some p => negb (Byte.eqb p x5c) end
    then x27
    else linkTitleDelimiter_from (Some c) title'
  end.

Definition linkTitleDelimiter (title : bytes) : byte := linkTitleDelimiter_from None title.

Definition replaceTop {A} (l : list A) (x : A) : list A := pop l ++ [x].

Fixpoint mapM {A B} (f : A -> M B) (l : list A) : M (list B) :=
  match l with
  | [] => ret []
  | x :: l' => let* y := f x in let* ys := mapM f l' in ret (y :: ys)
  end.

(** The accumulation of column widths in [RenderTable], for the cell of
    column [col] whose measured width is [n]. *)
Definition growColumns (columnWidths : list Z) (col : nat) (n : Z) : list Z :=
  let columnWidths := columnWidths ++ repeat 0 (S col - length columnWidths) in
  match columnWidths !! col with
  | Some w => if w <? n then <[col := n]> columnWidths else columnWidths
  | None => columnWidths
  end.

Fixpoint measureRow (columnWidths cellWidths : list Z) (col : nat) (cells : list Z)
  : list Z * list Z :=
  match cells with
  | [] => (columnWidths, cellWidths)
  | n :: cells' => measureRow (growColumns columnWidths col n) (cellWidths ++ [n]) (S col) cells'
  end.

Fixpoint measureRows (columnWidths cellWidths : list Z) (rows : list (list Z))
  : list Z * list Z :=
  match rows with
  | [] => (columnWidths, cellWidths)
  | row :: rows' =>
    let '(cw, cells) := measureRow columnWidths cellWidths 0 row in
    measureRows cw cells rows'
  end.

Section Render.

Context (ext : Externals).

Abbreviation Write := (Write ext).
Abbreviation WriteByte := (WriteByte ext).
Abbreviation WriteString := (WriteString ext).
Abbreviation WriteRune := (WriteRune ext).
Abbreviation PushStyle := (PushStyle ext).
Abbreviation PopStyle := (PopStyle ext).

(** [r.openBlocks[len(r.openBlocks)-1].fresh = true] *)
Definition markFresh : M unit :=
  fun r =>
    match top (openBlocks r) with
    | None => Panic IndexOutOfRange
    | Some b =>
      Ok (tt, set_openBlocks (replaceTop (openBlocks r) {| node := node b; fresh := true |}) r)
    end.

(** [r.openBlocks = r.openBlocks[:len(r.openBlocks)-1]] *)
Definition popOpenBlock : M unit :=
  fun r =>
    match openBlocks r with
    | [] => Panic IndexOutOfRange
    | _ => Ok (tt, set_openBlocks (pop (openBlocks r)) r)
    end.

(** [r.listStack = r.listStack[:len(r.listStack)-1]] *)
Definition popListState : M unit :=
  fun r =>
    match listStack r with
    | [] => Panic IndexOutOfRange
    | _ => Ok (tt, set_listStack (pop (listStack r)) r)
    end.

(** [r.tableStack = r.tableStack[:len(r.tableStack)-1]] *)
Definition popTableState : M unit :=
  fun r =>
    match tableStack r with
    | [] => Panic IndexOutOfRange
    | _ => Ok (tt, set_tableStack (pop (tableStack r)) r)
    end.

Definition writeLines (lines : list bytes) : M unit :=
  forEach lines (fun line => Write line ;; ret tt).

Definition writeCode (language code : bytes) : M unit :=
  let* r := get in
  match theme r with
  | None => WriteString code ;; ret tt
  | Some _ =>
    match tokenise ext language code with
    | NoLexer => WriteString code ;; ret tt
    | LexError e => fail e
    | Tokens ts =>
      forEach ts (fun token =>
        PushStyle (chroma.Type_ token) ;;
        WriteString (chroma.Value token) ;;
        PopStyle)
    end
  end.

Definition writeCodeLines (language : bytes) (lines : list bytes) : M unit :=
  let* r := get in
  match theme r with
  | None => writeLines lines
  | Some _ => writeCode language (concat lines)
  end.

(** [OpenBlock] ensures that each block begins on a new line, and that
    blank lines are inserted before blocks as indicated by
    [node.HasBlankPreviousLines]. *)
Definition OpenBlock (ctx : ast.Context) (n : ast.Node) : M unit :=
  OpenSpan n ;;
  modify (fun r => set_openBlocks (openBlocks r ++ [{| node := n; fresh := true |}]) r) ;;
  let hasBlankPreviousLines :=
    match ast.parent ctx with
    | Some (pk, pblank) =>
      if ast.isFirstChild ctx
         && (ast.NodeKind_eqb pk ast.KindDocument
             || ast.NodeKind_eqb pk ast.KindListItem || pblank)
      then false
      else ast.HasBlankPreviousLines n
    | None => ast.HasBlankPreviousLines n
    end in
  when hasBlankPreviousLines (WriteByte newline) ;;
  when (negb (len (ast.LeadingWhitespace n) =? 0)) (Write (ast.LeadingWhitespace n) ;; ret tt) ;;
  markFresh.

(** [CloseBlock] marks the current block as closed. *)
Definition CloseBlock : M unit :=
  let* r := get in
  when (negb (atNewline r)) (WriteByte newline) ;;
  popOpenBlock ;;
  CloseSpan.

Definition RenderDocument (n : ast.Node) (enter : bool) : M ast.WalkStatus :=
  modify (fun r =>
    set_atNewline false
      (set_wrapping [true]
         (set_prefix [] (set_prefixStack [] (set_listStack [] r))))) ;;
  (if enter then
     OpenSpan n ;;
     modify (set_styles []) ;;
     PushStyle chroma.Generic
   else
     PopStyle ;;
     modify (set_styles []) ;;
     CloseSpan) ;;
  ret ast.WalkContinue.

Definition RenderHeading (ctx : ast.Context) (n : ast.Node) (Level : Z) (IsSetext : bool)
    (enter : bool) : M ast.WalkStatus :=
  (if enter then
     OpenBlock ctx n ;;
     PushWordWrap false ;;
     let style := if 2 <? Level then chroma.GenericSubheading else chroma.GenericHeading in
     PushStyle style ;;
     when (negb IsSetext) (
       let* hashes := lift (Repeat (str "#") Level) in
       WriteString hashes ;;
       WriteByte space)
   else
     when IsSetext (
       let s := if Level =? 2 then str "---" else str "===" in
       let* r := get in
       when (negb (atNewline r)) (WriteByte newline) ;;
       WriteString s ;;
       ret tt) ;;
     PopStyle ;;
     WriteByte newline ;;
     PopWordWrap ;;
     CloseBlock) ;;
  ret ast.WalkContinue.

Definition RenderBlockquote (ctx : ast.Context) (n : ast.Node) (enter : bool)
  : M ast.WalkStatus :=
  (if enter then
     OpenBlock ctx n ;;
     PushStyle chroma.GenericEmph ;;
     WriteString (str "> ") ;;
     PushPrefix (str "> ")
   else
     PopPrefix ;;
     PopStyle ;;
     CloseBlock) ;;
  ret ast.WalkContinue.

Definition RenderCodeBlock (ctx : ast.Context) (n : ast.Node) (Lines : list bytes)
    (enter : bool) : M ast.WalkStatus :=
  if negb enter then
    PopWordWrap ;;
    CloseBlock ;;
    ret ast.WalkContinue
  else
    OpenBlock ctx n ;;
    PushWordWrap false ;;
    (* we unconditionally add four spaces to the first line of the code block
       and indent the rest as necessary *)
    WriteString (str "    ") ;;
    PushIndent 4 ;;
    writeCodeLines [] Lines ;;
    (* deferred *)
    PopPrefix ;;
    ret ast.WalkContinue.

Definition RenderFencedCodeBlock (ctx : ast.Context) (n : ast.Node) (Fence Language : bytes)
    (Lines : list bytes) (enter : bool) : M ast.WalkStatus :=
  if negb enter then
    PopStyle ;;
    PopWordWrap ;;
    CloseBlock ;;
    ret ast.WalkContinue
  else
    OpenBlock ctx n ;;
    PushWordWrap false ;;
    PushStyle chroma.LiteralStringHeredoc ;;
    (* Write the start of the fenced code block. *)
    Write Fence ;;
    Write Language ;;
    WriteByte newline ;;
    (* Write the contents of the fenced code block. *)
    writeCodeLines Language Lines ;;
    (* Write the end of the fenced code block. *)
    beginLine ;;
    Write Fence ;;
    WriteByte newline ;;
    ret ast.WalkContinue.

Definition RenderHTMLBlock (ctx : ast.Context) (n : ast.Node) (Lines : list bytes)
    (ClosureLine : option bytes) (enter : bool) : M ast.WalkStatus :=
  if negb enter then
    PopWordWrap ;;
    CloseBlock ;;
    ret ast.WalkContinue
  else
    OpenBlock ctx n ;;
    PushWordWrap false ;;
    writeLines Lines ;;
    match ClosureLine with
    | Some l => Write l ;; ret ast.WalkContinue
    | None => ret ast.WalkContinue
    end.

Definition RenderLinkReferenceDefinition (ctx : ast.Context) (n : ast.Node)
    (Lines : list bytes) (enter : bool) : M ast.WalkStatus :=
  if negb enter then
    PopWordWrap ;;
    CloseBlock ;;
    ret ast.WalkContinue
  else
    OpenBlock ctx n ;;
    PushWordWrap true ;;
    writeLines Lines ;;
    ret ast.WalkContinue.

Definition RenderList (ctx : ast.Context) (n : ast.Node) (Marker : byte) (IsOrdered : bool)
    (Start : Z) (enter : bool) : M ast.WalkStatus :=
  (if enter then
     OpenBlock ctx n ;;
     modify (fun r =>
       set_listStack (listStack r ++ [{| marker := Marker; ordered := IsOrdered;
                                         index := Start |}]) r)
   else
     popListState ;;
     CloseBlock) ;;
  ret ast.WalkContinue.

Definition topListState : M listState :=
  fun r =>
    match top (listStack r) with
    | Some s => Ok (s, r)
    | None => Panic IndexOutOfRange
    end.

Definition RenderListItem (ctx : ast.Context) (n : ast.Node) (Offset : Z) (enter : bool)
  : M ast.WalkStatus :=
  (if enter then
     OpenBlock ctx n ;;
     let* state := topListState in
     let* markerWidth :=
       (if ordered state then
          let* width := WriteString (FormatInt (index state)) in
          modify (fun r =>
            set_listStack (replaceTop (listStack r)
                             {| marker := marker state; ordered := ordered state;
                                index := index state + 1 |}) r) ;;
          ret (2 + width)
        else ret 2) in
     Write [marker state; space] ;;
     let offset := markerWidth + len (ast.LeadingWhitespace n) in
     let* offset :=
       (if offset <? Offset then
          let* pad := lift (Repeat [space] (Offset - offset)) in
          Write pad ;;
          ret Offset
        else ret offset) in
     PushIndent offset
   else
     PopPrefix ;;
     CloseBlock) ;;
  ret ast.WalkContinue.

Definition RenderParagraph (ctx : ast.Context) (n : ast.Node) (enter : bool)
  : M ast.WalkStatus :=
  (if enter then
     (* A paragraph that follows another paragraph or a blockquote must be
        preceded by a blank line. *)
     when (negb (ast.HasBlankPreviousLines n)
           && match ast.previousSibling ctx with
              | Some k => ast.NodeKind_eqb k ast.KindParagraph
                          || ast.NodeKind_eqb k ast.KindBlockquote
              | None => false
              end)
       (WriteByte newline) ;;
     OpenBlock ctx n ;;
     PushWordWrap true
   else
     PopWordWrap ;;
     CloseBlock) ;;
  ret ast.WalkContinue.

Definition RenderTextBlock (ctx : ast.Context) (n : ast.Node) (enter : bool)
  : M ast.WalkStatus :=
  (if enter then
     OpenBlock ctx n ;;
     PushWordWrap true
   else
     PopWordWrap ;;
     CloseBlock) ;;
  ret ast.WalkContinue.

Definition RenderThematicBreak (ctx : ast.Context) (n : ast.Node) (enter : bool)
  : M ast.WalkStatus :=
  if negb enter then
    CloseBlock ;;
    ret ast.WalkContinue
  else
    OpenBlock ctx n ;;
    WriteString (str "***" ++ [newline]) ;;
    ret ast.WalkContinue.

Definition RenderAutoLink (Label : bytes) (enter : bool) : M ast.WalkStatus :=
  if negb enter then ret ast.WalkContinue
  else
    WriteByte x3c ;;
    Write Label ;;
    WriteByte x3e ;;
    ret ast.WalkContinue.

Definition RenderCodeSpan (n : ast.Node) (Backticks : Z) (enter : bool)
  : M ast.WalkStatus :=
  if negb enter then
    PopWordWrap ;;
    CloseSpan ;;
    ret ast.WalkContinue
  else
    OpenSpan n ;;
    PushWordWrap false ;;
    let* delimiter := lift (Repeat [backtick] Backticks) in
    let* pad := lift (shouldPadCodeSpan (ast.children n)) in
    Write delimiter ;;
    when pad (WriteByte space) ;;
    let* texts := mapM (fun c => lift (textSegment c)) (ast.children n) in
    writeCode [] (concat texts) ;;
    when pad (WriteByte space) ;;
    Write delimiter ;;
    ret ast.WalkSkipChildren.

Definition RenderEmphasis (n : ast.Node) (Marker : byte) (Level : Z) (enter : bool)
  : M ast.WalkStatus :=
  (if enter then OpenSpan n else CloseSpan) ;;
  let* s := lift (Repeat [Marker] Level) in
  WriteString s ;;
  ret ast.WalkContinue.

Definition renderHyperlink (enter : bool) : M unit :=
  if enter then PushStyle chroma.GenericUnderline else PopStyle.

Definition renderLinkOrImage (n : ast.Node) (open : bytes)
    (refType : ast.LinkReferenceType) (label dest title : bytes) (enter : bool) : M unit :=
  (if enter then OpenSpan n else CloseSpan) ;;
  let* r := get in
  if hyperlinks r then renderHyperlink enter
  else if enter then WriteString open ;; ret tt
  else
    match refType with
    | ast.LinkFullReference =>
      WriteString (str "][") ;;
      Write label ;;
      WriteByte x5d
    | ast.LinkCollapsedReference =>
      WriteString (str "][]") ;; ret tt
    | ast.LinkShortcutReference =>
      WriteByte x5d
    | ast.LinkInline =>
      WriteString (str "](") ;;
      Write (escapeLinkDest dest) ;;
      when (negb (len title =? 0)) (
        let delimiter := linkTitleDelimiter title in
        (* [fmt.Fprintf] on the writer itself *)
        wWrite ([space; delimiter] ++ title ++ [delimiter])) ;;
      WriteByte x29
    end.

(** The chunk loop of [renderImage]: frames of at most 4096 bytes of
    payload. *)
Fixpoint imageChunks (fuel : nat) (first : bool) (data : bytes) : M unit :=
  match fuel, data with
  | _, [] => ret tt
  | O, _ => ret tt
  | S fuel', _ =>
    wWrite (if first then [escape] ++ str "_Gf=100,a=T," else [escape] ++ str "_G") ;;
    let more := 4096 <? len data in
    let b := if more then firstn 4096 data else data in
    wWrite (str "m=" ++ FormatInt (if more then 1 else 0) ++ str ";") ;;
    wWrite b ;;
    wWrite ([escape] ++ str "\") ;;
    imageChunks fuel' false (skipn (length b) data)
  end.

(** [renderImage]: [true] when the image was sent, [false] on an error of
    the image pipeline (nothing has been written then). *)
Definition renderImage (Destination : bytes) : M bool :=
  let* r := get in
  match encodeImage ext Destination (maxImageWidth r) (contentRoot r) with
  | None => ret false
  | Some data =>
    wWrite [newline] ;;
    imageChunks (length data) true data ;;
    wWrite [newline] ;;
    ret true
  end.

Definition RenderImage (n : ast.Node) (refType : ast.LinkReferenceType)
    (label dest title : bytes) (enter : bool) : M ast.WalkStatus :=
  let fallback :=
    renderLinkOrImage n (str "![") refType label dest title enter ;;
    ret ast.WalkContinue in
  let* r := get in
  if images r then
    if enter then
      let* sent := renderImage dest in
      if sent then
        modify (set_inImage true) ;;
        ret ast.WalkSkipChildren
      else fallback
    else if inImage r then
      modify (set_inImage false) ;;
      ret ast.WalkContinue
    else fallback
  else fallback.

Definition RenderLink (n : ast.Node) (refType : ast.LinkReferenceType)
    (label dest title : bytes) (enter : bool) : M ast.WalkStatus :=
  renderLinkOrImage n (str "[") refType label dest title enter ;;
  ret ast.WalkContinue.

Definition RenderRawHTML (n : ast.Node) (Segments : list bytes) (enter : bool)
  : M ast.WalkStatus :=
  if negb enter then
    PopWordWrap ;;
    CloseSpan ;;
    ret ast.WalkSkipChildren
  else
    OpenSpan n ;;
    PushWordWrap false ;;
    forEach Segments (fun segment => Write segment ;; ret tt) ;;
    ret ast.WalkSkipChildren.

Definition RenderText (n : ast.Node) (Value : bytes) (SoftLineBreak HardLineBreak : bool)
    (enter : bool) : M ast.WalkStatus :=
  if negb enter then
    CloseSpan ;;
    ret ast.WalkContinue
  else
    OpenSpan n ;;
    Write Value ;;
    (if HardLineBreak then
       WriteString [x5c; newline] ;; ret tt
     else if SoftLineBreak then
       let* r := get in
       WriteByte (if softBreak r then space else newline)
     else ret tt) ;;
    ret ast.WalkContinue.

Definition RenderString (n : ast.Node) (Value : bytes) (enter : bool) : M ast.WalkStatus :=
  if negb enter then
    CloseSpan ;;
    ret ast.WalkContinue
  else
    OpenSpan n ;;
    Write Value ;;
    ret ast.WalkContinue.

Definition RenderWhitespace (n : ast.Node) (Value : bytes) (enter : bool)
  : M ast.WalkStatus :=
  if negb enter then
    CloseSpan ;;
    ret ast.WalkContinue
  else
    OpenSpan n ;;
    Write Value ;;
    ret ast.WalkContinue.

(** *** Tables *)

Definition topTableState : M tableState :=
  fun r =>
    match top (tableStack r) with
    | Some s => Ok (s, r)
    | None => Panic IndexOutOfRange
    end.

(** Assignment through the pointer [state := &r.tableStack[len-1]]. *)
Definition updateTableState (f : tableState -> tableState) : M unit :=
  fun r =>
    match top (tableStack r) with
    | Some s => Ok (tt, set_tableStack (replaceTop (tableStack r) (f s)) r)
    | None => Panic IndexOutOfRange
    end.

Definition nextRow (s : tableState) : tableState :=
  {| columnWidths := columnWidths s; cellWidths := cellWidths s;
     rowIndex := rowIndex s + 1; columnIndex := 0; cellIndex := cellIndex s;
     measuring := measuring s |}.

Definition nextCell (s : tableState) : tableState :=
  {| columnWidths := columnWidths s; cellWidths := cellWidths s;
     rowIndex := rowIndex s; columnIndex := columnIndex s + 1;
     cellIndex := cellIndex s + 1; measuring := measuring s |}.

Fixpoint borderColumns (i : nat) (widths : list Z) (join : bytes) : M unit :=
  match widths with
  | [] => ret tt
  | width :: widths' =>
    when (0 <? i)%nat (WriteRune join ;; ret tt) ;;
    let* line := lift (Repeat borders.horizontal width) in
    WriteString line ;;
    borderColumns (S i) widths' join
  end.

Definition renderTableBorder (left join right : bytes) : M unit :=
  let* state := topTableState in
  WriteRune left ;;
  borderColumns 0 (columnWidths state) join ;;
  WriteRune right ;;
  WriteByte newline.

(** The throwaway renderer of the measuring pass of [RenderTable]. *)
Definition cellRenderer (r : Renderer) : Renderer :=
  set_tableStack
    [{| columnWidths := []; cellWidths := []; rowIndex := 0; columnIndex := 0;
        cellIndex := 0; measuring := true |}]
    (New (theme r) 0 (hyperlinks r) (images r) (maxImageWidth r) (contentRoot r)
         (softBreak r)).

(** [RenderTable].  [measure cr] is the result of rendering every cell of
    every row with a copy of the renderer [cr] into a counting writer: the
    number of bytes each one wrote, row by row. *)
Definition RenderTable (ctx : ast.Context) (n : ast.Node)
    (measure : Renderer -> outcome (list (list Z))) (enter : bool) : M ast.WalkStatus :=
  if negb enter then
    renderTableBorder borders.bottomLeft borders.bottomJoin borders.bottomRight ;;
    popTableState ;;
    CloseBlock ;;
    ret ast.WalkContinue
  else
    OpenBlock ctx n ;;
    (* First, measure the width of each column by rendering each cell in each
       column's contents into an infinitely-wide buffer and finding the
       maximum. *)
    let* r := get in
    let* widths := lift (measure (cellRenderer r)) in
    let '(columnWidths, cellWidths) := measureRows [] [] widths in
    modify (fun r =>
      set_tableStack (tableStack r ++
        [{| columnWidths := columnWidths; cellWidths := cellWidths; rowIndex := 0;
            columnIndex := 0; cellIndex := 0; measuring := false |}]) r) ;;
    ret ast.WalkContinue.

Definition RenderTableHeader (enter : bool) : M ast.WalkStatus :=
  (if enter then
     renderTableBorder borders.topLeft borders.topJoin borders.topRight ;;
     WriteRune borders.vertical ;;
     ret tt
   else
     WriteRune borders.vertical ;;
     WriteByte newline ;;
     renderTableBorder borders.middleLeft borders.middleJoin borders.middleRight ;;
     updateTableState nextRow) ;;
  ret ast.WalkContinue.

Definition RenderTableRow (enter : bool) : M ast.WalkStatus :=
  topTableState ;;
  WriteRune borders.vertical ;;
  when (negb enter) (
    WriteRune [newline] ;;
    updateTableState nextRow) ;;
  ret ast.WalkContinue.

Definition elemAt {A} (l : list A) (i : Z) : outcome A :=
  if i <? 0 then Panic IndexOutOfRange
  else match l !! Z.to_nat i with
       | Some x => Ok x
       | None => Panic IndexOutOfRange
       end.

Definition RenderTableCell (enter : bool) : M ast.WalkStatus :=
  let* state := topTableState in
  when (negb (measuring state)) (
    if enter then
      when ((rowIndex state =? 0) && (0 <? columnIndex state))
        (WriteRune borders.vertical ;; ret tt) ;;
      let style :=
        if rowIndex state =? 0 then styles.TableHeader
        else if Z.rem (rowIndex state) 2 =? 0 then styles.TableRowAlt
        else styles.TableRow in
      PushStyle style ;;
      when (negb (rowIndex state =? 0) && (0 <? columnIndex state))
        (WriteRune borders.vertical ;; ret tt)
    else
      let* columnWidth := lift (elemAt (columnWidths state) (columnIndex state)) in
      let* cellWidth := lift (elemAt (cellWidths state) (cellIndex state)) in
      let* pad := lift (Repeat [space] (columnWidth - cellWidth)) in
      WriteString pad ;;
      PopStyle ;;
      updateTableState nextCell) ;;
  ret ast.WalkContinue.

(** *** Dispatch on the node kind ([RegisterFuncs]) *)

Definition renderNode (ctx : ast.Context) (n : ast.Node)
    (measure : Renderer -> outcome (list (list Z))) (enter : bool) : M ast.WalkStatus :=
  match ast.data n with
  | ast.Document => RenderDocument n enter
  | ast.Heading Level IsSetext => RenderHeading ctx n Level IsSetext enter
  | ast.Blockquote => RenderBlockquote ctx n enter
  | ast.CodeBlock Lines => RenderCodeBlock ctx n Lines enter
  | ast.FencedCodeBlock Fence Language Lines =>
    RenderFencedCodeBlock ctx n Fence Language Lines enter
  | ast.HTMLBlock Lines ClosureLine => RenderHTMLBlock ctx n Lines ClosureLine enter
  | ast.LinkReferenceDefinition Lines => RenderLinkReferenceDefinition ctx n Lines enter
  | ast.List Marker IsOrdered Start => RenderList ctx n Marker IsOrdered Start enter
  | ast.ListItem Offset => RenderListItem ctx n Offset enter
  | ast.Paragraph => RenderParagraph ctx n enter
  | ast.TextBlock => RenderTextBlock ctx n enter
  | ast.ThematicBreak => RenderThematicBreak ctx n enter
  | ast.Table => RenderTable ctx n measure enter
  | ast.TableHeader => RenderTableHeader enter
  | ast.TableRow => RenderTableRow enter
  | ast.TableCell => RenderTableCell enter
  | ast.AutoLink Label => RenderAutoLink Label enter
  | ast.CodeSpan Backticks => RenderCodeSpan n Backticks enter
  | ast.Emphasis Marker Level => RenderEmphasis n Marker Level enter
  | ast.Image refType label dest title => RenderImage n refType label dest title enter
  | ast.Link refType label dest title => RenderLink n refType label dest title enter
  | ast.RawHTML Segments => RenderRawHTML n Segments enter
  | ast.Text Value soft hard => RenderText n Value soft hard enter
  | ast.String Value => RenderString n Value enter
  | ast.Whitespace Value => RenderWhitespace n Value enter
  | ast.Other => ret ast.WalkContinue
  end.

(** *** The tree walk ([ast.Walk] driven by goldmark's [Render]) *)

Definition isStop (s : ast.WalkStatus) : bool :=
  match s with ast.WalkStop => true | _ => false end.

Definition isSkipChildren (s : ast.WalkStatus) : bool :=
  match s with ast.WalkSkipChildren => true | _ => false end.

(** The measuring loop of [RenderTable]: every cell of every row is
    rendered by [walk] with the renderer [cr] into a counting writer. *)
Definition measureCells (walk : ast.Context -> ast.Node -> M ast.WalkStatus)
    (cr : Renderer) (rows : list ast.Node) : outcome (list (list Z)) :=
  (fix rowsLoop (l : list ast.Node) : outcome (list (list Z)) :=
     match l with
     | [] => Ok []
     | row :: l' =>
       match
         (fix cellsLoop (l : list ast.Node) : outcome (list Z) :=
            match l with
            | [] => Ok []
            | cell :: l' =>
              match walk ast.rootContext cell cr with
              | Ok (_, cr') =>
                match cellsLoop l' with
                | Ok ws => Ok (len (sink cr') :: ws)
                | Fail e => Fail e
                | Panic p => Panic p
                end
              | Fail e => Fail e
              | Panic p => Panic p
              end
            end) (ast.children row)
       with
       | Ok ws =>
         match rowsLoop l' with
         | Ok wss => Ok (ws :: wss)
         | Fail e => Fail e
         | Panic p => Panic p
         end
       | Fail e => Fail e
       | Panic p => Panic p
       end
     end) rows.

Definition childContext (n : ast.Node) (first : bool) (prev : option ast.NodeKind)
  : ast.Context :=
  {| ast.parent := Some (ast.Kind n, ast.HasBlankPreviousLines n);
     ast.isFirstChild := first;
     ast.previousSibling := prev |}.

Fixpoint walkHelper (ctx : ast.Context) (n : ast.Node) {struct n} : M ast.WalkStatus :=
  match n with
  | ast.mkNode d blank ws cs =>
    let measure (cr : Renderer) := measureCells walkHelper cr cs in
    let* status := renderNode ctx n measure true in
    if isStop status then ret status
    else
      let* stopped :=
        (if isSkipChildren status then ret false
         else
           (fix walkChildren (first : bool) (prev : option ast.NodeKind)
                (l : list ast.Node) : M bool :=
              match l with
              | [] => ret false
              | c :: l' =>
                let* st := walkHelper (childContext n first prev) c in
                if isStop st then ret true
                else walkChildren false (Some (ast.Kind c)) l'
              end) true None cs) in
      if stopped then ret ast.WalkStop
      else
        let* status := renderNode ctx n measure false in
        if isStop status then ret ast.WalkStop
        else ret ast.WalkContinue
  end.

(** [Render] of goldmark's renderer with this node renderer registered:
    walk the tree, writing to a new destination. *)
Definition Render (r : Renderer) (n : ast.Node) : outcome Renderer :=
  match walkHelper ast.rootContext n (set_sink [] r) with
  | Ok (_, r') => Ok r'
  | Fail e => Fail e
  | Panic p => Panic p
  end.

End Render.

(** ** The decoder of the kitty graphics protocol ([internal/kitty]) *)

(** The two loops of the decoder that do not consume their input on every
    iteration are run with fuel; [Diverges] is the outcome of a run that
    did not return within the fuel it was given. *)
Inductive result (A : Type) : Type :=
| Returns (a : A)
| Panics (p : panic)
| Diverges.
Arguments Returns {A} a.
Arguments Panics {A} p.
Arguments Diverges {A}.

Module kitty.

Record Command : Type := {
  Action : byte;
  Quiet : byte;
  Format : Z;
  Medium : byte;
  Width : Z;
  Height : Z;
  Size : Z;
  Offset : Z;
  ID : Z;
  Number : Z;
  Placement : Z;
  Compression : byte;
  More : bool;
  Payload : bytes
}.

(** [Command{}] *)
Definition zero : Command :=
  {| Action := x00; Quiet := x00; Format := 0; Medium := x00; Width := 0; Height := 0;
     Size := 0; Offset := 0; ID := 0; Number := 0; Placement := 0; Compression := x00;
     More := false; Payload := [] |}.

(** The fields a decoder can be bound to. *)
Inductive field : Type :=
| FAction | FQuiet | FFormat | FWidth | FHeight | FSize | FOffset | FID | FNumber
| FPlacement | FCompression | FMore.

Definition setByte (f : field) (v : byte) (c : Command) : Command :=
  {| Action := match f with FAction => v | _ => Action c end;
     Quiet := match f with FQuiet => v | _ => Quiet c end;
     Format := Format c; Medium := Medium c; Width := Width c; Height := Height c;
     Size := Size c; Offset := Offset c; ID := ID c; Number := Number c;
     Placement := Placement c;
     Compression := match f with FCompression => v | _ => Compression c end;
     More := More c; Payload := Payload c |}.

Definition setUint (f : field) (v : Z) (c : Command) : Command :=
  {| Action := Action c; Quiet := Quiet c;
     Format := match f with FFormat => v | _ => Format c end;
     Medium := Medium c;
     Width := match f with FWidth => v | _ => Width c end;
     Height := match f with FHeight => v | _ => Height c end;
     Size := match f with FSize => v | _ => Size c end;
     Offset := match f with FOffset => v | _ => Offset c end;
     ID := match f with FID => v | _ => ID c end;
     Number := match f with FNumber => v | _ => Number c end;
     Placement := match f with FPlacement => v | _ => Placement c end;
     Compression := Compression c; More := More c; Payload := Payload c |}.

Definition setMore (v : bool) (c : Command) : Command :=
  {| Action := Action c; Quiet := Quiet c; Format := Format c; Medium := Medium c;
     Width := Width c; Height := Height c; Size := Size c; Offset := Offset c; ID := ID c;
     Number := Number c; Placement := Placement c; Compression := Compression c;
     More := v; Payload := Payload c |}.

Definition setPayload (v : bytes) (c : Command) : Command :=
  {| Action := Action c; Quiet := Quiet c; Format := Format c; Medium := Medium c;
     Width := Width c; Height := Height c; Size := Size c; Offset := Offset c; ID := ID c;
     Number := Number c; Placement := Placement c; Compression := Compression c;
     More := More c; Payload := v |}.

(** A decoder returns whether it accepted the value and the command as
    it left it. *)
Definition boolDecoder (c : Command) (b : bytes) : result (bool * Command) :=
  match b with
  | [] => Returns (false, c)
  | b0 :: _ => Returns (true, setMore (negb (Byte.eqb b0 "0"%byte)) c)
  end.

Definition singleCharacterDecoder (dest : field) (c : Command) (b : bytes)
  : result (bool * Command) :=
  match b with
  | [] => Returns (false, c)
  | b0 :: _ => Returns (true, setByte dest b0 c)
  end.

Definition uintMax : Z := 2 ^ 64.

(** The loop of [positiveIntegerDecoder]; it tests [len(b) > 0] and reads
    [b[0]], and [b] is the same slice on every iteration. *)
Fixpoint positiveIntegerLoop (fuel : nat) (b : bytes) (val : Z) (any : bool)
  : result (option (Z * bool)) :=
  match b with
  | [] => Returns (Some (val, any))
  | c :: _ =>
    if (b2z c <? 48) || (57 <? b2z c) then Returns None
    else
      match fuel with
      | O => Diverges
      | S fuel' => positiveIntegerLoop fuel' b ((val * 10 + (b2z c - 48)) mod uintMax) true
      end
  end.

Definition positiveIntegerDecoder (fuel : nat) (dest : field) (c : Command) (b : bytes)
  : result (bool * Command) :=
  match positiveIntegerLoop fuel b 0 false with
  | Returns None => Returns (false, c)
  | Returns (Some (val, any)) =>
    if negb any then Returns (false, c) else Returns (true, setUint dest val c)
  | Panics p => Panics p
  | Diverges => Diverges
  end.

(** The decoder selected by the key; no decoder is bound to an unknown
    key, and calling the nil function panics. *)
Definition decodeValue (fuel : nat) (k : byte) (c : Command) (v : bytes)
  : result (bool * Command) :=
  if Byte.eqb k "a"%byte then singleCharacterDecoder FAction c v
  else if Byte.eqb k "q"%byte then singleCharacterDecoder FQuiet c v
  else if Byte.eqb k "f"%byte then positiveIntegerDecoder fuel FFormat c v
  else if Byte.eqb k "t"%byte then singleCharacterDecoder FQuiet c v
  else if Byte.eqb k "s"%byte then positiveIntegerDecoder fuel FWidth c v
  else if Byte.eqb k "v"%byte then positiveIntegerDecoder fuel FHeight c v
  else if Byte.eqb k "S"%byte then positiveIntegerDecoder fuel FSize c v
  else if Byte.eqb k "O"%byte then positiveIntegerDecoder fuel FOffset c v
  else if Byte.eqb k "i"%byte then positiveIntegerDecoder fuel FID c v
  else if Byte.eqb k "I"%byte then positiveIntegerDecoder fuel FNumber c v
  else if Byte.eqb k "p"%byte then positiveIntegerDecoder fuel FPlacement c v
  else if Byte.eqb k "o"%byte then singleCharacterDecoder FCompression c v
  else if Byte.eqb k "m"%byte then boolDecoder c v
  else Panics NilFunctionCall.

(** The extent of a value: the bytes up to a comma (consumed) or a
    semicolon (left in place).  [v] is resliced to [v[:1]] for every byte
    of the value, so it never holds more than the first one.  The result
    is [v], the rest of the buffer and the number of bytes consumed. *)
Fixpoint valueExtent (start b : bytes) (v : bytes) (n : Z) : bytes * bytes * Z :=
  match b with
  | [] => (v, [], n)
  | c :: b' =>
    if Byte.eqb c ","%byte then (v, b', n + 1)
    else if Byte.eqb c ";"%byte then (v, b, n)
    else valueExtent start b' (firstn 1 start) (n + 1)
  end.

(** [bytes.Index(b, []byte{0x1b, '\\'})] *)
Fixpoint indexTerminator (b : bytes) (i : Z) : Z :=
  match b with
  | [] => -1
  | c :: b' =>
    match b' with
    | d :: _ =>
      if Byte.eqb c x1b && Byte.eqb d x5c then i else indexTerminator b' (i + 1)
    | [] => -1
    end
  end.

Section Decode.

(** [base64.StdEncoding.Decode]: the decoded bytes, or [None] for a
    corrupt input. *)
Context (base64Decode : bytes -> option bytes).

Definition DecodedLen (n : Z) : Z := n / 4 * 3.

(** The control-data loop of [DecodeCommand].  Every iteration consumes
    at least the key, so the loop itself is given [length b] rounds;
    [fuel] is for the value decoders.  The result is the command as the
    decoders left it and, unless the function returns 0 from inside the loop,
    the rest of the buffer and the bytes consumed so far. *)
Fixpoint controlData (rounds fuel : nat) (c : Command) (b : bytes) (sz : Z)
  : result (Command * option (bytes * Z)) :=
  match b with
  | [] => Returns (c, Some (b, sz))
  | k :: b1 =>
    let sz := sz + 1 in
    if Byte.eqb k ";"%byte then Returns (c, Some (b1, sz))
    else
      match b1 with
      | eq :: b2 =>
        if (len b1 <? 2) || negb (Byte.eqb eq "="%byte) then Returns (c, None)
        else
          let sz := sz + 1 in
          (* find the extent of the value *)
          let '(v, b3, n) := valueExtent b2 b2 [] 0 in
          let sz := sz + n in
          (* decode the value *)
          match decodeValue fuel k c v with
          | Returns (true, c') =>
            match rounds with
            | O => Diverges
            | S rounds' => controlData rounds' fuel c' b3 sz
            end
          | Returns (false, c') => Returns (c', None)
          | Panics p => Panics p
          | Diverges => Diverges
          end
      | [] => Returns (c, None)
      end
  end.

(** [DecodeCommand]: the command as it is left in [*c] and the number of
    bytes consumed, zero for a malformed input. *)
Definition DecodeCommand (fuel : nat) (c : Command) (b : bytes) : result (Command * Z) :=
  match b with
  | b0 :: b1 :: b2 :: rest =>
    if (len b <? 5) || negb (Byte.eqb b0 x1b) || negb (Byte.eqb b1 "_"%byte)
       || negb (Byte.eqb b2 "G"%byte)
    then Returns (c, 0)
    else
      match controlData (length rest) fuel zero rest 3 with
      | Returns (c, None) => Returns (c, 0)
      | Returns (c, Some (b, sz)) =>
        (* decode the payload *)
        let terminator := indexTerminator b 0 in
        if terminator =? -1 then Returns (c, 0)
        else
          let sz := sz + terminator + 2 in
          let base64Payload := firstn (Z.to_nat terminator) b in
          let payloadSize := DecodedLen (len base64Payload) in
          match base64Decode base64Payload with
          | Some payload =>
            if negb (len payload =? payloadSize) then Returns (c, 0)
            else Returns (setPayload payload c, sz)
          | None => Returns (c, 0)
          end
      | Panics p => Panics p
      | Diverges => Diverges
      end
  | _ => Returns (c, 0)
  end.

(** [DecodeCommands]: one round per command; a command consumes at least
    five bytes, so [length b] rounds suffice. *)
Fixpoint DecodeCommandsLoop (rounds fuel : nat) (commands : list Command) (b : bytes)
    (size : Z) : result (list Command * Z) :=
  match DecodeCommand fuel zero b with
  | Returns (c, sz) =>
    if sz =? 0 then Returns (commands, size)
    else
      let commands := commands ++ [c] in
      let b := skipn (Z.to_nat sz) b in
      let size := size + sz in
      if negb (More c) then Returns (commands, size)
      else
        match rounds with
        | O => Diverges
        | S rounds' => DecodeCommandsLoop rounds' fuel commands b size
        end
  | Panics p => Panics p
  | Diverges => Diverges
  end.

Definition DecodeCommands (fuel : nat) (b : bytes) : result (list Command * Z) :=
  DecodeCommandsLoop (length b) fuel [] b 0.

End Decode.

End kitty.

(** ** A concrete instance of the external collaborators

    Used for the worked scenarios: a grapheme cluster is a code point (true
    of text without combining marks), a control sequence is a CSI sequence
    [ESC '[' parameters intermediates final], no lexer is registered and no
    image can be loaded. *)

Definition runeCount (b : bytes) : nat :=
  length (filter (fun c => negb (inRange 128 191 c)) b).

Fixpoint spanOf (p : byte -> bool) (b : bytes) : nat :=
  match b with
  | c :: b' => if p c then S (spanOf p b') else 0%nat
  | [] => 0%nat
  end.

Definition csiLength (b : bytes) : nat :=
  match b with
  | e :: l :: rest =>
    if Byte.eqb e escape && Byte.eqb l "["%byte then
      let n1 := spanOf (inRange 48 63) rest in
      let n2 := spanOf (inRange 32 47) (skipn n1 rest) in
      match skipn (n1 + n2) rest with
      | f :: _ => if inRange 64 126 f then (2 + n1 + n2 + 1)%nat else 0%nat
      | [] => 0%nat
      end
    else 0%nat
  | _ => 0%nat
  end.

Definition stdExt : Externals :=
  {| GraphemeClusterCount := runeCount;
     csiDecode := csiLength;
     tokenise := fun _ _ => NoLexer;
     encodeImage := fun _ _ _ => None |}.

(** [New(WithWordWrap(width))]: no theme, no hyperlinks, no images, soft
    breaks rendered as newlines. *)
Definition plain (width : Z) : Renderer := New None width false false 0 [] false.

(** Tree builders for the scenarios. *)
Definition block (d : ast.Data) (cs : list ast.Node) : ast.Node := ast.mkNode d false [] cs.
Definition blockAfterBlank (d : ast.Data) (cs : list ast.Node) : ast.Node :=
  ast.mkNode d true [] cs.
Definition text (s : string) : ast.Node := ast.mkNode (ast.Text (str s) false false) false [] [].

(** Scenario 1: the tree of ["# Title\n\nHello *world*.\n"]. *)
Definition scenario1 : ast.Node :=
  block ast.Document
    [ block (ast.Heading 1 false) [text "Title"];
      blockAfterBlank ast.Paragraph
        [text "Hello "; block (ast.Emphasis "*"%byte 1) [text "world"]; text "."] ].

(** Scenario 2: the tree of ["Hello world, this is a test of wrapping.\n"]. *)
Definition scenario2Text : string := "Hello world, this is a test of wrapping.".
Definition scenario2 : ast.Node :=
  block ast.Document [ block ast.Paragraph [text scenario2Text] ].

(** Scenario 3: a table with the header cells [a], [bb] and one row [ccc], [d]. *)
Definition cell (s : string) : ast.Node := block ast.TableCell [text s].
Definition scenario3Table : ast.Node :=
  block ast.Table
    [ block ast.TableHeader [cell "a"; cell "bb"];
      block ast.TableRow [cell "ccc"; cell "d"] ].
Definition scenario3 : ast.Node := block ast.Document [scenario3Table].

(** A one-line heading, ["# T\n"]. *)
Definition headingT : ast.Node :=
  block ast.Document [ block (ast.Heading 1 false) [text "T"] ].

(** A block quote holding one paragraph, ["> aaaa bbbb cccc\n"]. *)
Definition quoted : ast.Node :=
  block ast.Document [ block ast.Blockquote [ block ast.Paragraph [text "aaaa bbbb cccc"] ] ].

(** ** Reading the output *)

(** The lines of an output: the pieces between newlines (the piece after the
    last newline is left out when it is empty). *)
Definition outputLines (out : bytes) : list bytes := map fst (chunks out).

(** The words of a text: its maximal runs of bytes that are not white space. *)
Fixpoint wordsFrom (cur : bytes) (b : bytes) : list bytes :=
  match b with
  | [] => match cur with [] => [] | _ => [cur] end
  | c :: b' =>
    if IsSpace (b2z c) then
      match cur with
      | [] => wordsFrom [] b'
      | _ => cur :: wordsFrom [] b'
      end
    else wordsFrom (cur ++ [c]) b'
  end.

Definition words (b : bytes) : list bytes := wordsFrom [] b.

Fixpoint isPrefixOf (p b : bytes) : bool :=
  match p, b with
  | [], _ => true
  | c :: p', d :: b' => Byte.eqb c d && isPrefixOf p' b'
  | _ :: _, [] => false
  end.

(** * Definitions used by the statements and proofs *)

(** What the line writer and the word-wrap buffer leave alone: the options,
    every stack but the open blocks, the span tree.  The byte offset only
    grows. *)
Definition textFrame (r r' : Renderer) : Prop :=
  theme r' = theme r /\ wordWrap r' = wordWrap r /\ hyperlinks r' = hyperlinks r
  /\ images r' = images r /\ maxImageWidth r' = maxImageWidth r
  /\ contentRoot r' = contentRoot r /\ softBreak r' = softBreak r
  /\ listStack r' = listStack r /\ tableStack r' = tableStack r
  /\ wrapping r' = wrapping r /\ spanStack r' = spanStack r /\ lastSpan r' = lastSpan r
  /\ rootSpan r' = rootSpan r /\ styles r' = styles r /\ prefixStack r' = prefixStack r
  /\ prefix r' = prefix r /\ inImage r' = inImage r /\ heap r' = heap r
  /\ byteOffset r <= byteOffset r'.

(** What every method other than [OpenSpan] and [CloseSpan] leaves alone. *)
Definition spanFrame (r r' : Renderer) : Prop :=
  theme r' = theme r /\ images r' = images r /\ maxImageWidth r' = maxImageWidth r
  /\ contentRoot r' = contentRoot r
  /\ spanStack r' = spanStack r /\ lastSpan r' = lastSpan r /\ rootSpan r' = rootSpan r
  /\ inImage r' = inImage r /\ heap r' = heap r
  /\ byteOffset r <= byteOffset r'.

(** [frames P m]: a normal return of [m] relates the states by [P]. *)
Definition frames {A} (P : Renderer -> Renderer -> Prop) (m : M A) : Prop :=
  forall r a r', m r = Ok (a, r') -> P r r'.

Definition startOf (h : list NodeSpan) (i : nat) : Z :=
  match h !! i with Some s => Start s | None => 0 end.
Definition endOf (h : list NodeSpan) (i : nat) : Z :=
  match h !! i with Some s => End_ s | None => 0 end.
Definition parentOf (h : list NodeSpan) (i : nat) : option nat :=
  match h !! i with Some s => Parent s | None => None end.
Definition childrenOf (h : list NodeSpan) (i : nat) : list nat :=
  match h !! i with Some s => Children s | None => [] end.

(** The children [cs] lie in order between [lo] and [hi]: each one starts
    where the one before it has ended, or later. *)
Fixpoint inOrder (st en : nat -> Z) (lo : Z) (cs : list nat) (hi : Z) : Prop :=
  match cs with
  | [] => lo <= hi
  | c :: cs' => lo <= st c /\ st c <= en c /\ inOrder st en (en c) cs' hi
  end.

(** The property of the claim for the span at index [i] of a heap. *)
Definition contained (h : list NodeSpan) (i : nat) : Prop :=
  inOrder (startOf h) (endOf h) (startOf h i) (childrenOf h i) (endOf h i).

(** While a span is open its end is not set yet: it extends to the
    current byte offset. *)
Definition effEnd (h : list NodeSpan) (stk : list nat) (b : Z) (i : nat) : Z :=
  if decide (i ∈ stk) then b else endOf h i.

(** The open spans form a chain of parents, the bottom one has none. *)
Fixpoint chain (parent : nat -> option nat) (below : option nat) (stk : list nat) : Prop :=
  match stk with
  | [] => True
  | p :: stk' => parent p = below /\ chain parent (Some p) stk'
  end.

Record Inv (h : list NodeSpan) (stk : list nat) (b : Z) : Prop := {
  inv_nodup : NoDup stk;
  inv_valid : forall i, i ∈ stk -> (i < length h)%nat;
  inv_child : forall i c, (i < length h)%nat -> c ∈ childrenOf h i ->
              (c < length h)%nat /\ parentOf h c = Some i;
  inv_chain : chain (parentOf h) None stk;
  inv_ordered : forall i, (i < length h)%nat ->
                inOrder (startOf h) (effEnd h stk b) (startOf h i) (childrenOf h i)
                        (effEnd h stk b i);
  inv_closed : forall i c, (i < length h)%nat -> i ∉ stk -> c ∈ childrenOf h i -> c ∉ stk;
  inv_last : forall i cs c c', (i < length h)%nat -> childrenOf h i = cs ++ [c] ->
             c' ∈ cs -> c' ∉ stk
}.

Definition SpanInv (r : Renderer) : Prop := Inv (heap r) (spanStack r) (byteOffset r).

Definition lastOr (below : option nat) (stk : list nat) : option nat :=
  match last stk with Some x => Some x | None => below end.

(** The heap after [OpenSpan]. *)
Definition openedHeap (r : Renderer) (n : ast.Node) : list NodeSpan :=
  let p := length (heap r) in
  let h1 := match top (spanStack r) with
            | Some q => alter (addChild p) q (heap r)
            | None => heap r
            end in
  let h2 := match lastSpan r with
            | Some l => alter (setNext p) l h1
            | None => h1
            end in
  h2 ++ [{| Start := byteOffset r; End_ := 0; Node := n; Parent := top (spanStack r);
            Next := None; Prev := lastSpan r; Children := [] |}].

Definition opensSpan {A} (m : M A) : Prop :=
  forall r a r', m r = Ok (a, r') ->
    exists n r0 u r1, spanFrame r r0 /\ OpenSpan n r0 = Ok (u, r1) /\ spanFrame r1 r'.

Definition closesSpan {A} (m : M A) : Prop :=
  forall r a r', m r = Ok (a, r') ->
    exists r0 u r1, spanFrame r r0 /\ CloseSpan r0 = Ok (u, r1) /\ spanFrame r1 r'.

Definition noStop (m : M ast.WalkStatus) : Prop :=
  forall r a r', m r = Ok (a, r') -> a <> ast.WalkStop.

(** The kinds whose rendering function opens a span on entering and closes
    it on leaving; images are apart. *)
Definition spanKind (d : ast.Data) : bool :=
  match d with
  | ast.TableHeader | ast.TableRow | ast.TableCell | ast.AutoLink _ | ast.Other
  | ast.Image _ _ _ _ => false
  | _ => true
  end.

Definition isImage (d : ast.Data) : bool :=
  match d with ast.Image _ _ _ _ => true | _ => false end.

Fixpoint ast_Node_ind (P : ast.Node -> Prop)
    (H : forall d b ws cs, Forall P cs -> P (ast.mkNode d b ws cs)) (n : ast.Node) : P n :=
  match n with
  | ast.mkNode d b ws cs =>
    H d b ws cs
      ((fix go (l : list ast.Node) : Forall P l :=
          match l with
          | [] => @List.Forall_nil _ P
          | c :: l' => @List.Forall_cons _ P c l' (ast_Node_ind P H c) (go l')
          end) cs)
  end.

(** The loop over the children in [walkHelper]. *)
Definition walkChildren (ext : Externals) (n : ast.Node)
  : bool -> option ast.NodeKind -> list ast.Node -> M bool :=
  fix loop (first : bool) (prev : option ast.NodeKind) (l : list ast.Node) : M bool :=
    match l with
    | [] => ret false
    | c :: l' =>
      let* st := walkHelper ext (childContext n first prev) c in
      if isStop st then ret true
      else loop false (Some (ast.Kind c)) l'
    end.

(** What a walk of a subtree that returns normally has done. *)
Definition walked (r r' : Renderer) : Prop :=
  SpanInv r' /\ spanStack r' = spanStack r /\ inImage r' = false
  /\ images r' = images r /\ byteOffset r <= byteOffset r'.

(** The states a renderer is in after a completed render: the first render
    of a new renderer, or a further render with the same renderer. *)
Inductive completed (ext : Externals) : Renderer -> Prop :=
| completed_first theme wordWrap hyperlinks images maxImageWidth contentRoot softBreak doc r' :
    Render ext (New theme wordWrap hyperlinks images maxImageWidth contentRoot softBreak) doc
    = Ok r' ->
    completed ext r'
| completed_next r doc r' :
    completed ext r -> Render ext r doc = Ok r' -> completed ext r'.

(** ** Line prefixes and forced newlines, as read from the output *)

Definition noNewline (b : bytes) : bool := forallb (fun c => negb (Byte.eqb c newline)) b.

(** Every line of an output that has a byte other than a space starts with
    the prefix [p]. *)
Definition everyLineStartsWith (p : bytes) (out : bytes) : Prop :=
  forall line, In line (outputLines out) ->
    existsb (fun c => negb (Byte.eqb c space)) line = true ->
    isPrefixOf p line = true.

(** The bytes [write] puts before a line of content: the line prefix at the
    start of a line, nothing on a continuation line of a paragraph, nothing in
    the middle of a line. *)
Definition linePrefix (r : Renderer) : bytes :=
  if atNewline r && negb (isContinuation r) then prefix r else [].

(** The condition under which [flushWordBuffer] writes a newline before the
    buffered word. *)
Definition wrapsBefore (ext : Externals) (r : Renderer) : Prop :=
  0 < lineWidth r /\ wordWrap r <= lineWidth r + measureText ext (wordBuffer r).

(** A renderer in the middle of a wrapped paragraph, at the start of a line,
    with a word of 12 columns in the word buffer. *)
Definition longWordAtLineStart : Renderer :=
  set_wordBuffer (str "abcdefghijkl") (set_wrapping [true; true] (plain 10)).

(** A renderer inside a block quote, at the start of a line of a paragraph
    that has not written anything yet. *)
Definition freshQuotedLine : Renderer :=
  set_atNewline true
    (set_openBlocks [{| node := block ast.Paragraph []; fresh := true |}]
       (set_prefix (str "> ") (set_prefixStack [str "> "] (plain 10)))).

(** ** The terminal that reads the SGR commands *)

Fixpoint bytes_eqb (a b : bytes) : bool :=
  match a, b with
  | [], [] => true
  | c :: a', d :: b' => Byte.eqb c d && bytes_eqb a' b'
  | _, _ => false
  end.

Fixpoint stripPrefix (p s : bytes) : option bytes :=
  match p, s with
  | [], _ => Some s
  | c :: p', d :: s' => if Byte.eqb c d then stripPrefix p' s' else None
  | _ :: _, [] => None
  end.

(** The attributes of the terminal: the colours as the parameter text they
    were set with ([R;G;B]), [None] for the default colour. *)
Record Terminal : Type := {
  foreground : option bytes;
  background : option bytes;
  bold : bool;
  underline : bool;
  italic : bool
}.

Definition defaultTerminal : Terminal :=
  {| foreground := None; background := None; bold := false; underline := false;
     italic := false |}.

(** The effect of [ESC '[' command 'm'] on the attributes. *)
Definition applySGR (command : bytes) (t : Terminal) : Terminal :=
  if bytes_eqb command (str "0") then defaultTerminal
  else if bytes_eqb command (str "1") then
    {| foreground := foreground t; background := background t; bold := true;
       underline := underline t; italic := italic t |}
  else if bytes_eqb command (str "22") then
    {| foreground := foreground t; background := background t; bold := false;
       underline := underline t; italic := italic t |}
  else if bytes_eqb command (str "4") then
    {| foreground := foreground t; background := background t; bold := bold t;
       underline := true; italic := italic t |}
  else if bytes_eqb command (str "24") then
    {| foreground := foreground t; background := background t; bold := bold t;
       underline := false; italic := italic t |}
  else if bytes_eqb command (str "3") then
    {| foreground := foreground t; background := background t; bold := bold t;
       underline := underline t; italic := true |}
  else if bytes_eqb command (str "23") then
    {| foreground := foreground t; background := background t; bold := bold t;
       underline := underline t; italic := false |}
  else
    match stripPrefix (str "48;2;") command with
    | Some rgb =>
      {| foreground := foreground t; background := Some rgb; bold := bold t;
         underline := underline t; italic := italic t |}
    | None =>
      match stripPrefix (str "38;2;") command with
      | Some rgb =>
        {| foreground := Some rgb; background := background t; bold := bold t;
           underline := underline t; italic := italic t |}
      | None => t
      end
    end.

Definition runSGR (commands : list bytes) (t : Terminal) : Terminal :=
  fold_left (fun t c => applySGR c t) commands t.

(** The parameter text of a colour. *)
Definition rgbText (c : chroma.Colour) : bytes :=
  FormatInt (chroma.Red c) ++ str ";" ++ FormatInt (chroma.Green c) ++ str ";"
    ++ FormatInt (chroma.Blue c).

Definition isYes (t : chroma.Trilean) : bool :=
  match t with chroma.Yes => true | _ => false end.

(** The commands [writeDelta] passes to [writeSGR], in order. *)
Definition deltaCommands (base new : chroma.StyleEntry) : list bytes :=
  if chroma.IsZero new then [str "0"]
  else
    (if chroma.IsSet (chroma.Background new)
        && (chroma.IsZero base || negb (chroma.Background new =? chroma.Background base))
     then [colorCommand (str "48") (chroma.Background new)] else [])
    ++ (if chroma.IsSet (chroma.Colour_ new)
           && (chroma.IsZero base || negb (chroma.Colour_ new =? chroma.Colour_ base))
        then [colorCommand (str "38") (chroma.Colour_ new)] else [])
    ++ (if chroma.IsZero base
           || negb (chroma.Trilean_eqb (chroma.Bold new) (chroma.Bold base))
        then [tristateCommand (str "22") (str "1") (chroma.Bold new)] else [])
    ++ (if chroma.IsZero base
           || negb (chroma.Trilean_eqb (chroma.Underline new) (chroma.Underline base))
        then [tristateCommand (str "24") (str "4") (chroma.Underline new)] else [])
    ++ (if chroma.IsZero base
           || negb (chroma.Trilean_eqb (chroma.Italic new) (chroma.Italic base))
        then [tristateCommand (str "23") (str "3") (chroma.Italic new)] else []).

(** The commands of [PushStyle] for a token, and of [PopStyle]. *)
Definition pushCommands (th : chroma.Style) (token : chroma.TokenType)
    (ss : list chroma.StyleEntry) : list bytes :=
  if chroma.IsZero (th token) then []
  else deltaCommands (topStyle ss) (resolve (th token) (topStyle ss)).

Definition popCommands (ss : list chroma.StyleEntry) : list bytes :=
  match top ss with
  | Some cur => deltaCommands cur (topStyle (pop ss))
  | None => []
  end.

(** The terminal shows the style [s]: the default attributes for the zero
    style; otherwise the three flags of [s] and the colours [s] sets. *)
Definition shows (s : chroma.StyleEntry) (t : Terminal) : Prop :=
  if chroma.IsZero s then t = defaultTerminal
  else
    bold t = isYes (chroma.Bold s)
    /\ underline t = isYes (chroma.Underline s)
    /\ italic t = isYes (chroma.Italic s)
    /\ (chroma.IsSet (chroma.Background s) = true ->
        background t = Some (rgbText (chroma.Background s)))
    /\ (chroma.IsSet (chroma.Colour_ s) = true ->
        foreground t = Some (rgbText (chroma.Colour_ s))).

(** Every colour the token style sets is set by the style below it as well
    (or there is no style below it). *)
Definition coloursCovered (base tokenStyle : chroma.StyleEntry) : Prop :=
  chroma.IsZero base = true
  \/ ((chroma.IsSet (chroma.Background tokenStyle) = true ->
       chroma.IsSet (chroma.Background base) = true)
      /\ (chroma.IsSet (chroma.Colour_ tokenStyle) = true ->
          chroma.IsSet (chroma.Colour_ base) = true)).

(** A theme for the examples: token 1 is bold, token 2 is red, token 3 has
    no style. *)
Definition boldStyle : chroma.StyleEntry :=
  {| chroma.Colour_ := 0; chroma.Background := 0; chroma.Border := 0;
     chroma.Bold := chroma.Yes; chroma.Italic := chroma.Pass;
     chroma.Underline := chroma.Pass; chroma.NoInherit := false |}.

Definition redStyle : chroma.StyleEntry :=
  {| chroma.Colour_ := 16711681; chroma.Background := 0; chroma.Border := 0;
     chroma.Bold := chroma.Pass; chroma.Italic := chroma.Pass;
     chroma.Underline := chroma.Pass; chroma.NoInherit := false |}.

Definition exampleTheme : chroma.Style :=
  fun token =>
    if token =? 1 then boldStyle
    else if token =? 2 then redStyle
    else chroma.zero.

(** A renderer with the example theme, wrap width 80, and the bold style on
    its style stack; the terminal shows bold text in the default colours. *)
Definition boldRenderer : Renderer :=
  set_styles [boldStyle] (New (Some exampleTheme) 80 false false 0 [] false).

Definition boldTerminal : Terminal :=
  {| foreground := None; background := None; bold := true; underline := false;
     italic := false |}.

(** C10 (the code fails the claim).  A code span of two lines whose content
    is [a], newline, [b`]: the content is not empty, not blank, and its last
    character is a backtick, and [shouldPadCodeSpan] answers no: it reads the
    last character from the first Text child that is not blank.  The
    closing delimiter then follows the backtick of the content. *)
Definition codeSpanTwoLines : ast.Node :=
  block (ast.CodeSpan 2)
    [ ast.mkNode (ast.Text (str "a" ++ [newline]) false false) false [] [];
      text "b`" ].

(** The first frame the encoder of the repository writes for an image:
    [ESC _ G f=100,a=T,m=0;] a payload [ESC \]. *)
Definition firstFrame : bytes :=
  [escape] ++ str "_Gf=100,a=T,m=0;AAAA" ++ [escape; x5c].

(** A frame with a key the decoder does not know. *)
Definition unknownKeyFrame : bytes :=
  [escape] ++ str "_Gx=1;AAAA" ++ [escape; x5c].

(** ** Definitions for the properties of the line writer *)

(** The number of newline bytes of a buffer. *)
Definition countNewlines (b : bytes) : Z :=
  len (List.filter (fun c => Byte.eqb c newline) b).

(** The bytes of the lines of a list of chunks, the newlines apart. *)
Definition chunkBytes (cs : list (bytes * bool)) : Z :=
  fold_right (fun c acc => len (fst c) + acc) 0 cs.

(** ** Definitions for the properties of the graphics decoder *)

(** The fields of a command that hold numbers, and the medium. *)
Definition numericFields (c : kitty.Command) : list Z :=
  [kitty.Format c; kitty.Width c; kitty.Height c; kitty.Size c; kitty.Offset c;
   kitty.ID c; kitty.Number c; kitty.Placement c].

(** The prefix of a command: [ESC _ G]. *)
Definition commandPrefix : bytes := [x1b; "_"%byte; "G"%byte].

(** ** Definitions for the properties of link rendering *)

(** A double quote at index [i] of a title that no backslash precedes. *)
Definition unescapedQuoteAt (title : bytes) (i : nat) : Prop :=
  title !! i = Some x22
  /\ match i with
     | O => True
     | S j => title !! j <> Some x5c
     end.

(** The bytes that make [escapeLinkDest] put a destination in angle
    brackets. *)
Definition needsBrackets (c : byte) : bool :=
  (b2z c <=? 32) || Byte.eqb c x28 || Byte.eqb c x29 || (b2z c =? 127).

(** ** Definitions for the properties of the table measuring pass *)

(** The greatest width in column [j] of the rows, zero when no row has
    such a column or all its widths are negative. *)
Fixpoint columnMax (rows : list (list Z)) (j : nat) : Z :=
  match rows with
  | [] => 0
  | row :: rows' => Z.max (default 0 (row !! j)) (columnMax rows' j)
  end.

(** The number of cells of the longest row. *)
Fixpoint columnCount (rows : list (list Z)) : nat :=
  match rows with
  | [] => 0%nat
  | row :: rows' => Nat.max (length row) (columnCount rows')
  end.

(** The column widths after the widths of the cells of one more row have
    been taken in. *)
Fixpoint widen (columnWidths row : list Z) : list Z :=
  match columnWidths, row with
  | _, [] => columnWidths
  | [], n :: row' => Z.max 0 n :: widen [] row'
  | w :: columnWidths', n :: row' => Z.max w n :: widen columnWidths' row'
  end.

(** ** Definitions for the properties of a whole render *)

(** What stays of a span once it is opened: everything but its end, the
    link to the next span and the children added to it later. *)
Definition spanKept (s s' : NodeSpan) : Prop :=
  Start s' = Start s /\ Node s' = Node s /\ Parent s' = Parent s /\ Prev s' = Prev s
  /\ exists more, Children s' = Children s ++ more.

Definition spansKept (r r' : Renderer) : Prop :=
  byteOffset r <= byteOffset r'
  /\ forall i s, heap r !! i = Some s -> exists s', heap r' !! i = Some s' /\ spanKept s s'.

(** The spans are linked in the order in which they were opened. *)
Definition linked (r : Renderer) : Prop :=
  lastSpan r = match length (heap r) with O => None | S k => Some k end
  /\ forall i s, heap r !! i = Some s ->
       Prev s = match i with O => None | S j => Some j end
       /\ Next s = if (S i =? length (heap r))%nat then None else Some (S i).

Definition keepsLinked (r r' : Renderer) : Prop := linked r -> linked r'.

(** The options of a renderer, which [New] sets. *)
Definition optionsKept (r r' : Renderer) : Prop :=
  theme r' = theme r /\ wordWrap r' = wordWrap r /\ hyperlinks r' = hyperlinks r
  /\ images r' = images r /\ maxImageWidth r' = maxImageWidth r
  /\ contentRoot r' = contentRoot r /\ softBreak r' = softBreak r.

(** The line prefix is the concatenation of the prefix stack. *)
Definition prefixInv (r : Renderer) : Prop := prefix r = concat (prefixStack r).

Definition keepsPrefix (r r' : Renderer) : Prop := prefixInv r -> prefixInv r'.

(** ** Definitions for the properties of blocks *)

(** What the line writer leaves of the open blocks: the blocks below the top
    one, and the node of the top one (whose fresh mark it clears). *)
Definition blocksKept (r r' : Renderer) : Prop :=
  pop (openBlocks r') = pop (openBlocks r)
  /\ option_map node (top (openBlocks r')) = option_map node (top (openBlocks r)).

(** * Frame properties of the renderer methods *)

Lemma textFrame_refl r : textFrame r r.
Proof. unfold textFrame. repeat split; lia. Qed.

Lemma textFrame_trans r1 r2 r3 : textFrame r1 r2 -> textFrame r2 r3 -> textFrame r1 r3.
Proof. unfold textFrame. intuition (try congruence; try lia). Qed.

Lemma spanFrame_refl r : spanFrame r r.
Proof. unfold spanFrame. repeat split; lia. Qed.

Lemma spanFrame_trans r1 r2 r3 : spanFrame r1 r2 -> spanFrame r2 r3 -> spanFrame r1 r3.
Proof. unfold spanFrame. intuition (try congruence; try lia). Qed.

Lemma textFrame_spanFrame r r' : textFrame r r' -> spanFrame r r'.
Proof. unfold textFrame, spanFrame. intuition. Qed.

Lemma bind_Ok {A B} (m : M A) (f : A -> M B) r b r' :
  bind m f r = Ok (b, r') -> exists a r1, m r = Ok (a, r1) /\ f a r1 = Ok (b, r').
Proof.
  unfold bind. destruct (m r) as [[a r1]| |]; try discriminate. eauto.
Qed.

Lemma frames_ret {A} P (a : A) : (forall r, P r r) -> frames P (ret a).
Proof. intros P_refl r a' r' H. inversion H; subst. apply P_refl. Qed.

Lemma frames_bind {A B} P (m : M A) (f : A -> M B) :
  (forall r1 r2 r3, P r1 r2 -> P r2 r3 -> P r1 r3) ->
  frames P m -> (forall a, frames P (f a)) -> frames P (bind m f).
Proof.
  intros P_trans Hm Hf r b r' H. apply bind_Ok in H as (a & r1 & H1 & H2).
  eapply P_trans; [eapply Hm | eapply Hf]; eauto.
Qed.

Lemma frames_get P : (forall r, P r r) -> frames P get.
Proof. intros P_refl r a r' H. inversion H; subst. apply P_refl. Qed.

Lemma frames_lift {A} P (o : outcome A) : (forall r, P r r) -> frames P (lift o).
Proof.
  intros P_refl r a r' H. unfold lift in H. destruct o; inversion H; subst. apply P_refl.
Qed.

Lemma frames_raise {A} P p : frames P (@raise A p).
Proof. intros r a r' H. discriminate. Qed.

Lemma frames_fail {A} P e : frames P (@fail A e).
Proof. intros r a r' H. discriminate. Qed.

Lemma frames_when P c m : (forall r, P r r) -> frames P m -> frames P (when c m).
Proof. intros P_refl H. destruct c; simpl; [exact H | apply frames_ret, P_refl]. Qed.

Lemma frames_modify P f : (forall r, P r (f r)) -> frames P (modify f).
Proof. intros Hf r a r' H. inversion H; subst. apply Hf. Qed.

Lemma frames_forEach {A} P (l : list A) f :
  (forall r, P r r) -> (forall r1 r2 r3, P r1 r2 -> P r2 r3 -> P r1 r3) ->
  (forall x, frames P (f x)) -> frames P (forEach l f).
Proof.
  intros P_refl P_trans Hf. induction l as [|x l IH]; simpl.
  - apply frames_ret, P_refl.
  - apply frames_bind; [exact P_trans | apply Hf | intros _; exact IH].
Qed.

Lemma frames_mapM {A B} P (f : A -> M B) (l : list A) :
  (forall r, P r r) -> (forall r1 r2 r3, P r1 r2 -> P r2 r3 -> P r1 r3) ->
  (forall x, frames P (f x)) -> frames P (mapM f l).
Proof.
  intros P_refl P_trans Hf. induction l as [|x l IH]; simpl.
  - apply frames_ret, P_refl.
  - apply frames_bind; [exact P_trans | apply Hf | intros y].
    apply frames_bind; [exact P_trans | exact IH | intros ys; apply frames_ret, P_refl].
Qed.

Lemma frames_weaken {A} (P Q : Renderer -> Renderer -> Prop) (m : M A) :
  (forall r r', P r r' -> Q r r') -> frames P m -> frames Q m.
Proof. intros HPQ Hm r a r' H. apply HPQ. eapply Hm; eauto. Qed.

(** A tactic for goals [textFrame r (f r)] and [spanFrame r (f r)] where [f]
    is built from the field setters. *)
Ltac frame_fields :=
  intros; unfold textFrame, spanFrame;
  repeat match goal with
         | |- context [if ?c then _ else _] => destruct c
         | |- context [match ?c with _ => _ end] => destruct c
         end;
  simpl; repeat split; try reflexivity; try lia.

Create HintDb frames.
#[export] Hint Resolve textFrame_refl spanFrame_refl : frames.

Ltac preorder :=
  first [ exact textFrame_refl | exact textFrame_trans
        | exact spanFrame_refl | exact spanFrame_trans ].

(** Walks down a method built from [bind], [when], [modify] and the
    conditionals, and closes the leaves with the lemmas of the [frames]
    database. *)
Ltac frames_tac :=
  lazymatch goal with
  | |- frames _ (bind _ _) => apply frames_bind; [preorder | frames_tac | intros ?; frames_tac]
  | |- frames _ (ret _) => apply frames_ret; preorder
  | |- frames _ get => apply frames_get; preorder
  | |- frames _ (lift _) => apply frames_lift; preorder
  | |- frames _ (raise _) => apply frames_raise
  | |- frames _ (fail _) => apply frames_fail
  | |- frames _ (when _ _) => apply frames_when; [preorder | frames_tac]
  | |- frames _ (modify _) => apply frames_modify; frame_fields
  | |- frames _ (forEach _ _) => apply frames_forEach; [preorder | preorder | intros ?; frames_tac]
  | |- frames _ (mapM _ _) => apply frames_mapM; [preorder | preorder | intros ?; frames_tac]
  | |- frames _ (if ?c then _ else _) => destruct c; frames_tac
  | |- frames _ (match ?c with _ => _ end) => destruct c; frames_tac
  | |- frames spanFrame _ =>
    first [ solve [auto with frames]
          | apply (frames_weaken textFrame spanFrame);
            [exact textFrame_spanFrame | solve [auto with frames]] ]
  | |- _ => solve [auto with frames]
  end.

Section WriterFrames.

Context (ext : Externals).

Lemma measureLoop_nonneg fuel : forall seg rest w, 0 <= w -> 0 <= measureLoop ext fuel seg rest w.
Proof.
  induction fuel as [|fuel IH]; simpl; intros seg rest w Hw; [lia|].
  destruct (negb (csiDecode ext rest =? 0)%nat || (length rest =? 0)%nat).
  - destruct (skipn (csiDecode ext rest) rest); [lia | apply IH; lia].
  - destruct rest; [lia | apply IH; lia].
Qed.

Lemma measureText_nonneg buf : 0 <= measureText ext buf.
Proof. unfold measureText. destruct buf; [lia | apply measureLoop_nonneg; lia]. Qed.

Lemma len_nonneg {A} (l : list A) : 0 <= len l.
Proof. unfold len. lia. Qed.

Lemma frames_wWrite b : frames textFrame (wWrite b).
Proof. unfold wWrite. frames_tac. Qed.

Lemma frames_beginLine : frames textFrame beginLine.
Proof.
  intros r a r' H. unfold beginLine in H.
  destruct (isContinuation r); [inversion H; subst; apply textFrame_refl|].
  destruct (len (prefix r) =? 0) eqn:E; inversion H; subst; clear H.
  - frame_fields.
  - pose proof (len_nonneg (prefix r)).
    unfold textFrame. simpl.
    destruct (match last (prefix r) with Some c => Byte.eqb c newline | None => false end);
      simpl; repeat split; try reflexivity; lia.
Qed.

Hint Resolve frames_wWrite frames_beginLine : frames.

Lemma frames_writeChunk line hasNewline : frames textFrame (writeChunk ext line hasNewline).
Proof. unfold writeChunk. frames_tac. Qed.

Hint Resolve frames_writeChunk : frames.

Lemma frames_writeChunks cs : forall written, frames textFrame (writeChunks ext cs written).
Proof.
  induction cs as [|[line hasNewline] cs IH]; intros written; simpl.
  - frames_tac.
  - apply frames_bind; [preorder | auto with frames | intros _; apply IH].
Qed.

Lemma frames_write buf : frames textFrame (write ext buf).
Proof. apply frames_writeChunks. Qed.

Hint Resolve frames_write : frames.

Lemma frames_PushWordWrap b : frames spanFrame (PushWordWrap b).
Proof. unfold PushWordWrap. frames_tac. Qed.

Lemma frames_PopWordWrap : frames spanFrame PopWordWrap.
Proof.
  intros r a r' H. unfold PopWordWrap in H.
  destruct (wrapping r); inversion H; subst. frame_fields.
Qed.

Lemma frames_flushWordBuffer : frames textFrame (flushWordBuffer ext).
Proof. unfold flushWordBuffer. frames_tac. Qed.

Hint Resolve frames_flushWordBuffer : frames.

Lemma DecodeRune_size_nonneg buf : 0 <= Z.of_nat (snd (DecodeRune buf)).
Proof. lia. Qed.

Lemma frames_WriteRunes fuel : forall buf written, frames textFrame (WriteRunes ext fuel buf written).
Proof.
  induction fuel as [|fuel IH]; intros buf written; simpl.
  - destruct buf; frames_tac.
  - destruct buf as [|b buf]; [frames_tac|].
    destruct (DecodeRune (b :: buf)) as [c sz].
    apply frames_bind; [preorder | frames_tac | intros _].
    apply frames_bind; [preorder | frames_tac | intros _; apply IH].
Qed.

Hint Resolve frames_WriteRunes : frames.

Lemma frames_write_nonneg_cs cs : forall written r n r',
  0 <= written -> writeChunks ext cs written r = Ok (n, r') -> 0 <= n.
Proof.
  induction cs as [|[line hasNewline] cs IH]; intros written r n r' Hw H; simpl in H.
  - inversion H; subst; lia.
  - apply bind_Ok in H as (a & r1 & _ & H). eapply IH; [|exact H].
    pose proof (len_nonneg line). lia.
Qed.

Lemma frames_Write buf : frames textFrame (Write ext buf).
Proof.
  unfold Write. apply frames_bind; [preorder | frames_tac | intros r0].
  destruct (negb (WordWrap r0)); [|auto with frames].
  apply frames_bind; [preorder | frames_tac | intros _].
  intros r n r' H. apply bind_Ok in H as (n' & r1 & H1 & H2).
  apply bind_Ok in H2 as (u & r2 & H2 & H3). inversion H3; subst; clear H3.
  inversion H2; subst; clear H2.
  pose proof (frames_write_nonneg_cs _ _ _ _ _ (Z.le_refl 0) H1) as Hn.
  apply frames_write in H1.
  eapply textFrame_trans; [exact H1|]. unfold textFrame; simpl. repeat split; try reflexivity; lia.
Qed.

End WriterFrames.

#[export] Hint Resolve frames_wWrite frames_beginLine frames_write frames_flushWordBuffer
  frames_Write frames_PushWordWrap frames_PopWordWrap : frames.

(** * The span tree: containment *)

(** ** Facts on [inOrder] and [chain] *)

Lemma inOrder_le st en lo cs hi : inOrder st en lo cs hi -> lo <= hi.
Proof.
  revert lo. induction cs as [|c cs IH]; simpl; intros lo H; [exact H|].
  destruct H as (H1 & H2 & H3). apply IH in H3. lia.
Qed.

Lemma inOrder_ext st en st' en' lo cs hi :
  (forall c, c ∈ cs -> st' c = st c /\ en' c = en c) ->
  inOrder st en lo cs hi -> inOrder st' en' lo cs hi.
Proof.
  revert lo. induction cs as [|c cs IH]; simpl; intros lo Hext H; [exact H|].
  destruct H as (H1 & H2 & H3).
  destruct (Hext c) as [E1 E2]; [apply elem_of_cons; auto|].
  rewrite E1, E2. repeat split; try assumption.
  apply IH; [|exact H3]. intros c' Hc'. apply Hext. apply elem_of_cons; auto.
Qed.

Lemma inOrder_snoc st en lo cs hi p hi' :
  inOrder st en lo cs hi -> hi <= st p -> st p <= en p -> en p <= hi' ->
  inOrder st en lo (cs ++ [p]) hi'.
Proof.
  revert lo. induction cs as [|c cs IH]; simpl; intros lo H H1 H2 H3.
  - repeat split; lia.
  - destruct H as (Ha & Hb & Hc). repeat split; try assumption. apply IH; assumption.
Qed.

(** Growing ends: the end of every child but the last is unchanged, and the
    last one grows at most to the new bound. *)
Lemma inOrder_grow st en en' lo cs hi hi' :
  (forall c, c ∈ cs -> en c <= en' c) ->
  (forall cs' c c', cs = cs' ++ [c] -> c' ∈ cs' -> en' c' = en c') ->
  (forall cs' c, cs = cs' ++ [c] -> en' c = en c \/ en' c <= hi') ->
  hi <= hi' ->
  inOrder st en lo cs hi -> inOrder st en' lo cs hi'.
Proof.
  revert lo. induction cs as [|c cs IH]; simpl; intros lo Hmono Hinit Hlast Hhi H; [lia|].
  destruct H as (H1 & H2 & H3). split; [exact H1|].
  assert (Hc : en c <= en' c) by (apply Hmono; apply elem_of_cons; auto).
  split; [lia|].
  destruct cs as [|d cs].
  - simpl in *. destruct (Hlast [] c eq_refl) as [E|E]; lia.
  - assert (E : en' c = en c).
    { destruct (last_is_Some (d :: cs)) as [_ Hl]. destruct Hl as [z Hz]; [discriminate|].
      apply last_Some in Hz as [l' Hl']. apply (Hinit (c :: l') z c).
      - rewrite Hl'. reflexivity.
      - apply elem_of_cons; auto. }
    rewrite E. apply IH; try assumption.
    + intros c' Hc'. apply Hmono. apply elem_of_cons; auto.
    + intros cs' z c' Hcs Hc'. apply (Hinit (c :: cs') z c').
      * rewrite Hcs. reflexivity.
      * apply elem_of_cons; auto.
    + intros cs' z Hcs. apply (Hlast (c :: cs') z). rewrite Hcs. reflexivity.
Qed.

Lemma chain_ext f g below stk :
  (forall p, p ∈ stk -> g p = f p) -> chain f below stk -> chain g below stk.
Proof.
  revert below. induction stk as [|p stk IH]; simpl; intros below Hext H; [exact I|].
  destruct H as [H1 H2]. split.
  - rewrite Hext; [exact H1 | apply elem_of_cons; auto].
  - apply IH; [|exact H2]. intros q Hq. apply Hext. apply elem_of_cons; auto.
Qed.

Lemma lastOr_cons below p stk : lastOr below (p :: stk) = lastOr (Some p) stk.
Proof.
  unfold lastOr. destruct stk as [|q stk]; [reflexivity|].
  rewrite last_cons_cons. destruct (last (q :: stk)) eqn:E; [reflexivity|].
  apply last_None in E. discriminate.
Qed.

Lemma chain_snoc f below stk p :
  chain f below (stk ++ [p]) <-> chain f below stk /\ f p = lastOr below stk.
Proof.
  revert below. induction stk as [|q stk IH]; simpl; intros below.
  - unfold lastOr; simpl. tauto.
  - rewrite IH, lastOr_cons. tauto.
Qed.

(** An entry of the chain has for parent the entry just below it. *)
Lemma chain_split f below l1 c l2 :
  chain f below (l1 ++ c :: l2) -> f c = lastOr below l1.
Proof.
  revert below. induction l1 as [|q l1 IH]; simpl; intros below H.
  - destruct H as [H _]. exact H.
  - destruct H as [_ H]. rewrite lastOr_cons. apply IH. exact H.
Qed.

(** The children of the span on top of the stack are all closed. *)
Lemma top_children_closed h stk q b c :
  Inv h (stk ++ [q]) b -> c ∈ childrenOf h q -> c ∉ stk ++ [q].
Proof.
  intros HI Hc Hin.
  assert (Hq : (q < length h)%nat).
  { apply (inv_valid _ _ _ HI). apply elem_of_app. right. apply list_elem_of_singleton.
    reflexivity. }
  destruct (inv_child _ _ _ HI q c Hq Hc) as [_ Hpar].
  apply list_elem_of_split in Hin as (l1 & l2 & Hsplit).
  pose proof (inv_chain _ _ _ HI) as Hch. rewrite Hsplit in Hch.
  apply chain_split in Hch. rewrite Hpar in Hch.
  unfold lastOr in Hch. destruct (last l1) as [x|] eqn:El; [|discriminate].
  inversion Hch; subst x. apply last_Some in El as [l1' El]. subst l1.
  pose proof (inv_nodup _ _ _ HI) as Hnd. rewrite Hsplit in Hnd.
  (* q occurs in l1 and is the last entry of the stack *)
  assert (Hlast : last ((l1' ++ [q]) ++ c :: l2) = Some q).
  { rewrite <- Hsplit. apply last_snoc. }
  rewrite <- app_assoc in Hnd. simpl in Hnd.
  apply NoDup_app in Hnd as (_ & _ & Hnd).
  apply NoDup_cons in Hnd as [Hnotin _]. apply Hnotin.
  rewrite <- app_assoc in Hlast. simpl in Hlast.
  assert (Hl : last (q :: c :: l2) = Some q).
  { rewrite last_app in Hlast. destruct (last (q :: c :: l2)) eqn:E; [exact Hlast|].
    apply last_None in E. discriminate. }
  rewrite last_cons_cons in Hl. apply last_Some_elem_of in Hl.
  exact Hl.
Qed.

(** ** The invariant is kept by every step of a render *)

(** The byte offset grows. *)
Lemma Inv_grow h stk b b' : b <= b' -> Inv h stk b -> Inv h stk b'.
Proof.
  intros Hb HI. destruct HI as [Hnd Hval Hch Hchain Hord Hcl Hlast].
  constructor; try assumption.
  intros i Hi. eapply inOrder_grow; [| | | |apply Hord; exact Hi].
  - intros c _. unfold effEnd. destruct (decide (c ∈ stk)); lia.
  - intros cs' c c' Hcs Hc'. unfold effEnd.
    destruct (decide (c' ∈ stk)) as [Hin|]; [|reflexivity].
    exfalso. exact (Hlast i cs' c c' Hi Hcs Hc' Hin).
  - intros cs' c Hcs. unfold effEnd.
    destruct (decide (c ∈ stk)) as [Hin|]; [|left; reflexivity].
    right. destruct (decide (i ∈ stk)) as [|Hni]; [lia|].
    exfalso. apply (Hcl i c Hi Hni); [|exact Hin].
    rewrite Hcs. apply elem_of_app. right. apply list_elem_of_singleton. reflexivity.
  - unfold effEnd. destruct (decide (i ∈ stk)); lia.
Qed.

(** A span is opened: [h'] is the heap after [OpenSpan], [p] the new span. *)
Lemma Inv_open h stk b h' p :
  p = length h -> length h' = S p ->
  (forall i, (i < p)%nat -> startOf h' i = startOf h i) -> startOf h' p = b ->
  (forall i, (i < p)%nat -> endOf h' i = endOf h i) ->
  (forall i, (i < p)%nat -> parentOf h' i = parentOf h i) -> parentOf h' p = last stk ->
  (forall i, (i < p)%nat ->
     childrenOf h' i = if decide (last stk = Some i) then childrenOf h i ++ [p]
                       else childrenOf h i) ->
  childrenOf h' p = [] ->
  Inv h stk b -> Inv h' (stk ++ [p]) b.
Proof.
  intros Hp Hlen Hst Hstp Hen Hpar Hparp Hchi Hchip HI.
  pose proof HI as [Hnd Hval Hch Hchain Hord Hcl Hlast].
  assert (Hfresh : p ∉ stk).
  { intros Hin. apply Hval in Hin. lia. }
  assert (Hmem : forall c, (c < p)%nat -> (c ∈ stk ++ [p] <-> c ∈ stk)).
  { intros c Hc. rewrite elem_of_app, list_elem_of_singleton. split; [|auto].
    intros [H|H]; [exact H | lia]. }
  assert (Heff : forall c, (c < p)%nat -> effEnd h' (stk ++ [p]) b c = effEnd h stk b c).
  { intros c Hc. unfold effEnd.
    destruct (decide (c ∈ stk ++ [p])) as [H|H]; destruct (decide (c ∈ stk)) as [H'|H'];
      try reflexivity.
    - exfalso. apply H'. apply Hmem; assumption.
    - exfalso. apply H. apply Hmem; assumption.
    - apply Hen. exact Hc. }
  assert (Heffp : effEnd h' (stk ++ [p]) b p = b).
  { unfold effEnd. destruct (decide (p ∈ stk ++ [p])) as [|H]; [reflexivity|].
    exfalso. apply H. apply elem_of_app. right. apply list_elem_of_singleton. reflexivity. }
  assert (Hold : forall i c, (i < p)%nat -> c ∈ childrenOf h i -> (c < p)%nat).
  { intros i c Hi Hc. rewrite Hp in *. apply (Hch i c Hi Hc). }
  constructor.
  - apply NoDup_app. repeat split; [exact Hnd | | apply NoDup_singleton].
    intros x Hx Hx'. apply list_elem_of_singleton in Hx'. subst x. contradiction.
  - intros i Hi. apply elem_of_app in Hi as [Hi|Hi].
    + apply Hval in Hi. lia.
    + apply list_elem_of_singleton in Hi. lia.
  - intros i c Hi Hc. rewrite Hlen in Hi.
    destruct (decide (i = p)) as [->|Hne]; [rewrite Hchip in Hc; inversion Hc|].
    assert (Hi' : (i < p)%nat) by lia.
    rewrite (Hchi i Hi') in Hc.
    destruct (decide (last stk = Some i)) as [Hq|Hq].
    + apply elem_of_app in Hc as [Hc|Hc].
      * pose proof (Hold i c Hi' Hc) as Hcp. rewrite Hp in Hi'.
        destruct (Hch i c Hi' Hc) as [_ Hpc]. split; [lia|].
        rewrite Hpar; assumption.
      * apply list_elem_of_singleton in Hc. subst c. split; [lia|].
        rewrite Hparp. exact Hq.
    + pose proof (Hold i c Hi' Hc) as Hcp. rewrite Hp in Hi'.
      destruct (Hch i c Hi' Hc) as [_ Hpc]. split; [lia|].
      rewrite Hpar; assumption.
  - apply chain_snoc. split.
    + eapply chain_ext; [|exact Hchain]. intros q Hq. apply Hpar.
      apply Hval in Hq. lia.
    + rewrite Hparp. unfold lastOr. destruct (last stk); reflexivity.
  - intros i Hi. rewrite Hlen in Hi.
    destruct (decide (i = p)) as [->|Hne].
    + rewrite Hchip, Hstp, Heffp. simpl. lia.
    + assert (Hi' : (i < p)%nat) by lia.
      assert (Hih : (i < length h)%nat) by lia.
      rewrite (Hchi i Hi'), (Hst i Hi'), (Heff i Hi').
      assert (Hext : inOrder (startOf h') (effEnd h' (stk ++ [p]) b) (startOf h i)
                       (childrenOf h i) (effEnd h stk b i)).
      { eapply inOrder_ext; [|apply Hord; exact Hih].
        intros c Hc. pose proof (Hold i c Hi' Hc). split; [apply Hst | apply Heff]; lia. }
      destruct (decide (last stk = Some i)) as [Hq|Hq]; [|exact Hext].
      assert (Hopen : effEnd h stk b i = b).
      { unfold effEnd. destruct (decide (i ∈ stk)) as [|H]; [reflexivity|].
        exfalso. apply H. apply last_Some_elem_of. exact Hq. }
      rewrite Hopen in *.
      eapply inOrder_snoc; [exact Hext | | |]; rewrite ?Hstp, ?Heffp; lia.
  - intros i c Hi Hni Hc. rewrite Hlen in Hi.
    destruct (decide (i = p)) as [->|Hne].
    { exfalso. apply Hni. apply elem_of_app. right. apply list_elem_of_singleton.
      reflexivity. }
    assert (Hi' : (i < p)%nat) by lia.
    assert (Hni' : i ∉ stk) by (intros H; apply Hni, Hmem; assumption).
    rewrite (Hchi i Hi') in Hc.
    destruct (decide (last stk = Some i)) as [Hq|Hq].
    { exfalso. apply Hni'. apply last_Some_elem_of. exact Hq. }
    pose proof (Hold i c Hi' Hc) as Hcp. intros Hin. apply Hmem in Hin; [|exact Hcp].
    rewrite Hp in Hi'. exact (Hcl i c Hi' Hni' Hc Hin).
  - intros i cs c c' Hi Hcs Hc'. rewrite Hlen in Hi.
    destruct (decide (i = p)) as [->|Hne].
    { rewrite Hchip in Hcs. destruct cs; discriminate. }
    assert (Hi' : (i < p)%nat) by lia.
    rewrite (Hchi i Hi') in Hcs.
    destruct (decide (last stk = Some i)) as [Hq|Hq].
    + apply app_inj_tail in Hcs as [Hcs _]. subst cs.
      pose proof (Hold i c' Hi' Hc') as Hcp. intros Hin. apply Hmem in Hin; [|exact Hcp].
      apply last_Some in Hq as [stk' Hstk]. subst stk.
      exact (top_children_closed h stk' i b c' HI Hc' Hin).
    + assert (Hc'' : c' ∈ childrenOf h i).
      { rewrite Hcs. apply elem_of_app. left. exact Hc'. }
      pose proof (Hold i c' Hi' Hc'') as Hcp. intros Hin. apply Hmem in Hin; [|exact Hcp].
      rewrite Hp in Hi'. exact (Hlast i cs c c' Hi' Hcs Hc' Hin).
Qed.

(** The span on top of the stack is closed: [h'] is the heap after
    [CloseSpan]. *)
Lemma Inv_close h stk p b h' :
  length h' = length h ->
  (forall i, startOf h' i = startOf h i) ->
  (forall i, endOf h' i = if decide (i = p) then b else endOf h i) ->
  (forall i, parentOf h' i = parentOf h i) ->
  (forall i, childrenOf h' i = childrenOf h i) ->
  Inv h (stk ++ [p]) b -> Inv h' stk b.
Proof.
  intros Hlen Hst Hen Hpar Hchi HI.
  pose proof HI as [Hnd Hval Hch Hchain Hord Hcl Hlast].
  apply NoDup_app in Hnd as (Hnd & Hdis & _).
  assert (Hp : p ∉ stk).
  { intros Hin. apply (Hdis p Hin). apply list_elem_of_singleton. reflexivity. }
  assert (Heff : forall i, effEnd h' stk b i = effEnd h (stk ++ [p]) b i).
  { intros i. unfold effEnd. rewrite Hen.
    destruct (decide (i ∈ stk)) as [H|H]; destruct (decide (i ∈ stk ++ [p])) as [H'|H'];
      try reflexivity.
    - exfalso. apply H'. apply elem_of_app. auto.
    - apply elem_of_app in H' as [H'|H']; [contradiction|].
      apply list_elem_of_singleton in H'. subst i.
      destruct (decide (p = p)); [reflexivity | contradiction].
    - destruct (decide (i = p)) as [->|]; [|reflexivity].
      exfalso. apply H'. apply elem_of_app. right. apply list_elem_of_singleton.
      reflexivity. }
  constructor.
  - exact Hnd.
  - intros i Hi. rewrite Hlen. apply Hval. apply elem_of_app. auto.
  - intros i c Hi Hc. rewrite Hlen in *. rewrite Hchi in Hc. rewrite Hpar. apply Hch; assumption.
  - apply chain_snoc in Hchain as [Hchain _].
    eapply chain_ext; [|exact Hchain]. intros q _. apply Hpar.
  - intros i Hi. rewrite Hlen in Hi. rewrite Hchi, Hst, Heff.
    eapply inOrder_ext; [|apply Hord; exact Hi].
    intros c _. split; [apply Hst | apply Heff].
  - intros i c Hi Hni Hc. rewrite Hlen in Hi. rewrite Hchi in Hc.
    intros Hin. destruct (decide (i = p)) as [->|Hne].
    + apply (top_children_closed h stk p b c HI Hc). apply elem_of_app. auto.
    + apply (Hcl i c Hi); [|exact Hc|apply elem_of_app; auto].
      intros H. apply elem_of_app in H as [H|H]; [contradiction|].
      apply list_elem_of_singleton in H. contradiction.
  - intros i cs c c' Hi Hcs Hc' Hin. rewrite Hlen in Hi. rewrite Hchi in Hcs.
    apply (Hlast i cs c c' Hi Hcs Hc'). apply elem_of_app. auto.
Qed.

(** Once every span is closed the invariant is the containment property. *)
Lemma Inv_contained h b i : Inv h [] b -> (i < length h)%nat -> contained h i.
Proof.
  intros HI Hi. unfold contained.
  pose proof (inv_ordered _ _ _ HI i Hi) as H.
  assert (E : forall c, effEnd h [] b c = endOf h c).
  { intros c. unfold effEnd. destruct (decide (c ∈ [])) as [Hin|]; [inversion Hin|reflexivity]. }
  rewrite E in H. eapply inOrder_ext; [|exact H]. intros c _. split; [reflexivity|].
  symmetry. apply E.
Qed.

Lemma Inv_empty b : Inv [] [] b.
Proof.
  constructor.
  - apply NoDup_nil_2.
  - intros i Hi. inversion Hi.
  - intros i c Hi. simpl in Hi. lia.
  - exact I.
  - intros i Hi. simpl in Hi. lia.
  - intros i c Hi. simpl in Hi. lia.
  - intros i cs c c' Hi. simpl in Hi. lia.
Qed.

(** ** [OpenSpan] and [CloseSpan] keep the invariant *)

Lemma lookup_alter_keep {A} (f : A -> A) (g : A -> Z) i (h : list A) j d :
  (forall s, g (f s) = g s) ->
  match alter f i h !! j with Some s => g s | None => d end
  = match h !! j with Some s => g s | None => d end.
Proof.
  intros Hf. destruct (decide (i = j)) as [->|Hne].
  - rewrite list_lookup_alter_eq. destruct (h !! j); simpl; [apply Hf | reflexivity].
  - rewrite list_lookup_alter_ne by exact Hne. reflexivity.
Qed.

Lemma startOf_alter f i h j :
  (forall s, Start (f s) = Start s) -> startOf (alter f i h) j = startOf h j.
Proof. intros Hf. unfold startOf. apply (lookup_alter_keep f Start). exact Hf. Qed.

Lemma endOf_alter f i h j :
  (forall s, End_ (f s) = End_ s) -> endOf (alter f i h) j = endOf h j.
Proof. intros Hf. unfold endOf. apply (lookup_alter_keep f End_). exact Hf. Qed.

Lemma parentOf_alter f i h j :
  (forall s, Parent (f s) = Parent s) -> parentOf (alter f i h) j = parentOf h j.
Proof.
  intros Hf. unfold parentOf. destruct (decide (i = j)) as [->|Hne].
  - rewrite list_lookup_alter_eq. destruct (h !! j); simpl; [apply Hf | reflexivity].
  - rewrite list_lookup_alter_ne by exact Hne. reflexivity.
Qed.

Lemma childrenOf_alter f i h j :
  (forall s, Children (f s) = Children s) -> childrenOf (alter f i h) j = childrenOf h j.
Proof.
  intros Hf. unfold childrenOf. destruct (decide (i = j)) as [->|Hne].
  - rewrite list_lookup_alter_eq. destruct (h !! j); simpl; [apply Hf | reflexivity].
  - rewrite list_lookup_alter_ne by exact Hne. reflexivity.
Qed.

Lemma childrenOf_addChild p q h j :
  (j < length h)%nat ->
  childrenOf (alter (addChild p) q h) j
  = if decide (q = j) then childrenOf h j ++ [p] else childrenOf h j.
Proof.
  intros Hj. unfold childrenOf. destruct (decide (q = j)) as [->|Hne].
  - rewrite list_lookup_alter_eq.
    destruct (lookup_lt_is_Some_2 h j Hj) as [s Hs]. rewrite Hs. reflexivity.
  - rewrite list_lookup_alter_ne by exact Hne. reflexivity.
Qed.

Lemma OpenSpan_result n r a r' :
  OpenSpan n r = Ok (a, r') ->
  heap r' = openedHeap r n /\ spanStack r' = spanStack r ++ [length (heap r)]
  /\ byteOffset r' = byteOffset r /\ inImage r' = inImage r /\ images r' = images r
  /\ theme r' = theme r /\ maxImageWidth r' = maxImageWidth r
  /\ contentRoot r' = contentRoot r.
Proof.
  unfold OpenSpan, openedHeap. intros H. inversion H; subst; clear H. simpl.
  repeat split; reflexivity.
Qed.

Lemma openedHeap_Inv r n :
  SpanInv r -> Inv (openedHeap r n) (spanStack r ++ [length (heap r)]) (byteOffset r).
Proof.
  intros HI. unfold SpanInv in HI.
  set (p := length (heap r)).
  set (h1 := match top (spanStack r) with
             | Some q => alter (addChild p) q (heap r)
             | None => heap r
             end).
  set (h2 := match lastSpan r with
             | Some l => alter (setNext p) l h1
             | None => h1
             end).
  assert (L1 : length h1 = p).
  { unfold h1. destruct (top (spanStack r)); [apply length_alter | reflexivity]. }
  assert (L2 : length h2 = p).
  { unfold h2. destruct (lastSpan r); [rewrite length_alter|]; exact L1. }
  assert (S1 : forall i, startOf h2 i = startOf (heap r) i).
  { intros i. unfold h2, h1.
    destruct (lastSpan r); destruct (top (spanStack r));
      rewrite ?startOf_alter by reflexivity; reflexivity. }
  assert (E1 : forall i, endOf h2 i = endOf (heap r) i).
  { intros i. unfold h2, h1.
    destruct (lastSpan r); destruct (top (spanStack r));
      rewrite ?endOf_alter by reflexivity; reflexivity. }
  assert (P1 : forall i, parentOf h2 i = parentOf (heap r) i).
  { intros i. unfold h2, h1.
    destruct (lastSpan r); destruct (top (spanStack r));
      rewrite ?parentOf_alter by reflexivity; reflexivity. }
  assert (C1 : forall i, (i < p)%nat ->
             childrenOf h2 i = if decide (last (spanStack r) = Some i)
                               then childrenOf (heap r) i ++ [p]
                               else childrenOf (heap r) i).
  { intros i Hi.
    assert (E : childrenOf h2 i = childrenOf h1 i).
    { unfold h2. destruct (lastSpan r); [apply childrenOf_alter|]; reflexivity. }
    rewrite E. unfold h1, top.
    destruct (last (spanStack r)) as [q|].
    - rewrite childrenOf_addChild by exact Hi.
      destruct (decide (q = i)) as [->|Hne].
      + destruct (decide (Some i = Some i)); [reflexivity | contradiction].
      + destruct (decide (Some q = Some i)) as [Heq|]; [|reflexivity].
        inversion Heq. contradiction.
    - destruct (decide (None = Some i)); [discriminate | reflexivity]. }
  assert (A : forall (g : NodeSpan -> Z) i d, (i < p)%nat ->
             match (h2 ++ [{| Start := byteOffset r; End_ := 0; Node := n;
                              Parent := top (spanStack r); Next := None;
                              Prev := lastSpan r; Children := [] |}]) !! i with
             | Some s => g s | None => d end
             = match h2 !! i with Some s => g s | None => d end).
  { intros g i d Hi. rewrite lookup_app_l by lia. reflexivity. }
  unfold openedHeap. fold p. fold h1. fold h2.
  eapply (Inv_open (heap r) (spanStack r) (byteOffset r) _ p); try exact HI.
  - reflexivity.
  - rewrite length_app, L2. simpl. lia.
  - intros i Hi. unfold startOf. rewrite lookup_app_l by lia. apply S1.
  - unfold startOf. rewrite lookup_app_r by lia. rewrite L2, Nat.sub_diag. reflexivity.
  - intros i Hi. unfold endOf. rewrite lookup_app_l by lia. apply E1.
  - intros i Hi. unfold parentOf. rewrite lookup_app_l by lia. apply P1.
  - unfold parentOf. rewrite lookup_app_r by lia. rewrite L2, Nat.sub_diag. reflexivity.
  - intros i Hi. unfold childrenOf at 1. rewrite lookup_app_l by lia. apply C1. exact Hi.
  - unfold childrenOf. rewrite lookup_app_r by lia. rewrite L2, Nat.sub_diag. reflexivity.
Qed.

Lemma OpenSpan_Inv n r a r' :
  OpenSpan n r = Ok (a, r') -> SpanInv r ->
  SpanInv r' /\ spanStack r' = spanStack r ++ [length (heap r)].
Proof.
  intros H HI. apply OpenSpan_result in H as (Hh & Hs & Hb & _).
  split; [|exact Hs]. unfold SpanInv. rewrite Hh, Hs, Hb. apply openedHeap_Inv. exact HI.
Qed.

Lemma CloseSpan_result r a r' :
  CloseSpan r = Ok (a, r') ->
  exists p, spanStack r = spanStack r' ++ [p]
  /\ heap r' = alter (setEnd (byteOffset r)) p (heap r)
  /\ byteOffset r' = byteOffset r /\ inImage r' = inImage r /\ images r' = images r
  /\ theme r' = theme r /\ maxImageWidth r' = maxImageWidth r
  /\ contentRoot r' = contentRoot r.
Proof.
  unfold CloseSpan, top. intros H. destruct (last (spanStack r)) as [p|] eqn:E; [|discriminate].
  inversion H; subst; clear H. simpl. exists p.
  apply last_Some in E as [l' El]. rewrite El. unfold pop. rewrite removelast_last.
  repeat split; reflexivity.
Qed.

Lemma CloseSpan_Inv r a r' :
  CloseSpan r = Ok (a, r') -> SpanInv r ->
  SpanInv r' /\ exists p, spanStack r = spanStack r' ++ [p].
Proof.
  intros H HI. apply CloseSpan_result in H as (p & Hs & Hh & Hb & _).
  split; [|exists p; exact Hs].
  unfold SpanInv in *. rewrite Hs in HI. rewrite Hh, Hb.
  assert (Hp : (p < length (heap r))%nat).
  { apply (inv_valid _ _ _ HI). apply elem_of_app. right. apply list_elem_of_singleton.
    reflexivity. }
  eapply Inv_close; [| | | | |exact HI].
  - apply length_alter.
  - intros i. apply startOf_alter. reflexivity.
  - intros i. unfold endOf. destruct (decide (i = p)) as [->|Hne].
    + rewrite list_lookup_alter_eq.
      destruct (lookup_lt_is_Some_2 _ _ Hp) as [s Hs']. rewrite Hs'. reflexivity.
    + rewrite list_lookup_alter_ne by auto. reflexivity.
  - intros i. apply parentOf_alter. reflexivity.
  - intros i. apply childrenOf_alter. reflexivity.
Qed.

Lemma spanFrame_Inv r r' : spanFrame r r' -> SpanInv r -> SpanInv r'.
Proof.
  unfold spanFrame, SpanInv. intros (_ & _ & _ & _ & Hs & _ & _ & _ & Hh & Hb) HI.
  rewrite Hs, Hh. eapply Inv_grow; eauto.
Qed.

(** ** Frame properties of the rendering functions *)

Section RenderFrames.

Context (ext : Externals).

Lemma frames_PushPrefix p : frames spanFrame (PushPrefix p).
Proof. unfold PushPrefix. frames_tac. Qed.

Lemma frames_PushIndent n : frames spanFrame (PushIndent n).
Proof. unfold PushIndent, PushPrefix. frames_tac. Qed.

Lemma frames_PopPrefix : frames spanFrame PopPrefix.
Proof.
  intros r a r' H. unfold PopPrefix in H.
  destruct (top (prefixStack r)); [|discriminate].
  destruct (len (prefix r) <? len l); inversion H; subst. frame_fields.
Qed.

Hint Resolve frames_PushPrefix frames_PushIndent frames_PopPrefix : frames.

Lemma frames_writeSGR c : frames textFrame (writeSGR ext c).
Proof. unfold writeSGR. frames_tac. Qed.

Hint Resolve frames_writeSGR : frames.

Lemma frames_writeDelta base new : frames textFrame (writeDelta ext base new).
Proof. unfold writeDelta, writeColorSGR, writeTristateSGR. frames_tac. Qed.

Hint Resolve frames_writeDelta : frames.

Lemma frames_PushStyle t : frames spanFrame (PushStyle ext t).
Proof. unfold PushStyle. frames_tac. Qed.

Lemma frames_PopStyle : frames spanFrame (PopStyle ext).
Proof. unfold PopStyle. frames_tac. Qed.

Hint Resolve frames_PushStyle frames_PopStyle : frames.

Lemma frames_writeLines ls : frames spanFrame (writeLines ext ls).
Proof. unfold writeLines. frames_tac. Qed.

Lemma frames_writeCode l c : frames spanFrame (writeCode ext l c).
Proof. unfold writeCode, WriteString. frames_tac. Qed.

Hint Resolve frames_writeLines frames_writeCode : frames.

Lemma frames_writeCodeLines l ls : frames spanFrame (writeCodeLines ext l ls).
Proof. unfold writeCodeLines. frames_tac. Qed.

Lemma frames_imageChunks fuel : forall first data, frames spanFrame (imageChunks fuel first data).
Proof.
  induction fuel as [|fuel IH]; intros first data; simpl.
  - destruct data; frames_tac.
  - destruct data as [|b data]; [frames_tac|].
    repeat (apply frames_bind; [preorder | frames_tac | intros _]). apply IH.
Qed.

Hint Resolve frames_writeCodeLines frames_imageChunks : frames.

Lemma frames_renderImage d : frames spanFrame (renderImage ext d).
Proof. unfold renderImage. frames_tac. Qed.

Lemma frames_topListState : frames spanFrame topListState.
Proof.
  intros r a r' H. unfold topListState in H. destruct (top (listStack r)); inversion H; subst.
  apply spanFrame_refl.
Qed.

Lemma frames_topTableState : frames spanFrame topTableState.
Proof.
  intros r a r' H. unfold topTableState in H. destruct (top (tableStack r)); inversion H; subst.
  apply spanFrame_refl.
Qed.

Lemma frames_updateTableState f : frames spanFrame (updateTableState f).
Proof.
  intros r a r' H. unfold updateTableState in H.
  destruct (top (tableStack r)); inversion H; subst. frame_fields.
Qed.

Hint Resolve frames_renderImage frames_topListState frames_topTableState
  frames_updateTableState : frames.

Lemma frames_borderColumns widths : forall i join,
  frames spanFrame (borderColumns ext i widths join).
Proof.
  induction widths as [|w widths IH]; intros i join; simpl.
  - frames_tac.
  - repeat (apply frames_bind; [preorder | unfold WriteRune, WriteString; frames_tac | intros ?]).
    apply IH.
Qed.

Hint Resolve frames_borderColumns : frames.

Lemma frames_renderTableBorder l j r : frames spanFrame (renderTableBorder ext l j r).
Proof. unfold renderTableBorder, WriteRune, WriteByte. frames_tac. Qed.

Hint Resolve frames_renderTableBorder : frames.

Lemma frames_WriteByte c : frames textFrame (WriteByte ext c).
Proof. unfold WriteByte. frames_tac. Qed.

Lemma frames_markFresh : frames spanFrame markFresh.
Proof.
  intros r a r' H. unfold markFresh in H. destruct (top (openBlocks r)); inversion H; subst.
  frame_fields.
Qed.

Lemma frames_popOpenBlock : frames spanFrame popOpenBlock.
Proof.
  intros r a r' H. unfold popOpenBlock in H. destruct (openBlocks r); inversion H; subst.
  frame_fields.
Qed.

Lemma frames_popListState : frames spanFrame popListState.
Proof.
  intros r a r' H. unfold popListState in H. destruct (listStack r); inversion H; subst.
  frame_fields.
Qed.

Lemma frames_popTableState : frames spanFrame popTableState.
Proof.
  intros r a r' H. unfold popTableState in H. destruct (tableStack r); inversion H; subst.
  frame_fields.
Qed.

Lemma frames_renderHyperlink e : frames spanFrame (renderHyperlink ext e).
Proof. unfold renderHyperlink. frames_tac. Qed.

End RenderFrames.

#[export] Hint Resolve frames_PushPrefix frames_PushIndent frames_PopPrefix frames_writeSGR
  frames_writeDelta frames_PushStyle frames_PopStyle frames_writeLines frames_writeCode
  frames_writeCodeLines frames_imageChunks frames_renderImage frames_topListState
  frames_topTableState frames_updateTableState frames_borderColumns
  frames_renderTableBorder frames_WriteByte frames_renderHyperlink frames_markFresh
  frames_popOpenBlock frames_popListState frames_popTableState : frames.

(** ** Which rendering functions open and close a span *)

Lemma opens_OpenSpan n : opensSpan (OpenSpan n).
Proof.
  intros r a r' H. exists n, r, a, r'. auto using spanFrame_refl.
Qed.

Lemma closes_CloseSpan : closesSpan CloseSpan.
Proof.
  intros r a r' H. exists r, a, r'. auto using spanFrame_refl.
Qed.

Lemma opens_bind_r {A B} (m : M A) (f : A -> M B) :
  opensSpan m -> (forall a, frames spanFrame (f a)) -> opensSpan (bind m f).
Proof.
  intros Hm Hf r b r' H. apply bind_Ok in H as (a & r1 & H1 & H2).
  destruct (Hm _ _ _ H1) as (n & r0 & u & r0' & F1 & HO & F2).
  exists n, r0, u, r0'. split; [exact F1 | split; [exact HO|]].
  eapply spanFrame_trans; [exact F2 | eapply Hf; exact H2].
Qed.

Lemma opens_bind_l {A B} (m : M A) (f : A -> M B) :
  frames spanFrame m -> (forall a, opensSpan (f a)) -> opensSpan (bind m f).
Proof.
  intros Hm Hf r b r' H. apply bind_Ok in H as (a & r1 & H1 & H2).
  destruct (Hf _ _ _ _ H2) as (n & r0 & u & r0' & F1 & HO & F2).
  exists n, r0, u, r0'. split; [|split; [exact HO | exact F2]].
  eapply spanFrame_trans; [eapply Hm; exact H1 | exact F1].
Qed.

Lemma closes_bind_r {A B} (m : M A) (f : A -> M B) :
  closesSpan m -> (forall a, frames spanFrame (f a)) -> closesSpan (bind m f).
Proof.
  intros Hm Hf r b r' H. apply bind_Ok in H as (a & r1 & H1 & H2).
  destruct (Hm _ _ _ H1) as (r0 & u & r0' & F1 & HO & F2).
  exists r0, u, r0'. split; [exact F1 | split; [exact HO|]].
  eapply spanFrame_trans; [exact F2 | eapply Hf; exact H2].
Qed.

Lemma closes_bind_l {A B} (m : M A) (f : A -> M B) :
  frames spanFrame m -> (forall a, closesSpan (f a)) -> closesSpan (bind m f).
Proof.
  intros Hm Hf r b r' H. apply bind_Ok in H as (a & r1 & H1 & H2).
  destruct (Hf _ _ _ _ H2) as (r0 & u & r0' & F1 & HO & F2).
  exists r0, u, r0'. split; [|split; [exact HO | exact F2]].
  eapply spanFrame_trans; [eapply Hm; exact H1 | exact F1].
Qed.

Lemma noStop_bind {A} (m : M A) (f : A -> M ast.WalkStatus) :
  (forall a, noStop (f a)) -> noStop (bind m f).
Proof.
  intros Hf r b r' H. apply bind_Ok in H as (a & r1 & H1 & H2). eapply Hf; exact H2.
Qed.

Lemma noStop_ret s : s <> ast.WalkStop -> noStop (ret s).
Proof. intros Hs r a r' H. inversion H; subst. exact Hs. Qed.

Ltac nostop_tac :=
  lazymatch goal with
  | |- noStop (bind _ _) => apply noStop_bind; intros ?; nostop_tac
  | |- noStop (ret _) => apply noStop_ret; discriminate
  | |- noStop (if ?c then _ else _) => destruct c; nostop_tac
  | |- noStop (match ?c with _ => _ end) => destruct c; nostop_tac
  end.

Section SpanEvents.

Context (ext : Externals).

Lemma opens_OpenBlock ctx n : opensSpan (OpenBlock ext ctx n).
Proof.
  unfold OpenBlock. apply opens_bind_r; [apply opens_OpenSpan | intros _]. frames_tac.
Qed.

Lemma closes_CloseBlock : closesSpan (CloseBlock ext).
Proof.
  unfold CloseBlock. apply closes_bind_l; [frames_tac | intros r0].
  apply closes_bind_l; [frames_tac | intros _].
  apply closes_bind_l; [frames_tac | intros _; apply closes_CloseSpan].
Qed.

End SpanEvents.

(** Finds the one [OpenSpan] or [CloseSpan] of a rendering function and
    shows that everything before and after it is a frame. *)
Ltac span_tac ext :=
  lazymatch goal with
  | |- opensSpan (OpenSpan _) => apply opens_OpenSpan
  | |- opensSpan (OpenBlock _ _ _) => apply opens_OpenBlock
  | |- closesSpan CloseSpan => apply closes_CloseSpan
  | |- closesSpan (CloseBlock _) => apply closes_CloseBlock
  | |- opensSpan (bind _ _) =>
    first [ apply opens_bind_r; [span_tac ext | intros ?; frames_tac]
          | apply opens_bind_l; [frames_tac | intros ?; span_tac ext] ]
  | |- closesSpan (bind _ _) =>
    first [ apply closes_bind_r; [span_tac ext | intros ?; frames_tac]
          | apply closes_bind_l; [frames_tac | intros ?; span_tac ext] ]
  | |- opensSpan (if ?c then _ else _) => destruct c; span_tac ext
  | |- closesSpan (if ?c then _ else _) => destruct c; span_tac ext
  | |- opensSpan (match ?c with _ => _ end) => destruct c; span_tac ext
  | |- closesSpan (match ?c with _ => _ end) => destruct c; span_tac ext
  end.

Section Handlers.

Context (ext : Externals).

Ltac unfold_handlers :=
  unfold renderNode, RenderDocument, RenderHeading, RenderBlockquote, RenderCodeBlock,
    RenderFencedCodeBlock, RenderHTMLBlock, RenderLinkReferenceDefinition, RenderList,
    RenderListItem, RenderParagraph, RenderTextBlock, RenderThematicBreak, RenderTable,
    RenderTableHeader, RenderTableRow, RenderTableCell, RenderAutoLink, RenderCodeSpan,
    RenderEmphasis, RenderLink, renderLinkOrImage, RenderRawHTML, RenderText, RenderString,
    RenderWhitespace, WriteString, WriteRune, WriteByte;
  cbn [negb]; cbv beta iota.

Lemma renderNode_noStop ctx n measure enter : noStop (renderNode ext ctx n measure enter).
Proof.
  destruct n as [d blank ws cs]. unfold renderNode, ast.data.
  destruct d; destruct enter; unfold_handlers; unfold RenderImage; try nostop_tac.
Qed.

Lemma renderNode_opens ctx n measure :
  spanKind (ast.data n) = true -> opensSpan (renderNode ext ctx n measure true).
Proof.
  destruct n as [d blank ws cs]. unfold ast.data.
  destruct d; simpl; try discriminate; intros _; unfold renderNode, ast.data;
    unfold_handlers; span_tac ext.
Qed.

Lemma renderNode_closes ctx n measure :
  spanKind (ast.data n) = true -> closesSpan (renderNode ext ctx n measure false).
Proof.
  destruct n as [d blank ws cs]. unfold ast.data.
  destruct d; simpl; try discriminate; intros _; unfold renderNode, ast.data;
    unfold_handlers; span_tac ext.
Qed.

Lemma renderNode_flat ctx n measure enter :
  spanKind (ast.data n) = false -> isImage (ast.data n) = false ->
  frames spanFrame (renderNode ext ctx n measure enter).
Proof.
  destruct n as [d blank ws cs]. unfold ast.data.
  destruct d; simpl; try discriminate; intros _ _; unfold renderNode, ast.data;
    destruct enter; unfold_handlers; frames_tac.
Qed.

End Handlers.

(** ** The tree walk keeps the invariant and the span stack *)

Section Walk.

Context (ext : Externals).

Lemma walkHelper_eq ctx n :
  walkHelper ext ctx n =
  (let measure := fun cr => measureCells (walkHelper ext) cr (ast.children n) in
   let* status := renderNode ext ctx n measure true in
   if isStop status then ret status
   else
     let* stopped :=
       (if isSkipChildren status then ret false
        else walkChildren ext n true None (ast.children n)) in
     if stopped then ret ast.WalkStop
     else
       let* status := renderNode ext ctx n measure false in
       if isStop status then ret ast.WalkStop else ret ast.WalkContinue).
Proof. destruct n as [d blank ws cs]. reflexivity. Qed.

Lemma walked_refl r : SpanInv r -> inImage r = false -> walked r r.
Proof.
  intros HI Him. unfold walked. split; [exact HI|]. split; [reflexivity|].
  split; [exact Him|]. split; [reflexivity | lia].
Qed.

Lemma walked_trans r1 r2 r3 : walked r1 r2 -> walked r2 r3 -> walked r1 r3.
Proof.
  unfold walked. intros (A1 & A2 & A3 & A4 & A5) (B1 & B2 & B3 & B4 & B5).
  split; [exact B1|]. split; [congruence|]. split; [exact B3|]. split; [congruence | lia].
Qed.

Lemma spanFrame_fields r r' :
  spanFrame r r' ->
  spanStack r' = spanStack r /\ inImage r' = inImage r /\ images r' = images r
  /\ heap r' = heap r /\ byteOffset r <= byteOffset r'.
Proof. unfold spanFrame. intuition. Qed.

Lemma opened_walk r n r0 u r1 r' :
  spanFrame r r0 -> OpenSpan n r0 = Ok (u, r1) -> spanFrame r1 r' ->
  SpanInv r -> inImage r = false ->
  SpanInv r' /\ spanStack r' = spanStack r ++ [length (heap r)] /\ inImage r' = false
  /\ images r' = images r /\ byteOffset r <= byteOffset r'.
Proof.
  intros F1 HO F2 HI Him.
  pose proof (spanFrame_Inv _ _ F1 HI) as HI0.
  destruct (OpenSpan_Inv _ _ _ _ HO HI0) as [HI1 Hs1].
  pose proof (spanFrame_Inv _ _ F2 HI1) as HI'.
  apply OpenSpan_result in HO as (_ & _ & Hb & Hi & Hg & _).
  apply spanFrame_fields in F1 as (S1 & I1 & G1 & H1 & B1).
  apply spanFrame_fields in F2 as (S2 & I2 & G2 & H2 & B2).
  split; [exact HI'|]. split; [congruence|]. split; [congruence|].
  split; [congruence | lia].
Qed.

Lemma closed_walk r r0 u r1 r' :
  spanFrame r r0 -> CloseSpan r0 = Ok (u, r1) -> spanFrame r1 r' ->
  SpanInv r -> inImage r = false ->
  SpanInv r' /\ (exists p, spanStack r = spanStack r' ++ [p]) /\ inImage r' = false
  /\ images r' = images r /\ byteOffset r <= byteOffset r'.
Proof.
  intros F1 HC F2 HI Him.
  pose proof (spanFrame_Inv _ _ F1 HI) as HI0.
  destruct (CloseSpan_Inv _ _ _ HC HI0) as [HI1 [p Hs1]].
  pose proof (spanFrame_Inv _ _ F2 HI1) as HI'.
  apply CloseSpan_result in HC as (_ & _ & _ & Hb & Hi & Hg & _).
  apply spanFrame_fields in F1 as (S1 & I1 & G1 & H1 & B1).
  apply spanFrame_fields in F2 as (S2 & I2 & G2 & H2 & B2).
  split; [exact HI'|]. split; [exists p; congruence|].
  split; [congruence|]. split; [congruence | lia].
Qed.

Lemma RenderImage_enter n rt l d t r st r1 :
  RenderImage ext n rt l d t true r = Ok (st, r1) -> inImage r = false ->
  (st = ast.WalkSkipChildren /\ images r1 = true /\ inImage r1 = true
   /\ spanFrame r (set_inImage false r1))
  \/ (exists n0 r0 u r0', spanFrame r r0 /\ OpenSpan n0 r0 = Ok (u, r0') /\ spanFrame r0' r1).
Proof.
  intros H Him. unfold RenderImage in H.
  apply bind_Ok in H as (r' & r0 & Hget & H). inversion Hget; subst r' r0; clear Hget.
  assert (Hfb : opensSpan (renderLinkOrImage ext n (str "![") rt l d t true ;;
                           ret ast.WalkContinue)).
  { unfold renderLinkOrImage, WriteString. cbv beta iota. span_tac ext. }
  destruct (images r) eqn:Eim.
  - apply bind_Ok in H as (sent & r2 & Hsent & H).
    pose proof (frames_renderImage ext d _ _ _ Hsent) as F.
    destruct sent.
    + apply bind_Ok in H as (u & r3 & Hmod & H). inversion Hmod; subst; clear Hmod.
      inversion H; subst; clear H. left.
      split; [reflexivity|]. simpl.
      split; [apply spanFrame_fields in F; intuition congruence|].
      split; [reflexivity|].
      unfold spanFrame in *. simpl. intuition congruence.
    + right. destruct (Hfb _ _ _ H) as (n0 & r0 & u & r0' & F1 & HO & F2).
      exists n0, r0, u, r0'. split; [|split; [exact HO | exact F2]].
      eapply spanFrame_trans; [exact F | exact F1].
  - right. exact (Hfb _ _ _ H).
Qed.

Lemma RenderImage_exit n rt l d t r st r1 :
  RenderImage ext n rt l d t false r = Ok (st, r1) ->
  (images r = true /\ inImage r = true /\ r1 = set_inImage false r)
  \/ (images r && inImage r = false
      /\ exists r0 u r0', spanFrame r r0 /\ CloseSpan r0 = Ok (u, r0') /\ spanFrame r0' r1).
Proof.
  intros H. unfold RenderImage in H.
  apply bind_Ok in H as (r' & r0 & Hget & H). inversion Hget; subst r' r0; clear Hget.
  assert (Hfb : closesSpan (renderLinkOrImage ext n (str "![") rt l d t false ;;
                            ret ast.WalkContinue)).
  { unfold renderLinkOrImage, WriteString, WriteByte. cbv beta iota. span_tac ext. }
  destruct (images r) eqn:Eim; [destruct (inImage r) eqn:Ein|].
  - left. apply bind_Ok in H as (u & r3 & Hmod & H). inversion Hmod; subst; clear Hmod.
    inversion H; subst. auto.
  - right. split; [reflexivity|]. exact (Hfb _ _ _ H).
  - right. split; [reflexivity|]. exact (Hfb _ _ _ H).
Qed.

Lemma walkChildren_walked n cs :
  Forall (fun c => forall ctx r st r', walkHelper ext ctx c r = Ok (st, r') ->
                     SpanInv r -> inImage r = false ->
                     st <> ast.WalkStop /\ walked r r') cs ->
  forall first prev r b r',
    walkChildren ext n first prev cs r = Ok (b, r') ->
    SpanInv r -> inImage r = false -> b = false /\ walked r r'.
Proof.
  induction 1 as [|c cs Hc Hcs IH]; intros first prev r b r' H HI Him; simpl in H.
  - inversion H; subst. split; [reflexivity | apply walked_refl; assumption].
  - apply bind_Ok in H as (st & r1 & H1 & H).
    destruct (Hc _ _ _ _ H1 HI Him) as [Hst W1].
    destruct st; try contradiction; simpl in H.
    + destruct W1 as (HI1 & S1 & Him1 & G1 & B1).
      destruct (IH _ _ _ _ _ H HI1 Him1) as [Hb W2]. split; [exact Hb|].
      eapply walked_trans; [|exact W2]. unfold walked. auto.
    + destruct W1 as (HI1 & S1 & Him1 & G1 & B1).
      destruct (IH _ _ _ _ _ H HI1 Him1) as [Hb W2]. split; [exact Hb|].
      eapply walked_trans; [|exact W2]. unfold walked. auto.
Qed.

Lemma walkHelper_walked n :
  forall ctx r st r', walkHelper ext ctx n r = Ok (st, r') ->
    SpanInv r -> inImage r = false -> st <> ast.WalkStop /\ walked r r'.
Proof.
  induction n as [d blank ws cs IHcs] using ast_Node_ind.
  intros ctx r st r' H HI Him.
  rewrite walkHelper_eq in H. cbv zeta in H.
  set (n := ast.mkNode d blank ws cs) in *.
  set (measure := fun cr => measureCells (walkHelper ext) cr (ast.children n)) in *.
  apply bind_Ok in H as (status & r1 & Henter & H).
  pose proof (renderNode_noStop ext ctx n measure true _ _ _ Henter) as Hns.
  assert (Estop : isStop status = false) by (destruct status; try reflexivity; contradiction).
  rewrite Estop in H.
  apply bind_Ok in H as (stopped & r2 & Hkids & H).
  (* the children *)
  assert (Hchildren : forall r1, SpanInv r1 -> inImage r1 = false ->
            (if isSkipChildren status then ret false
             else walkChildren ext n true None (ast.children n)) r1 = Ok (stopped, r2) ->
            stopped = false /\ walked r1 r2).
  { intros r1' HI1 Him1 Hk. destruct (isSkipChildren status).
    - inversion Hk; subst. split; [reflexivity | apply walked_refl; assumption].
    - eapply walkChildren_walked; eauto. }
  (* the end of the walk, once the children are done *)
  assert (Hfinish : stopped = false ->
            exists status', renderNode ext ctx n measure false r2 = Ok (status', r')
                            /\ st <> ast.WalkStop).
  { intros ->. apply bind_Ok in H as (status' & r3 & Hexit & H).
    pose proof (renderNode_noStop ext ctx n measure false _ _ _ Hexit) as Hns'.
    destruct status'; try contradiction; simpl in H; inversion H; subst;
      eexists; (split; [exact Hexit | discriminate]). }
  destruct (spanKind d) eqn:Ek; [|destruct (isImage d) eqn:Ei].
  - (* the kind opens a span on entering and closes it on leaving *)
    destruct (renderNode_opens ext ctx n measure Ek _ _ _ Henter)
      as (n0 & r0 & u & r0' & F1 & HO & F2).
    destruct (opened_walk _ _ _ _ _ _ F1 HO F2 HI Him) as (HI1 & S1 & Him1 & G1 & B1).
    destruct (Hchildren r1 HI1 Him1 Hkids) as [Hstopped (HI2 & S2 & Him2 & G2 & B2)].
    destruct (Hfinish Hstopped) as (status' & Hexit & Hst).
    split; [exact Hst|].
    destruct (renderNode_closes ext ctx n measure Ek _ _ _ Hexit)
      as (q0 & u' & q0' & F3 & HC & F4).
    destruct (closed_walk _ _ _ _ _ F3 HC F4 HI2 Him2) as (HI3 & [p S3] & Him3 & G3 & B3).
    unfold walked. split; [exact HI3|]. split.
    + rewrite S2, S1 in S3. apply app_inj_tail in S3 as [S3 _]. symmetry. exact S3.
    + split; [exact Him3|]. split; [congruence | lia].
  - (* an image *)
    destruct d; try discriminate. unfold renderNode in Henter; simpl in Henter.
    destruct (RenderImage_enter _ _ _ _ _ _ _ _ Henter Him)
      as [(Hskip & G1 & Him1 & F1) | (n0 & r0 & u & r0' & F1 & HO & F2)].
    + (* the image was sent: the children are skipped *)
      subst status. simpl in Hkids. inversion Hkids; subst stopped r2; clear Hkids.
      apply bind_Ok in H as (status' & r3 & Hexit & H).
      pose proof (renderNode_noStop ext ctx n measure false _ _ _ Hexit) as Hns'.
      unfold renderNode in Hexit; simpl in Hexit.
      destruct (RenderImage_exit _ _ _ _ _ _ _ _ Hexit) as [(_ & _ & E) | (E & _)].
      * subst r3. split.
        { destruct status'; try contradiction; simpl in H; inversion H; discriminate. }
        assert (r' = set_inImage false r1).
        { destruct status'; try contradiction; simpl in H; inversion H; reflexivity. }
        subst r'. pose proof (spanFrame_Inv _ _ F1 HI) as HI'.
        apply spanFrame_fields in F1 as (S1 & I1 & G1' & H1 & B1). simpl in *.
        unfold walked. split; [exact HI'|]. simpl.
        split; [exact S1|]. split; [reflexivity|]. split; [exact G1' | exact B1].
      * rewrite G1, Him1 in E. discriminate.
    + (* the textual rendering *)
      destruct (opened_walk _ _ _ _ _ _ F1 HO F2 HI Him) as (HI1 & S1 & Him1 & G1 & B1).
      destruct (Hchildren r1 HI1 Him1 Hkids) as [Hstopped (HI2 & S2 & Him2 & G2 & B2)].
      destruct (Hfinish Hstopped) as (status' & Hexit & Hst).
      split; [exact Hst|].
      unfold renderNode in Hexit; simpl in Hexit.
      destruct (RenderImage_exit _ _ _ _ _ _ _ _ Hexit)
        as [(_ & E & _) | (_ & q0 & u' & q0' & F3 & HC & F4)].
      * rewrite Him2 in E. discriminate.
      * destruct (closed_walk _ _ _ _ _ F3 HC F4 HI2 Him2)
          as (HI3 & [p S3] & Him3 & G3 & B3).
        unfold walked. split; [exact HI3|]. split.
        -- rewrite S2, S1 in S3. apply app_inj_tail in S3 as [S3 _]. symmetry. exact S3.
        -- split; [exact Him3|]. split; [congruence | lia].
  - (* the kind has no span of its own *)
    pose proof (renderNode_flat ext ctx n measure true Ek Ei _ _ _ Henter) as F1.
    pose proof (spanFrame_Inv _ _ F1 HI) as HI1.
    apply spanFrame_fields in F1 as (S1 & I1 & G1 & H1 & B1).
    assert (Him1 : inImage r1 = false) by congruence.
    destruct (Hchildren r1 HI1 Him1 Hkids) as [Hstopped (HI2 & S2 & Him2 & G2 & B2)].
    destruct (Hfinish Hstopped) as (status' & Hexit & Hst).
    split; [exact Hst|].
    pose proof (renderNode_flat ext ctx n measure false Ek Ei _ _ _ Hexit) as F3.
    pose proof (spanFrame_Inv _ _ F3 HI2) as HI3.
    apply spanFrame_fields in F3 as (S3 & I3 & G3 & H3 & B3).
    unfold walked. split; [exact HI3|]. split; [congruence|]. split; [congruence|].
    split; [congruence | lia].
Qed.

End Walk.

(** ** The span tree of a completed render *)

Lemma inOrder_head st en lo c cs hi : inOrder st en lo (c :: cs) hi -> lo <= st c.
Proof. simpl. tauto. Qed.

Lemma inOrder_last st en lo cs hi c : inOrder st en lo cs hi -> last cs = Some c -> en c <= hi.
Proof.
  revert lo. induction cs as [|d cs IH]; intros lo H Hl; [discriminate|].
  destruct H as (_ & _ & H). destruct cs as [|e cs].
  - simpl in *. inversion Hl; subst. exact H.
  - rewrite last_cons_cons in Hl. eapply IH; eauto.
Qed.

Lemma inOrder_adjacent st en lo cs hi k c1 c2 :
  inOrder st en lo cs hi -> cs !! k = Some c1 -> cs !! S k = Some c2 -> en c1 <= st c2.
Proof.
  revert lo k. induction cs as [|d cs IH]; intros lo k H H1 H2; [discriminate|].
  destruct H as (_ & _ & H). destruct k as [|k].
  - simpl in H1. inversion H1; subst d. destruct cs as [|e cs]; [discriminate|].
    simpl in H2. inversion H2; subst e. simpl in H. tauto.
  - simpl in H1, H2. eapply IH; eauto.
Qed.

Lemma Render_walked ext r doc r' :
  Render ext r doc = Ok r' -> SpanInv r -> inImage r = false -> spanStack r = [] ->
  SpanInv r' /\ inImage r' = false /\ spanStack r' = [].
Proof.
  unfold Render. intros H HI Him Hs.
  destruct (walkHelper ext ast.rootContext doc (set_sink [] r)) as [[st r1]| |] eqn:E;
    inversion H; subst r1; clear H.
  apply walkHelper_walked in E as [_ (HI' & S' & Him' & _)]; [|exact HI | exact Him].
  simpl in S'. split; [exact HI'|]. split; [exact Him' | congruence].
Qed.

Lemma completed_Inv ext r : completed ext r -> SpanInv r /\ inImage r = false /\ spanStack r = [].
Proof.
  induction 1 as [th w hl im mw cr sb doc r' H | r doc r' _ IH H].
  - eapply Render_walked; [exact H | | reflexivity | reflexivity].
    unfold SpanInv. simpl. apply Inv_empty.
  - destruct IH as (HI & Him & Hs). eapply Render_walked; eauto.
Qed.

(** C3.  After every completed render, each span of the span tree has
    [Start <= End]; its children are spans of the tree; the first child starts
    at or after the start of the span, the last child ends at or before its
    end, and every child ends at or before the start of the next one. *)
Theorem span_containment (ext : Externals) (r : Renderer) (i : nat) (s : NodeSpan) :
  completed ext r -> heap r !! i = Some s ->
  Start s <= End_ s
  /\ (forall c, c ∈ Children s -> is_Some (heap r !! c))
  /\ (forall c sc, head (Children s) = Some c -> heap r !! c = Some sc -> Start s <= Start sc)
  /\ (forall c sc, last (Children s) = Some c -> heap r !! c = Some sc -> End_ sc <= End_ s)
  /\ (forall k c1 c2 s1 s2,
        Children s !! k = Some c1 -> Children s !! S k = Some c2 ->
        heap r !! c1 = Some s1 -> heap r !! c2 = Some s2 -> End_ s1 <= Start s2).
Proof.
  intros Hc Hs. destruct (completed_Inv ext r Hc) as (HI & _ & Hstk).
  unfold SpanInv in HI. rewrite Hstk in HI.
  assert (Hi : (i < length (heap r))%nat) by (eapply lookup_lt_Some; exact Hs).
  pose proof (Inv_contained _ _ i HI Hi) as Hord. unfold contained in Hord.
  assert (Est : startOf (heap r) i = Start s) by (unfold startOf; rewrite Hs; reflexivity).
  assert (Een : endOf (heap r) i = End_ s) by (unfold endOf; rewrite Hs; reflexivity).
  assert (Ech : childrenOf (heap r) i = Children s)
    by (unfold childrenOf; rewrite Hs; reflexivity).
  rewrite Est, Een, Ech in Hord.
  split; [eapply inOrder_le; exact Hord|].
  split.
  { intros c Hin. apply lookup_lt_is_Some_2.
    apply (inv_child _ _ _ HI i c Hi). rewrite Ech. exact Hin. }
  split.
  { intros c sc Hh Hc'. destruct (Children s) as [|c' cs]; [discriminate|].
    simpl in Hh. inversion Hh; subst c'. apply inOrder_head in Hord.
    unfold startOf in Hord. rewrite Hc' in Hord. exact Hord. }
  split.
  { intros c sc Hl Hc'. pose proof (inOrder_last _ _ _ _ _ c Hord Hl) as H.
    unfold endOf in H. rewrite Hc' in H. exact H. }
  intros k c1 c2 s1 s2 H1 H2 L1 L2.
  pose proof (inOrder_adjacent _ _ _ _ _ k c1 c2 Hord H1 H2) as H.
  unfold startOf, endOf in H. rewrite L1, L2 in H. exact H.
Qed.

(** The theorem at the paragraph span of scenario 2, rendered with wrap
    width 10. *)
Lemma span_containment_witness :
  exists r s,
    Render stdExt (plain 10) scenario2 = Ok r /\ heap r !! 1%nat = Some s
    /\ Children s = [2%nat] /\ Start s <= End_ s.
Proof.
  eexists. eexists.
  split; [vm_compute; reflexivity|].
  split; [vm_compute; reflexivity|].
  split; [reflexivity|].
  refine (proj1 (span_containment stdExt _ 1%nat _ _ _)).
  - eapply (completed_first stdExt None 10 false false 0 [] false scenario2).
    vm_compute. reflexivity.
  - vm_compute. reflexivity.
Defined.

(** * The line writer *)

Section LineWriter.

Context (ext : Externals).

Lemma chunks_line (line : bytes) :
  newline ∉ line -> line <> [] -> chunks line = [(line, false)].
Proof.
  induction line as [|c line IH]; intros Hnl Hne; [contradiction|].
  simpl. destruct (Byte.eqb c newline) eqn:E.
  - apply Byte.byte_dec_bl in E. subst c. exfalso. apply Hnl. apply elem_of_cons. auto.
  - destruct line as [|d line]; [reflexivity|].
    rewrite IH; [reflexivity | | discriminate].
    intros H. apply Hnl. apply elem_of_cons. auto.
Qed.

(** [write] on content without a newline: the content is written after
    [pre], which is the line prefix when the content has a width and nothing
    otherwise. *)
Lemma write_line (r : Renderer) (line : bytes) :
  newline ∉ line ->
  exists r',
    write ext line r = Ok (len line, r')
    /\ sink r' = sink r ++ (if measureText ext line =? 0 then [] else linePrefix r) ++ line
    /\ atNewline r' = atNewline r && (measureText ext line =? 0)
    /\ prefix r' = prefix r /\ wordWrap r' = wordWrap r.
Proof.
  intros Hnl. destruct line as [|c line'] eqn:El.
  - exists r. unfold write. simpl. rewrite app_nil_r. repeat split.
    destruct (atNewline r); reflexivity.
  - rewrite <- El in *. assert (Hne : line <> []) by (rewrite El; discriminate).
    unfold write. rewrite (chunks_line line Hnl Hne). simpl.
    unfold writeChunk, linePrefix, bind, get, when, wWrite, modify, ret, beginLine.
    destruct (atNewline r) eqn:Ea; destruct (measureText ext line =? 0) eqn:Em; simpl;
      [ | destruct (isContinuation r) eqn:Ec; simpl;
          [ | destruct (len (prefix r) =? 0) eqn:Ep; simpl;
              [ | destruct (match last (prefix r) with
                            | Some c0 => Byte.eqb c0 newline
                            | None => false
                            end); simpl ] ] | | ];
      (eexists; split; [rewrite Z.add_0_l; reflexivity|]);
      simpl; rewrite ?Ea, ?Em; simpl; rewrite ?Ea, ?Em; simpl;
      rewrite <- ?app_assoc; repeat split.
Qed.

Lemma noNewline_spec (b : bytes) : noNewline b = true -> newline ∉ b.
Proof.
  induction b as [|c b IH]; simpl; intros H Hin; [inversion Hin|].
  apply andb_true_iff in H as [Hc Hb]. apply elem_of_cons in Hin as [Hin|Hin].
  - subst c. rewrite (Byte.byte_dec_lb (eq_refl newline)) in Hc. discriminate.
  - exact (IH Hb Hin).
Qed.

Lemma noNewline_app (a b : bytes) : noNewline (a ++ b) = noNewline a && noNewline b.
Proof. unfold noNewline. apply forallb_app. Qed.

Lemma noNewline_In (b : bytes) : noNewline b = true -> ~ In newline b.
Proof. intros H Hin. apply (noNewline_spec b H). apply list_elem_of_In. exact Hin. Qed.

Lemma Repeat_space_noNewline count pad : Repeat [space] count = Ok pad -> noNewline pad = true.
Proof.
  unfold Repeat. destruct (count <? 0); [discriminate|]. intros H. inversion H; subst; clear H.
  induction (Z.to_nat count) as [|n IH]; [reflexivity|]. simpl. exact IH.
Qed.

(** [write] of a lone newline when the wrap width is positive: padding made
    of spaces, then the newline. *)
Lemma write_newline (r : Renderer) :
  0 < wordWrap r ->
  exists r' pad,
    write ext [newline] r = Ok (0, r')
    /\ sink r' = sink r ++ pad ++ [newline] /\ noNewline pad = true
    /\ atNewline r' = true /\ prefix r' = prefix r /\ wordWrap r' = wordWrap r.
Proof.
  intros Hw. unfold write. simpl.
  unfold writeChunk, bind, get, when, wWrite, modify, ret, lift, raise.
  replace (measureText ext []) with 0 by reflexivity.
  rewrite andb_false_r. simpl. rewrite Z.add_0_r, app_nil_r.
  destruct (Z.ltb_spec (wordWrap r - lineWidth r) 0) as [E1|E1].
  - destruct (Z.eqb_spec (wordWrap r) 0) as [E0|E0]; [lia|].
    assert (Hc : 0 <= wordWrap r - Z.rem (- (wordWrap r - lineWidth r)) (wordWrap r)).
    { pose proof (Z.rem_bound_pos (- (wordWrap r - lineWidth r)) (wordWrap r)). lia. }
    destruct (Repeat [space] (wordWrap r - Z.rem (- (wordWrap r - lineWidth r)) (wordWrap r)))
      as [pad| |] eqn:ER;
      [|unfold Repeat in ER; destruct (Z.ltb_spec
          (wordWrap r - Z.rem (- (wordWrap r - lineWidth r)) (wordWrap r)) 0);
          [lia|discriminate ER]..].
    simpl. rewrite !orb_true_r. simpl.
    eexists. exists pad. split; [reflexivity|]. simpl.
    split; [rewrite <- app_assoc; reflexivity|].
    split; [exact (Repeat_space_noNewline _ _ ER)|]. tauto.
  - destruct (Z.ltb_spec 0 (wordWrap r - lineWidth r)) as [E2|E2].
    + destruct (Repeat [space] (wordWrap r - lineWidth r)) as [pad| |] eqn:ER;
        [|unfold Repeat in ER; destruct (Z.ltb_spec (wordWrap r - lineWidth r) 0);
            [lia|discriminate ER]..].
      simpl. rewrite !orb_true_r. simpl.
      eexists. exists pad. split; [reflexivity|]. simpl.
      split; [rewrite <- app_assoc; reflexivity|].
      split; [exact (Repeat_space_noNewline _ _ ER)|]. tauto.
    + simpl. rewrite !orb_true_r. simpl.
      eexists. exists []. split; [reflexivity|]. simpl.
      split; [reflexivity|]. tauto.
Qed.

End LineWriter.

Lemma flushWordBuffer_rule (ext : Externals) (r : Renderer) :
  0 < wordWrap r -> noNewline (wordBuffer r) = true -> noNewline (prefix r) = true ->
  exists r' out,
    flushWordBuffer ext r = Ok (tt, r') /\ sink r' = sink r ++ out
    /\ (In newline out <-> wrapsBefore ext r).
Proof.
  intros Hw Hbuf Hpre. unfold flushWordBuffer, wrapsBefore, bind, get, when.
  destruct ((0 <? lineWidth r) && (wordWrap r <=? lineWidth r + measureText ext (wordBuffer r)))
    eqn:Ec.
  - apply andb_true_iff in Ec as [E1 E2]. apply Z.ltb_lt in E1. apply Z.leb_le in E2.
    destruct (write_newline ext r Hw) as (r1 & pad & Hw1 & Hs1 & Hpad & Ha1 & Hp1 & Hww1).
    rewrite Hw1. unfold modify at 1.
    destruct (write_line ext (set_byteOffset (byteOffset r1 + 1) r1) (wordBuffer r)
                (noNewline_spec _ Hbuf)) as (r3 & Hw3 & Hs3 & _).
    rewrite Hw3. unfold modify.
    eexists. eexists. split; [reflexivity|].
    split; [simpl; rewrite Hs3; simpl; rewrite Hs1, <- !app_assoc; reflexivity|].
    split; [intros _; split; assumption|]. intros _.
    apply in_or_app. right. left. reflexivity.
  - unfold ret.
    destruct (write_line ext r (wordBuffer r) (noNewline_spec _ Hbuf)) as (r3 & Hw3 & Hs3 & _).
    rewrite Hw3. unfold modify.
    eexists. eexists. split; [reflexivity|].
    split; [simpl; exact Hs3|].
    split.
    + intros Hin. exfalso. apply in_app_or in Hin as [Hin|Hin].
      * destruct (measureText ext (wordBuffer r) =? 0); [inversion Hin|].
        unfold linePrefix in Hin.
        destruct (atNewline r && negb (isContinuation r)); [|inversion Hin].
        exact (noNewline_In _ Hpre Hin).
      * exact (noNewline_In _ Hbuf Hin).
    + intros [E1 E2]. apply andb_false_iff in Ec as [Ec|Ec].
      * apply Z.ltb_ge in Ec. lia.
      * apply Z.leb_gt in Ec. lia.
Qed.

(** C2, as amended.  Scenario 2 rendered with wrap width 10: every line of
    the output has at most 10 columns, and the words of the lines, taken in
    order, are the words of the input (no word is split over two lines).
    In general, when the wrap width is positive, [flushWordBuffer] writes a
    newline before the buffered word exactly when the current line is not
    empty and its width plus the width of the word reaches the wrap width. *)
Theorem wrap_scenario_and_flush_rule :
  (exists r, Render stdExt (plain 10) scenario2 = Ok r
     /\ Forall (fun line => measureText stdExt line <= 10) (outputLines (sink r))
     /\ concat (map words (outputLines (sink r))) = words (str scenario2Text))
  /\ (forall (ext : Externals) (r : Renderer),
        0 < wordWrap r -> noNewline (wordBuffer r) = true -> noNewline (prefix r) = true ->
        exists r' out,
          flushWordBuffer ext r = Ok (tt, r') /\ sink r' = sink r ++ out
          /\ (In newline out <-> wrapsBefore ext r)).
Proof.
  split.
  - eexists. split; [vm_compute; reflexivity|]. split.
    + vm_compute. repeat constructor; discriminate.
    + vm_compute. reflexivity.
  - exact flushWordBuffer_rule.
Qed.

(** The rule at a renderer whose line holds 6 columns and whose word buffer
    holds a word of 6 columns. *)
Lemma wrap_scenario_and_flush_rule_witness :
  exists r' out,
    flushWordBuffer stdExt
      (set_lineWidth 6 (set_wordBuffer (str "world,") (set_wrapping [true; true] (plain 10))))
    = Ok (tt, r')
    /\ sink r' = out /\ In newline out.
Proof.
  destruct (proj2 wrap_scenario_and_flush_rule stdExt
              (set_lineWidth 6 (set_wordBuffer (str "world,")
                 (set_wrapping [true; true] (plain 10)))))
    as (r' & out & Hf & Hs & Hiff).
  - simpl. lia.
  - reflexivity.
  - reflexivity.
  - exists r', out. split; [exact Hf|]. split; [exact Hs|].
    apply Hiff. unfold wrapsBefore. simpl. split; [lia|]. vm_compute. discriminate.
Defined.

(** The claim C2 as it is stated fails at the start of a line.  The word
    buffer holds a word of 12 columns, the line is empty, the wrap width is
    10: the widths reach the wrap width, and the word is written with no
    newline before it. *)
Lemma flush_at_line_start_counterexample :
  wordWrap longWordAtLineStart
    <= lineWidth longWordAtLineStart + measureText stdExt (wordBuffer longWordAtLineStart)
  /\ exists r', flushWordBuffer stdExt longWordAtLineStart = Ok (tt, r')
                /\ sink r' = str "abcdefghijkl".
Proof.
  split; [vm_compute; discriminate|].
  eexists. split; vm_compute; reflexivity.
Qed.

(** C6, as amended.  [write] on content that has a width and no newline:
    in the middle of a line the content is written as it is; at the start of
    a line the line prefix is written once before it, unless the innermost
    open block is a paragraph that has written something already, in which
    case nothing is written before the content (neither a prefix of its own
    nor the indent or quote prefix of the enclosing blocks).  The renderer
    is in the middle of a line afterwards. *)
Theorem write_prefix_rule (ext : Externals) (r : Renderer) (line : bytes) :
  noNewline line = true -> measureText ext line <> 0 ->
  exists r',
    write ext line r = Ok (len line, r')
    /\ atNewline r' = false
    /\ (atNewline r = false -> sink r' = sink r ++ line)
    /\ (atNewline r = true -> isContinuation r = false -> sink r' = sink r ++ prefix r ++ line)
    /\ (atNewline r = true -> isContinuation r = true -> sink r' = sink r ++ line).
Proof.
  intros Hnl Hm.
  destruct (write_line ext r line (noNewline_spec line Hnl)) as (r' & Hw & Hs & Ha & _).
  destruct (Z.eqb_spec (measureText ext line) 0) as [E|E]; [contradiction|].
  exists r'. split; [exact Hw|]. split; [rewrite Ha; apply andb_false_r|].
  unfold linePrefix in Hs.
  split; [intros E1; rewrite E1 in Hs; exact Hs|].
  split; intros E1 E2; rewrite E1, E2 in Hs; exact Hs.
Qed.

(** The rule at the first line of a paragraph inside a block quote. *)
Lemma write_prefix_rule_witness :
  exists r', write stdExt (str "aaaa") freshQuotedLine = Ok (4, r')
             /\ sink r' = str "> aaaa".
Proof.
  destruct (write_prefix_rule stdExt freshQuotedLine (str "aaaa")) as (r' & Hw & _ & _ & Hs & _).
  - reflexivity.
  - vm_compute. discriminate.
  - exists r'. split; [exact Hw|]. apply Hs; reflexivity.
Defined.

(** The claim C6 as it is stated fails for a wrapped paragraph inside a
    block quote: the second line of the output has content and does not
    start with the quote prefix. *)
Lemma quoted_continuation_counterexample :
  exists r, Render stdExt (plain 10) quoted = Ok r
    /\ outputLines (sink r) = [str "> aaaa    "; str "bbbb cccc "]
    /\ ~ everyLineStartsWith (str "> ") (sink r).
Proof.
  eexists. split; [vm_compute; reflexivity|]. split; [vm_compute; reflexivity|].
  intros H. specialize (H (str "bbbb cccc ")).
  assert (F : false = true); [|discriminate].
  apply H; [|reflexivity]. vm_compute. right. left. reflexivity.
Qed.

(** * The worked scenarios and the failing inputs *)

(** Conjunctions of closed equations, settled by evaluation one after the
    other (an earlier one fixes the state a later one talks about). *)
Ltac evaluate :=
  lazymatch goal with
  | |- _ /\ _ => split; [vm_compute; reflexivity | evaluate]
  | |- _ => vm_compute; reflexivity
  end.

(** C1 (the code fails the claim).  With no theme and wrap width 0 the render
    of scenario 1 does not reach the end: the newline that ends the heading
    line makes [write] compute [-remaining % r.wordWrap] with [r.wordWrap = 0],
    and the render panics with an integer division by zero instead of writing
    the input back. *)
Theorem scenario1_no_wrap_panics :
  Render stdExt (plain 0) scenario1 = Panic DivideByZero.
Proof. vm_compute. reflexivity. Qed.

(** The same newline written by [write] alone, after one byte of content. *)
Lemma write_newline_no_wrap_panics :
  (write stdExt (str "a") ;; write stdExt [newline]) (plain 0) = Panic DivideByZero.
Proof. vm_compute. reflexivity. Qed.

(** C5 (the code fails the claim).  The measuring pass of scenario 3 finds
    the cell widths 1, 2, 3, 1 and from them the column widths 3 and 2, as
    the claim says; the render itself, with no wrap width, panics at the
    newline of the top border (the division by zero of C1) and writes no
    table. *)
Theorem scenario3_measured_then_panics :
  measureCells (walkHelper stdExt) (cellRenderer (plain 0)) (ast.children scenario3Table)
  = Ok [[1; 2]; [3; 1]]
  /\ measureRows [] [] [[1; 2]; [3; 1]] = ([3; 2], [1; 2; 3; 1])
  /\ Render stdExt (plain 0) scenario3 = Panic DivideByZero.
Proof. evaluate. Qed.

(** With a wrap width that the table fits in (12 columns) the five lines are
    written, each padded to the wrap width. *)
Lemma scenario3_at_width_12 :
  exists r, Render stdExt (plain 12) scenario3 = Ok r
  /\ outputLines (sink r)
     = [ borders.topLeft ++ concat (repeat borders.horizontal 3) ++ borders.topJoin
           ++ concat (repeat borders.horizontal 2) ++ borders.topRight ++ str "    ";
         borders.vertical ++ str "a  " ++ borders.vertical ++ str "bb" ++ borders.vertical
           ++ str "    ";
         borders.middleLeft ++ concat (repeat borders.horizontal 3) ++ borders.middleJoin
           ++ concat (repeat borders.horizontal 2) ++ borders.middleRight ++ str "    ";
         borders.vertical ++ str "ccc" ++ borders.vertical ++ str "d " ++ borders.vertical
           ++ str "    ";
         borders.bottomLeft ++ concat (repeat borders.horizontal 3) ++ borders.bottomJoin
           ++ concat (repeat borders.horizontal 2) ++ borders.bottomRight ++ str "    " ].
Proof. eexists. evaluate. Qed.

(** C7 (the code fails the claim).  The heading ["# T"] rendered with wrap
    width 3 (so that no padding is written): four bytes reach the writer, and
    the byte offset counter ends at 3, because [write] does not count the
    newline it writes in the number it returns. *)
Theorem byteOffset_misses_newline :
  exists r, Render stdExt (plain 3) headingT = Ok r
  /\ sink r = str "# T" ++ [newline]
  /\ len (sink r) = 4
  /\ byteOffset r = 3.
Proof. eexists. evaluate. Qed.

(** The padding written before a newline is not counted either: the same
    heading with wrap width 80. *)
Lemma byteOffset_misses_padding :
  exists r, Render stdExt (plain 80) headingT = Ok r
  /\ len (sink r) = 81 /\ byteOffset r = 3.
Proof. eexists. evaluate. Qed.

(** C8 (the code fails the claim).  The same heading rendered twice with one
    renderer: the bytes written are the same, the root span of the first
    render is [0, 3), that of the second render is [3, 6) and is linked after
    the last span of the first render.  [RenderDocument] does not reset
    [byteOffset] and [lastSpan]. *)
Theorem second_render_shifts_spans :
  exists r1 r2 s1 s2,
    Render stdExt (plain 3) headingT = Ok r1
    /\ Render stdExt r1 headingT = Ok r2
    /\ sink r2 = sink r1
    /\ SpanTree r1 = Some s1 /\ SpanTree r2 = Some s2
    /\ (Start s1, End_ s1, Prev s1) = (0, 3, None)
    /\ (Start s2, End_ s2, Prev s2) = (3, 6, Some 2%nat).
Proof. do 4 eexists. evaluate. Qed.

Theorem shouldPadCodeSpan_last_segment :
  shouldPadCodeSpan (ast.children codeSpanTwoLines) = Ok false
  /\ last (str "a" ++ [newline] ++ str "b`") = Some backtick
  /\ exists st r, RenderCodeSpan stdExt codeSpanTwoLines 2 true (plain 3) = Ok (st, r)
                  /\ sink r = str "``a" ++ [newline] ++ str "b```".
Proof.
  split; [vm_compute; reflexivity|]. split; [vm_compute; reflexivity|].
  do 2 eexists. evaluate.
Qed.

(** For a content held in one Text child the rule of the claim is the one
    computed. *)
Lemma shouldPadCodeSpan_one_segment (content : bytes) :
  shouldPadCodeSpan [ast.mkNode (ast.Text content false false) false [] []]
  = Ok (negb (FirstNonSpacePosition content =? -1)
        && (match content with
            | c :: _ => Byte.eqb c backtick || Byte.eqb c space
            | [] => false
            end
            || match last content with
               | Some c => Byte.eqb c backtick || Byte.eqb c space
               | None => false
               end)).
Proof.
  unfold shouldPadCodeSpan, textSegment. simpl.
  destruct (FirstNonSpacePosition content =? -1) eqn:E; simpl; [reflexivity|].
  destruct content as [|c content]; [reflexivity|].
  destruct (last (c :: content)) as [l|] eqn:El.
  - f_equal. destruct (Byte.eqb c backtick), (Byte.eqb c space), (Byte.eqb l backtick),
      (Byte.eqb l space); reflexivity.
  - apply last_None in El. discriminate.
Qed.

(** * The decoder of the graphics protocol *)

Lemma positiveIntegerLoop_digit fuel c b val any :
  (b2z c <? 48) || (57 <? b2z c) = false ->
  kitty.positiveIntegerLoop fuel (c :: b) val any = Diverges.
Proof.
  intros Hc. revert val any. induction fuel as [|fuel IH]; intros val any; simpl; rewrite Hc.
  - reflexivity.
  - apply IH.
Qed.

(** C9 (the code fails the claim).  On the first frame of the encoder
    [DecodeCommand] does not return, whatever fuel the loop of
    [positiveIntegerDecoder] is given: the loop never advances in the value
    of the [f] key.  On a frame with an unknown key it calls a nil decoder
    and panics. *)
Theorem DecodeCommand_diverges_or_panics (base64Decode : bytes -> option bytes) (fuel : nat)
    (c : kitty.Command) :
  kitty.DecodeCommand base64Decode fuel c firstFrame = Diverges
  /\ kitty.DecodeCommand base64Decode fuel c unknownKeyFrame = Panics NilFunctionCall.
Proof.
  split.
  - unfold kitty.DecodeCommand, firstFrame. simpl.
    unfold kitty.decodeValue, kitty.positiveIntegerDecoder. simpl.
    rewrite positiveIntegerLoop_digit by reflexivity. reflexivity.
  - reflexivity.
Qed.

(** A value of several digits is cut to its first byte before it is
    decoded: [v] is resliced to [v[:1]]. *)
Lemma valueExtent_first_byte :
  kitty.valueExtent (str "100,a=T") (str "100,a=T") [] 0 = (str "1", str "a=T", 4).
Proof. reflexivity. Qed.

(** * The style stack *)

Section StyleStack.

Context (ext : Externals).

Lemma bind_ret_l {A B} (a : A) (f : A -> M B) r : bind (ret a) f r = f a r.
Proof. reflexivity. Qed.

Lemma bind_ret_r {A} (m : M A) r : bind m (fun a => ret a) r = m r.
Proof. unfold bind, ret. destruct (m r) as [[a r']| |]; reflexivity. Qed.

Lemma bind_unit_ret (m : M unit) r : bind m (fun _ => ret tt) r = m r.
Proof. unfold bind, ret. destruct (m r) as [[[] r']| |]; reflexivity. Qed.

Lemma forEach_app {A} (l1 l2 : list A) (f : A -> M unit) r :
  forEach (l1 ++ l2) f r = bind (forEach l1 f) (fun _ => forEach l2 f) r.
Proof.
  revert r. induction l1 as [|x l1 IH]; intros r; simpl; [reflexivity|].
  unfold bind. destruct (f x r) as [[u r1]| |]; [|reflexivity|reflexivity].
  rewrite IH. reflexivity.
Qed.

Lemma forEach_when (c : bool) (x : bytes) (f : bytes -> M unit) r :
  forEach (if c then [x] else []) f r = when c (f x) r.
Proof. destruct c; simpl; [apply bind_unit_ret | reflexivity]. Qed.

Lemma bind_congr {A B} (m m' : M A) (f f' : A -> M B) r :
  m r = m' r -> (forall a r1, f a r1 = f' a r1) -> bind m f r = bind m' f' r.
Proof.
  intros Hm Hf. unfold bind. rewrite Hm. destruct (m' r) as [[a r1]| |]; auto.
Qed.

Lemma writeTristateSGR_command off on v r :
  writeTristateSGR ext off on v r = writeSGR ext (tristateCommand off on v) r.
Proof. destruct v; reflexivity. Qed.

(** [writeDelta] writes the commands of [deltaCommands], in order. *)
Lemma writeDelta_commands base new r :
  writeDelta ext base new r = forEach (deltaCommands base new) (writeSGR ext) r.
Proof.
  unfold writeDelta, deltaCommands. destruct (chroma.IsZero new).
  - simpl. symmetry. apply bind_unit_ret.
  - rewrite forEach_app. apply bind_congr; [symmetry; apply forEach_when|]. intros _ r1.
    rewrite forEach_app. apply bind_congr; [symmetry; apply forEach_when|]. intros _ r2.
    rewrite forEach_app. apply bind_congr.
    { rewrite forEach_when. destruct (_ || _); simpl; [apply writeTristateSGR_command|].
      reflexivity. }
    intros _ r3.
    rewrite forEach_app. apply bind_congr.
    { rewrite forEach_when. destruct (_ || _); simpl; [apply writeTristateSGR_command|].
      reflexivity. }
    intros _ r4.
    rewrite forEach_when. destruct (_ || _); simpl; [apply writeTristateSGR_command|].
    reflexivity.
Qed.

End StyleStack.

Section StyleRoundTrip.

Context (ext : Externals).

Lemma runSGR_app l1 l2 t : runSGR (l1 ++ l2) t = runSGR l2 (runSGR l1 t).
Proof. apply fold_left_app. Qed.

Lemma runSGR_if (c : bool) x t :
  runSGR (if c then [x] else []) t = if c then applySGR x t else t.
Proof. destruct c; reflexivity. Qed.

Lemma applySGR_background rest t :
  applySGR (str "48;2;" ++ rest) t
  = {| foreground := foreground t; background := Some rest; bold := bold t;
       underline := underline t; italic := italic t |}.
Proof. reflexivity. Qed.

Lemma applySGR_foreground rest t :
  applySGR (str "38;2;" ++ rest) t
  = {| foreground := Some rest; background := background t; bold := bold t;
       underline := underline t; italic := italic t |}.
Proof. reflexivity. Qed.

Lemma colorCommand_48 c : colorCommand (str "48") c = str "48;2;" ++ rgbText c.
Proof. reflexivity. Qed.

Lemma colorCommand_38 c : colorCommand (str "38") c = str "38;2;" ++ rgbText c.
Proof. reflexivity. Qed.

Lemma applySGR_bold v t :
  applySGR (tristateCommand (str "22") (str "1") v) t
  = {| foreground := foreground t; background := background t; bold := isYes v;
       underline := underline t; italic := italic t |}.
Proof. destruct v; reflexivity. Qed.

Lemma applySGR_underline v t :
  applySGR (tristateCommand (str "24") (str "4") v) t
  = {| foreground := foreground t; background := background t; bold := bold t;
       underline := isYes v; italic := italic t |}.
Proof. destruct v; reflexivity. Qed.

Lemma applySGR_italic v t :
  applySGR (tristateCommand (str "23") (str "3") v) t
  = {| foreground := foreground t; background := background t; bold := bold t;
       underline := underline t; italic := isYes v |}.
Proof. destruct v; reflexivity. Qed.

(** The attributes after the commands of a delta towards a style that is
    not the zero style, field by field. *)
Lemma delta_fields base new t :
  chroma.IsZero new = false ->
  let t' := runSGR (deltaCommands base new) t in
  background t'
    = (if chroma.IsSet (chroma.Background new)
          && (chroma.IsZero base
              || negb (chroma.Background new =? chroma.Background base))
       then Some (rgbText (chroma.Background new)) else background t)
  /\ foreground t'
    = (if chroma.IsSet (chroma.Colour_ new)
          && (chroma.IsZero base || negb (chroma.Colour_ new =? chroma.Colour_ base))
       then Some (rgbText (chroma.Colour_ new)) else foreground t)
  /\ bold t'
    = (if chroma.IsZero base
          || negb (chroma.Trilean_eqb (chroma.Bold new) (chroma.Bold base))
       then isYes (chroma.Bold new) else bold t)
  /\ underline t'
    = (if chroma.IsZero base
          || negb (chroma.Trilean_eqb (chroma.Underline new) (chroma.Underline base))
       then isYes (chroma.Underline new) else underline t)
  /\ italic t'
    = (if chroma.IsZero base
          || negb (chroma.Trilean_eqb (chroma.Italic new) (chroma.Italic base))
       then isYes (chroma.Italic new) else italic t).
Proof.
  intros Hz t'. subst t'. unfold deltaCommands. rewrite Hz.
  rewrite !runSGR_app, !runSGR_if, colorCommand_48, colorCommand_38.
  destruct (chroma.IsSet (chroma.Background new) && _);
    destruct (chroma.IsSet (chroma.Colour_ new) && _);
    destruct (chroma.IsZero base || negb (chroma.Trilean_eqb (chroma.Bold new) _));
    destruct (chroma.IsZero base || negb (chroma.Trilean_eqb (chroma.Underline new) _));
    destruct (chroma.IsZero base || negb (chroma.Trilean_eqb (chroma.Italic new) _));
    rewrite ?applySGR_italic, ?applySGR_underline, ?applySGR_bold,
      ?applySGR_foreground, ?applySGR_background; simpl; repeat split; reflexivity.
Qed.

Lemma delta_to_zero base new t :
  chroma.IsZero new = true -> runSGR (deltaCommands base new) t = defaultTerminal.
Proof. intros Hz. unfold deltaCommands. rewrite Hz. reflexivity. Qed.

Lemma Terminal_ext (t u : Terminal) :
  background t = background u -> foreground t = foreground u -> bold t = bold u ->
  underline t = underline u -> italic t = italic u -> t = u.
Proof. destruct t, u; simpl; intros; subst; reflexivity. Qed.

Lemma Trilean_eqb_eq a b : chroma.Trilean_eqb a b = true <-> a = b.
Proof. destruct a, b; simpl; split; intros H; try reflexivity; discriminate H. Qed.

Lemma Trilean_eqb_sym a b : chroma.Trilean_eqb a b = chroma.Trilean_eqb b a.
Proof. destruct a, b; reflexivity. Qed.

(** A token style that is not the zero style stays so when its [Pass]
    flags are taken from the style below. *)
Lemma resolve_not_zero tokenStyle base :
  chroma.IsZero tokenStyle = false -> chroma.IsZero (resolve tokenStyle base) = false.
Proof.
  unfold chroma.IsZero, resolve. simpl.
  destruct (chroma.Colour_ tokenStyle =? 0); [|reflexivity].
  destruct (chroma.Background tokenStyle =? 0); [|reflexivity].
  destruct (chroma.Border tokenStyle =? 0); [|reflexivity].
  destruct (chroma.NoInherit tokenStyle);
    [intros _; simpl; rewrite !andb_false_r; reflexivity|].
  destruct (chroma.Bold tokenStyle), (chroma.Italic tokenStyle),
    (chroma.Underline tokenStyle); simpl; intros H; try discriminate H;
    try reflexivity; rewrite ?andb_false_r; reflexivity.
Qed.

(** The flag a push and the following pop leave. *)
Lemma flag_round_trip (z : bool) (a b : chroma.Trilean) (x : bool) :
  x = isYes b ->
  (if z || negb (chroma.Trilean_eqb b (inherit a b))
   then isYes b
   else if z || negb (chroma.Trilean_eqb (inherit a b) b)
        then isYes (inherit a b) else x) = x.
Proof.
  intros ->. rewrite (Trilean_eqb_sym b). destruct (z || _) eqn:E; [reflexivity|].
  reflexivity.
Qed.

(** The commands of a push and the following pop, run on a terminal that
    shows the style below. *)
Lemma delta_round_trip base tokenStyle t :
  chroma.IsZero tokenStyle = false ->
  shows base t ->
  coloursCovered base tokenStyle ->
  runSGR (deltaCommands (resolve tokenStyle base) base)
    (runSGR (deltaCommands base (resolve tokenStyle base)) t) = t.
Proof.
  intros Hz Hs Hc. unfold shows in Hs.
  destruct (chroma.IsZero base) eqn:Hb.
  { rewrite delta_to_zero by exact Hb. symmetry. exact Hs. }
  destruct Hs as (Hbold & Hunder & Hital & Hbg & Hfg).
  destruct Hc as [Hc|[Cbg Cfg]]; [rewrite Hb in Hc; discriminate Hc|].
  pose proof (delta_fields base (resolve tokenStyle base) t (resolve_not_zero _ _ Hz))
    as (P1 & P2 & P3 & P4 & P5).
  pose proof (delta_fields (resolve tokenStyle base) base
                (runSGR (deltaCommands base (resolve tokenStyle base)) t) Hb)
    as (Q1 & Q2 & Q3 & Q4 & Q5).
  rewrite (resolve_not_zero _ _ Hz) in Q1, Q2, Q3, Q4, Q5.
  rewrite Hb in P1, P2, P3, P4, P5. simpl orb in *.
  apply Terminal_ext.
  - rewrite Q1, P1. simpl chroma.Background.
    destruct (chroma.IsSet (chroma.Background base)) eqn:Eb; simpl.
    + rewrite (Z.eqb_sym (chroma.Background base)).
      destruct (chroma.Background tokenStyle =? chroma.Background base); simpl.
      * rewrite andb_false_r. reflexivity.
      * symmetry. apply Hbg. reflexivity.
    + destruct (chroma.IsSet (chroma.Background tokenStyle)) eqn:Et; simpl;
        [|reflexivity].
      discriminate (Cbg eq_refl).
  - rewrite Q2, P2. simpl chroma.Colour_.
    destruct (chroma.IsSet (chroma.Colour_ base)) eqn:Eb; simpl.
    + rewrite (Z.eqb_sym (chroma.Colour_ base)).
      destruct (chroma.Colour_ tokenStyle =? chroma.Colour_ base); simpl.
      * rewrite andb_false_r. reflexivity.
      * symmetry. apply Hfg. reflexivity.
    + destruct (chroma.IsSet (chroma.Colour_ tokenStyle)) eqn:Et; simpl;
        [|reflexivity].
      discriminate (Cfg eq_refl).
  - rewrite Q3, P3. simpl chroma.Bold.
    apply (flag_round_trip false). exact Hbold.
  - rewrite Q4, P4. simpl chroma.Underline.
    apply (flag_round_trip false). exact Hunder.
  - rewrite Q5, P5. simpl chroma.Italic.
    apply (flag_round_trip false). exact Hital.
Qed.

Lemma top_snoc {A} (l : list A) x : top (l ++ [x]) = Some x.
Proof. apply last_snoc. Qed.

Lemma pop_snoc {A} (l : list A) x : pop (l ++ [x]) = l.
Proof. apply removelast_last. Qed.

(** What [PushStyle] does for a token that has a style. *)
Lemma PushStyle_result th token r r1 :
  theme r = Some th ->
  chroma.IsZero (th token) = false ->
  PushStyle ext token r = Ok (tt, r1) ->
  styles r1 = styles r ++ [resolve (th token) (topStyle (styles r))]
  /\ theme r1 = theme r.
Proof.
  intros Hth Hz H. unfold PushStyle, bind, get in H. rewrite Hth, Hz in H.
  destruct (writeDelta ext _ _ r) as [[[] r']| |] eqn:E; try discriminate H.
  unfold modify in H. injection H as <-.
  apply frames_writeDelta in E. unfold textFrame in E.
  destruct E as (Et & _ & _ & _ & _ & _ & _ & _ & _ & _ & _ & _ & _ & Es & _).
  simpl. rewrite Es, Et. split; reflexivity.
Qed.

Lemma PopStyle_result th r r2 :
  theme r = Some th ->
  PopStyle ext r = Ok (tt, r2) ->
  styles r2 = pop (styles r).
Proof.
  intros Hth H. unfold PopStyle, bind, get in H. rewrite Hth in H.
  destruct (top (styles r)) as [cur|]; [|discriminate H].
  destruct (writeDelta ext _ _ r) as [[[] r']| |] eqn:E; try discriminate H.
  unfold modify in H. injection H as <-.
  apply frames_writeDelta in E. unfold textFrame in E.
  destruct E as (_ & _ & _ & _ & _ & _ & _ & _ & _ & _ & _ & _ & _ & Es & _).
  simpl. rewrite Es. reflexivity.
Qed.

(** The commands [PushStyle] and [PopStyle] write. *)
Lemma PushStyle_commands th token r :
  theme r = Some th ->
  PushStyle ext token r
  = (forEach (pushCommands th token (styles r)) (writeSGR ext) ;;
     if chroma.IsZero (th token) then ret tt
     else modify (fun r' =>
            set_styles (styles r' ++ [resolve (th token) (topStyle (styles r))]) r'))%go r.
Proof.
  intros Hth. unfold PushStyle, pushCommands. unfold bind at 1. unfold get. rewrite Hth.
  destruct (chroma.IsZero (th token)); [reflexivity|].
  apply bind_congr; [apply writeDelta_commands|reflexivity].
Qed.

Lemma PopStyle_commands th r :
  theme r = Some th ->
  top (styles r) <> None ->
  PopStyle ext r
  = (forEach (popCommands (styles r)) (writeSGR ext) ;;
     modify (fun r' => set_styles (pop (styles r')) r'))%go r.
Proof.
  intros Hth Ht. unfold PopStyle, popCommands. unfold bind at 1. unfold get. rewrite Hth.
  destruct (top (styles r)) as [cur|]; [|congruence].
  apply bind_congr; [apply writeDelta_commands|reflexivity].
Qed.

End StyleRoundTrip.

(** C4, amended.  Let the renderer have a theme in which the token has a
    style that is not the zero style, let the terminal show the style on top
    of the style stack (the default attributes for an empty stack), and let
    every colour the token style sets be set by the style on top of the
    stack as well (or let that style be the zero style).  If [PushStyle]
    with the token and then [PopStyle] return normally, then the style stack
    is what it was, [PushStyle] wrote the commands [pushCommands] and pushed
    one entry, [PopStyle] wrote the commands [popCommands] and popped it, and
    the two command sequences run one after the other leave the terminal
    attributes what they were. *)
Theorem push_pop_round_trip (ext : Externals) (th : chroma.Style)
    (token : chroma.TokenType) (r r1 r2 : Renderer) (t : Terminal) :
  theme r = Some th ->
  chroma.IsZero (th token) = false ->
  shows (topStyle (styles r)) t ->
  coloursCovered (topStyle (styles r)) (th token) ->
  PushStyle ext token r = Ok (tt, r1) ->
  PopStyle ext r1 = Ok (tt, r2) ->
  styles r2 = styles r
  /\ styles r1 = styles r ++ [resolve (th token) (topStyle (styles r))]
  /\ PushStyle ext token r
     = (forEach (pushCommands th token (styles r)) (writeSGR ext) ;;
        modify (fun r' =>
          set_styles (styles r' ++ [resolve (th token) (topStyle (styles r))]) r'))%go r
  /\ PopStyle ext r1
     = (forEach (popCommands (styles r1)) (writeSGR ext) ;;
        modify (fun r' => set_styles (pop (styles r')) r'))%go r1
  /\ runSGR (pushCommands th token (styles r) ++ popCommands (styles r1)) t = t.
Proof.
  intros Hth Hz Hs Hc Hpush Hpop.
  destruct (PushStyle_result ext th token r r1 Hth Hz Hpush) as [Hs1 Ht1].
  assert (Hth1 : theme r1 = Some th) by (rewrite Ht1; exact Hth).
  pose proof (PopStyle_result ext th r1 r2 Hth1 Hpop) as Hs2.
  split; [rewrite Hs2, Hs1; apply pop_snoc|].
  split; [exact Hs1|].
  split.
  { rewrite (PushStyle_commands ext th token r Hth), Hz. reflexivity. }
  split.
  { apply (PopStyle_commands ext th r1 Hth1). rewrite Hs1, top_snoc. discriminate. }
  rewrite runSGR_app. unfold pushCommands, popCommands.
  rewrite Hz, Hs1, top_snoc, pop_snoc.
  apply delta_round_trip; assumption.
Qed.

(** The amended C4 at a concrete input: token 2 (red) pushed on an empty
    style stack and popped again, with the terminal in its default state. *)
Lemma push_pop_round_trip_witness :
  exists r1 r2,
    PushStyle stdExt 2 (New (Some exampleTheme) 80 false false 0 [] false) = Ok (tt, r1)
    /\ PopStyle stdExt r1 = Ok (tt, r2)
    /\ styles r2 = []
    /\ runSGR (pushCommands exampleTheme 2 [] ++ popCommands (styles r1)) defaultTerminal
       = defaultTerminal.
Proof.
  pose (r0 := New (Some exampleTheme) 80 false false 0 [] false).
  pose (r1 := match PushStyle stdExt 2 r0 with Ok (_, r) => r | _ => r0 end).
  pose (r2 := match PopStyle stdExt r1 with Ok (_, r) => r | _ => r0 end).
  assert (E1 : PushStyle stdExt 2 r0 = Ok (tt, r1)) by (vm_compute; reflexivity).
  assert (E2 : PopStyle stdExt r1 = Ok (tt, r2)) by (vm_compute; reflexivity).
  exists r1, r2. split; [exact E1|]. split; [exact E2|].
  destruct (push_pop_round_trip stdExt exampleTheme 2 r0 r1 r2 defaultTerminal)
    as (H1 & _ & _ & _ & H5).
  - vm_compute; reflexivity.
  - vm_compute; reflexivity.
  - vm_compute; reflexivity.
  - left. vm_compute; reflexivity.
  - exact E1.
  - exact E2.
  - split; [exact H1 | exact H5].
Defined.

(** C4 as stated fails when the token style sets a colour that the style
    below it does not set: with the bold style on the stack and the terminal
    showing bold text in the default colours, pushing token 2 (red) and
    popping it restores the stack but leaves the foreground colour set. *)
Lemma colour_left_after_pop_counterexample :
  exists r1 r2,
    PushStyle stdExt 2 boldRenderer = Ok (tt, r1)
    /\ PopStyle stdExt r1 = Ok (tt, r2)
    /\ styles r2 = styles boldRenderer
    /\ runSGR (pushCommands exampleTheme 2 (styles boldRenderer)
               ++ popCommands (styles r1)) boldTerminal
       = {| foreground := Some (str "255;0;0"); background := None; bold := true;
            underline := false; italic := false |}
    /\ shows (topStyle (styles boldRenderer)) boldTerminal
    /\ runSGR (pushCommands exampleTheme 2 (styles boldRenderer)
               ++ popCommands (styles r1)) boldTerminal
       <> boldTerminal.
Proof.
  do 2 eexists.
  split; [vm_compute; reflexivity|]. split; [vm_compute; reflexivity|].
  split; [vm_compute; reflexivity|]. split; [vm_compute; reflexivity|].
  split; [vm_compute; repeat split; intros H; discriminate H|].
  vm_compute. intros H. discriminate H.
Qed.

(** C4 as stated also fails for a token without a style: [PushStyle] with
    token 3 writes nothing and pushes nothing, and the [PopStyle] that
    follows removes the entry that was on the stack before and resets the
    terminal. *)
Lemma push_of_unstyled_token_pops_other_entry :
  exists r2,
    PushStyle stdExt 3 boldRenderer = Ok (tt, boldRenderer)
    /\ PopStyle stdExt boldRenderer = Ok (tt, r2)
    /\ styles boldRenderer = [boldStyle]
    /\ styles r2 = []
    /\ runSGR (pushCommands exampleTheme 3 (styles boldRenderer)
               ++ popCommands (styles boldRenderer)) boldTerminal
       = defaultTerminal.
Proof.
  eexists.
  split; [vm_compute; reflexivity|]. split; [vm_compute; reflexivity|].
  split; [vm_compute; reflexivity|]. split; vm_compute; reflexivity.
Qed.

(** On an empty style stack the same pair of calls panics in [PopStyle]. *)
Lemma push_of_unstyled_token_then_pop_panics :
  PushStyle stdExt 3 (New (Some exampleTheme) 80 false false 0 [] false)
  = Ok (tt, New (Some exampleTheme) 80 false false 0 [] false)
  /\ PopStyle stdExt (New (Some exampleTheme) 80 false false 0 [] false)
     = Panic IndexOutOfRange.
Proof. split; vm_compute; reflexivity. Qed.

(** * The line writer: when it returns, what it returns *)

Section WriterReturns.

Context (ext : Externals).

Lemma bind_returns {A B} (m : M A) (f : A -> M B) r a r1 :
  m r = Ok (a, r1) -> bind m f r = f a r1.
Proof. intros H. unfold bind. rewrite H. reflexivity. Qed.

Lemma bind_panics {A B} (m : M A) (f : A -> M B) r p :
  m r = Panic p -> bind m f r = Panic p.
Proof. intros H. unfold bind. rewrite H. reflexivity. Qed.

Lemma beginLine_returns r : exists r1, beginLine r = Ok (tt, r1).
Proof.
  unfold beginLine. destruct (isContinuation r); [eexists; reflexivity|].
  destruct (len (prefix r) =? 0); eexists; reflexivity.
Qed.

Lemma beginLine_wordBuffer r r1 : beginLine r = Ok (tt, r1) -> wordBuffer r1 = wordBuffer r.
Proof.
  unfold beginLine. destruct (isContinuation r); [intros H; inversion H; reflexivity|].
  destruct (len (prefix r) =? 0); intros H; inversion H; subst; clear H; [reflexivity|].
  simpl. destruct (match last (prefix r) with Some c => Byte.eqb c newline | None => false end);
    reflexivity.
Qed.

Lemma concat_repeat_space n : concat (repeat [space] n) = repeat space n.
Proof. induction n as [|n IH]; simpl; [reflexivity | rewrite IH; reflexivity]. Qed.

(** The padding written before a newline: its length [k]. *)
Lemma padding_count w lw :
  0 < w -> 0 <= lw ->
  let remaining := w - lw in
  exists k,
    (if remaining <? 0 then
       if w =? 0 then Panic DivideByZero else Repeat [space] (w - Z.rem (- remaining) w)
     else if 0 <? remaining then Repeat [space] remaining
     else Ok [])
    = Ok (repeat space k)
    /\ (lw + Z.of_nat k) mod w = 0 /\ Z.of_nat k <= w.
Proof.
  intros Hw Hlw remaining. subst remaining.
  destruct (Z.ltb_spec (w - lw) 0) as [E1|E1].
  - destruct (Z.eqb_spec w 0) as [E0|E0]; [lia|].
    assert (Hr : Z.rem (- (w - lw)) w = (lw - w) mod w).
    { rewrite Z.rem_mod_nonneg by lia. f_equal. lia. }
    pose proof (Z.mod_pos_bound (lw - w) w Hw) as Hb.
    exists (Z.to_nat (w - Z.rem (- (w - lw)) w)). unfold Repeat.
    destruct (Z.ltb_spec (w - Z.rem (- (w - lw)) w) 0) as [E2|E2]; [lia|].
    rewrite concat_repeat_space. split; [reflexivity|].
    rewrite Z2Nat.id by lia. rewrite Hr. split; [|lia].
    replace (lw + (w - (lw - w) mod w)) with ((lw - w) - (lw - w) mod w + 2 * w) by lia.
    rewrite Z.mod_add by lia.
    rewrite (Z.div_mod (lw - w) w) at 1 by lia.
    replace (w * ((lw - w) / w) + (lw - w) mod w - (lw - w) mod w)
      with (((lw - w) / w) * w) by lia.
    apply Z.mod_mul. lia.
  - destruct (Z.ltb_spec 0 (w - lw)) as [E2|E2].
    + exists (Z.to_nat (w - lw)). unfold Repeat.
      destruct (Z.ltb_spec (w - lw) 0) as [E3|E3]; [lia|].
      rewrite concat_repeat_space. split; [reflexivity|].
      rewrite Z2Nat.id by lia. split; [|lia].
      replace (lw + (w - lw)) with w by lia. apply Z.mod_same. lia.
    + exists 0%nat. split; [reflexivity|]. simpl. rewrite Z.add_0_r.
      replace lw with w by lia. split; [apply Z.mod_same; lia | lia].
Qed.

(** [write] of a lone newline, in one equation: the padding, then the
    newline; the line is empty afterwards. *)
Lemma write_newline_eq r :
  write ext [newline] r
  = match (if wordWrap r - lineWidth r <? 0 then
             if wordWrap r =? 0 then Panic DivideByZero
             else Repeat [space]
                    (wordWrap r - Z.rem (- (wordWrap r - lineWidth r)) (wordWrap r))
           else if 0 <? wordWrap r - lineWidth r
                then Repeat [space] (wordWrap r - lineWidth r)
                else Ok []) with
    | Ok pad =>
      Ok (0, set_openBlocks (markNotFresh (openBlocks r))
               (set_lineWidth 0 (set_atNewline true
                  (set_sink (sink r ++ pad ++ [newline]) r))))
    | Fail e => Fail e
    | Panic p => Panic p
    end.
Proof.
  unfold write. simpl chunks. unfold writeChunks, writeChunk, bind, get, when, wWrite,
    modify, ret, lift, raise.
  replace (measureText ext []) with 0 by reflexivity.
  rewrite andb_false_r. simpl. rewrite Z.add_0_r, app_nil_r.
  destruct (wordWrap r - lineWidth r <? 0).
  - destruct (wordWrap r =? 0); [reflexivity|].
    destruct (Repeat [space] _) as [pad| |]; [|reflexivity..].
    simpl. rewrite !orb_true_r. simpl. rewrite <- app_assoc. reflexivity.
  - destruct (0 <? wordWrap r - lineWidth r).
    + destruct (Repeat [space] _) as [pad| |]; [|reflexivity..].
      simpl. rewrite !orb_true_r. simpl. rewrite <- app_assoc. reflexivity.
    + simpl. rewrite !orb_true_r. simpl. reflexivity.
Qed.

Lemma Repeat_returns b count : 0 <= count -> exists pad, Repeat b count = Ok pad.
Proof.
  intros H. unfold Repeat. destruct (Z.ltb_spec count 0); [lia|]. eexists. reflexivity.
Qed.

(** One iteration of the loop of [write] returns when the wrap width is
    positive, and leaves the word buffer alone. *)
Lemma writeChunk_returns r line hasNewline :
  0 < wordWrap r ->
  exists r', writeChunk ext line hasNewline r = Ok (tt, r')
             /\ wordBuffer r' = wordBuffer r.
Proof.
  intros Hw. unfold writeChunk.
  rewrite (bind_returns get _ r r r eq_refl).
  assert (H1 : exists r1, when (atNewline r && negb (measureText ext line =? 0)) beginLine r
                          = Ok (tt, r1) /\ wordBuffer r1 = wordBuffer r).
  { unfold when. destruct (atNewline r && negb (measureText ext line =? 0)).
    - destruct (beginLine_returns r) as [r1 E]. exists r1. split; [exact E|].
      exact (beginLine_wordBuffer r r1 E).
    - exists r. split; reflexivity. }
  destruct H1 as (r1 & E1 & B1). rewrite (bind_returns _ _ r tt r1 E1).
  assert (Hw1 : wordWrap r1 = wordWrap r).
  { assert (F : textFrame r r1).
    { apply (frames_when textFrame _ beginLine textFrame_refl frames_beginLine r tt r1 E1). }
    apply F. }
  rewrite (bind_returns (wWrite line) _ r1 tt (set_sink (sink r1 ++ line) r1) eq_refl).
  set (r2 := set_sink (sink r1 ++ line) r1).
  assert (Hw2 : wordWrap r2 = wordWrap r) by exact Hw1.
  assert (B2 : wordBuffer r2 = wordBuffer r) by exact B1.
  clearbody r2. clear E1 Hw1 B1 r1.
  destruct hasNewline; unfold when.
  - unfold bind, get, ret, raise, lift, wWrite, modify.
    destruct (Z.ltb_spec (wordWrap r2 - (lineWidth r2 + measureText ext line)) 0) as [E|E].
    + destruct (Z.eqb_spec (wordWrap r2) 0) as [E0|E0]; [lia|].
      pose proof (Z.rem_bound_pos
                    (- (wordWrap r2 - (lineWidth r2 + measureText ext line))) (wordWrap r2))
        as Hb.
      destruct (Repeat_returns [space]
                  (wordWrap r2
                   - Z.rem (- (wordWrap r2 - (lineWidth r2 + measureText ext line)))
                       (wordWrap r2))) as [pad Ep]; [lia|].
      rewrite Ep. eexists. split; [reflexivity|]. simpl.
      destruct (atNewline r2 && (measureText ext line =? 0) || true); exact B2.
    + destruct (Z.ltb_spec 0 (wordWrap r2 - (lineWidth r2 + measureText ext line))) as [E2|E2].
      * destruct (Repeat_returns [space]
                    (wordWrap r2 - (lineWidth r2 + measureText ext line))) as [pad Ep]; [lia|].
        rewrite Ep. eexists. split; [reflexivity|]. simpl.
        destruct (atNewline r2 && (measureText ext line =? 0) || true); exact B2.
      * eexists. split; [reflexivity|]. simpl.
        destruct (atNewline r2 && (measureText ext line =? 0) || true); exact B2.
  - unfold bind, ret, modify.
    eexists. split; [reflexivity|]. simpl.
    destruct (atNewline r2 && (measureText ext line =? 0) || false); exact B2.
Qed.

Lemma chunks_nil buf : chunks buf = [] -> buf = [].
Proof.
  destruct buf as [|c rest]; [reflexivity|]. simpl.
  destruct (Byte.eqb c newline); [discriminate|].
  destruct (chunks rest) as [|[line h] cs]; discriminate.
Qed.

(** The lines of the chunks hold the bytes of the buffer that are not
    newlines. *)
Lemma chunkBytes_chunks buf : chunkBytes (chunks buf) = len buf - countNewlines buf.
Proof.
  unfold countNewlines, len.
  induction buf as [|c rest IH]; [reflexivity|]. simpl chunks. simpl List.filter.
  destruct (Byte.eqb c newline).
  - cbn [chunkBytes fold_right fst length]. fold (chunkBytes (chunks rest)). rewrite IH.
    unfold len. cbn [length]. lia.
  - destruct (chunks rest) as [|[line h] cs] eqn:E.
    + apply chunks_nil in E. subst rest. reflexivity.
    + cbn [chunkBytes fold_right fst length] in *. unfold len in *. cbn [length]. lia.
Qed.

Lemma writeChunks_returns cs : forall written r,
  0 < wordWrap r ->
  exists r', writeChunks ext cs written r = Ok (written + chunkBytes cs, r')
             /\ wordWrap r' = wordWrap r /\ wordBuffer r' = wordBuffer r.
Proof.
  induction cs as [|[line h] cs IH]; intros written r Hw.
  - exists r. simpl. unfold ret. rewrite Z.add_0_r. repeat split.
  - destruct (writeChunk_returns r line h Hw) as (r1 & E1 & B1).
    assert (Hw1 : wordWrap r1 = wordWrap r) by apply (frames_writeChunk ext line h r tt r1 E1).
    destruct (IH (written + len line) r1) as (r' & E & Hw' & B'); [lia|].
    exists r'. simpl writeChunks. rewrite (bind_returns _ _ r tt r1 E1).
    cbn [chunkBytes fold_right fst]. fold (chunkBytes cs).
    rewrite Z.add_assoc. split; [exact E|]. split; congruence.
Qed.

Lemma write_returns r buf :
  0 < wordWrap r ->
  exists r',
    write ext buf r = Ok (len buf - countNewlines buf, r')
    /\ wordWrap r' = wordWrap r /\ wordBuffer r' = wordBuffer r.
Proof.
  intros Hw. unfold write.
  destruct (writeChunks_returns (chunks buf) 0 r Hw) as (r' & E & H).
  exists r'. rewrite chunkBytes_chunks in E. split; [exact E | exact H].
Qed.

(** [flushWordBuffer] returns when the wrap width is positive, and the word
    buffer is empty afterwards. *)
Lemma flushWordBuffer_returns r :
  0 < wordWrap r ->
  exists r', flushWordBuffer ext r = Ok (tt, r')
             /\ wordBuffer r' = [] /\ wordWrap r' = wordWrap r.
Proof.
  intros Hw. unfold flushWordBuffer. rewrite (bind_returns get _ r r r eq_refl).
  assert (H1 : exists r1,
    when ((0 <? lineWidth r) && (wordWrap r <=? lineWidth r + measureText ext (wordBuffer r)))
      (write ext [newline] ;; modify (fun r0 => set_byteOffset (byteOffset r0 + 1) r0)) r
    = Ok (tt, r1) /\ wordWrap r1 = wordWrap r).
  { unfold when. destruct ((0 <? lineWidth r) && _).
    - destruct (write_returns r [newline] Hw) as (r1 & E & Hw1 & _).
      rewrite (bind_returns _ _ r _ r1 E). eexists. split; [reflexivity | exact Hw1].
    - exists r. split; reflexivity. }
  destruct H1 as (r1 & E1 & Hw1). rewrite (bind_returns _ _ r tt r1 E1).
  destruct (write_returns r1 (wordBuffer r)) as (r2 & E2 & Hw2 & _); [lia|].
  rewrite (bind_returns _ _ r1 _ r2 E2). eexists. split; [reflexivity|].
  split; [reflexivity | simpl; congruence].
Qed.

(** [utf8.DecodeRune] consumes at least one byte of a buffer that is not
    empty, and no more bytes than the buffer has. *)
Lemma DecodeRune_size c0 buf :
  (1 <= snd (DecodeRune (c0 :: buf)) <= S (length buf))%nat.
Proof.
  unfold DecodeRune.
  repeat match goal with
         | |- context [if ?c then _ else _] => destruct c
         | |- context [match ?l with [] => _ | _ :: _ => _ end] => destruct l
         end; simpl; lia.
Qed.

(** The rune loop of [Write] consumes the whole buffer when it has a round
    for every byte. *)
Lemma WriteRunes_returns fuel : forall buf written r,
  0 < wordWrap r -> (length buf <= fuel)%nat ->
  exists r', WriteRunes ext fuel buf written r = Ok (written + len buf, r')
             /\ wordWrap r' = wordWrap r.
Proof.
  induction fuel as [|fuel IH]; intros buf written r Hw Hf.
  - destruct buf; [|simpl in Hf; lia]. exists r. simpl. unfold ret, len. simpl.
    rewrite Z.add_0_r. split; reflexivity.
  - destruct buf as [|c0 buf]; [exists r; simpl; unfold ret, len; simpl;
                                 rewrite Z.add_0_r; split; reflexivity|].
    pose proof (DecodeRune_size c0 buf) as Hsz.
    cbn [WriteRunes]. destruct (DecodeRune (c0 :: buf)) as [c sz]. cbn [snd] in Hsz.
    assert (H1 : exists r1,
      (if IsSpace c
       then flushWordBuffer ext ;; write ext (firstn sz (c0 :: buf)) ;; ret tt
       else modify (fun r0 => set_wordBuffer (wordBuffer r0 ++ firstn sz (c0 :: buf)) r0)) r
      = Ok (tt, r1) /\ wordWrap r1 = wordWrap r).
    { destruct (IsSpace c).
      - destruct (flushWordBuffer_returns r Hw) as (r1 & E1 & _ & Hw1).
        rewrite (bind_returns _ _ r tt r1 E1).
        destruct (write_returns r1 (firstn sz (c0 :: buf))) as (r2 & E2 & Hw2 & _); [lia|].
        rewrite (bind_returns _ _ r1 _ r2 E2). exists r2. split; [reflexivity | congruence].
      - eexists. split; reflexivity. }
    destruct H1 as (r1 & E1 & Hw1). rewrite (bind_returns _ _ r tt r1 E1).
    rewrite (bind_returns (modify _) _ r1 tt _ eq_refl).
    destruct (IH (skipn sz (c0 :: buf)) (written + Z.of_nat sz)
                (set_byteOffset (byteOffset r1 + Z.of_nat sz) r1)) as (r' & E & Hw');
      [simpl; lia | rewrite length_skipn; cbn [length] in *; lia |].
    exists r'. rewrite E. split; [|simpl in Hw'; congruence].
    f_equal. f_equal. unfold len. rewrite length_skipn. cbn [length] in *. lia.
Qed.

Lemma DecodeRune_ascii c0 buf :
  b2z c0 < 128 -> DecodeRune (c0 :: buf) = (b2z c0, 1%nat).
Proof.
  intros H. unfold DecodeRune. destruct (Z.ltb_spec (b2z c0) 128); [reflexivity | lia].
Qed.

(** The rune loop on letters: every byte goes to the word buffer. *)
Lemma WriteRunes_letters fuel : forall buf written r,
  (length buf <= fuel)%nat ->
  Forall (fun c => b2z c < 128 /\ IsSpace (b2z c) = false) buf ->
  exists r', WriteRunes ext fuel buf written r = Ok (written + len buf, r')
             /\ sink r' = sink r /\ wordBuffer r' = wordBuffer r ++ buf
             /\ byteOffset r' = byteOffset r + len buf
             /\ lineWidth r' = lineWidth r.
Proof.
  induction fuel as [|fuel IH]; intros buf written r Hf Hall.
  - destruct buf; [|simpl in Hf; lia]. exists r. simpl. unfold ret, len. simpl.
    rewrite !Z.add_0_r, app_nil_r. repeat split.
  - destruct buf as [|c0 buf].
    { exists r. simpl. unfold ret, len. simpl. rewrite !Z.add_0_r, app_nil_r. repeat split. }
    apply Forall_cons in Hall as [[Hc Hs] Hall].
    cbn [WriteRunes]. rewrite (DecodeRune_ascii c0 buf Hc). rewrite Hs.
    rewrite (bind_returns (modify _) _ r tt _ eq_refl).
    rewrite (bind_returns (modify _) _ _ tt _ eq_refl).
    cbn [firstn skipn].
    destruct (IH buf (written + Z.of_nat 1)
                (set_byteOffset
                   (byteOffset (set_wordBuffer (wordBuffer r ++ [c0]) r) + Z.of_nat 1)
                   (set_wordBuffer (wordBuffer r ++ [c0]) r)))
      as (r' & E & S1 & B1 & O1 & L1); [simpl in Hf; lia | exact Hall |].
    exists r'. simpl in S1, B1, O1, L1.
    split; [refine (eq_trans _ (eq_trans E _));
            [reflexivity | f_equal; f_equal; unfold len; cbn [length]; lia]|].
    split; [exact S1|]. split; [rewrite B1, <- app_assoc; reflexivity|].
    split; [rewrite O1; unfold len; cbn [length]; lia | exact L1].
Qed.

End WriterReturns.



(** Padding to the wrap width.  With a positive wrap width, [write] of a
    lone newline writes [k] spaces and then the newline, where [k] is at
    most the wrap width and brings the width of the line to a multiple of the
    wrap width; the next line starts empty. *)
Theorem write_newline_pads (ext : Externals) (r : Renderer) :
  0 < wordWrap r -> 0 <= lineWidth r ->
  exists k r',
    write ext [newline] r = Ok (0, r')
    /\ sink r' = sink r ++ repeat space k ++ [newline]
    /\ (lineWidth r + Z.of_nat k) mod wordWrap r = 0
    /\ Z.of_nat k <= wordWrap r
    /\ lineWidth r' = 0 /\ atNewline r' = true.
Proof.
  intros Hw Hlw. rewrite write_newline_eq.
  destruct (padding_count (wordWrap r) (lineWidth r) Hw Hlw) as (k & E & Hm & Hk).
  simpl in E. rewrite E. exists k. eexists. split; [reflexivity|]. simpl. tauto.
Qed.

(** A line of 13 columns under wrap width 10 is padded with 7 spaces. *)
Lemma write_newline_pads_witness :
  exists k r',
    write stdExt [newline] (set_lineWidth 13 (plain 10)) = Ok (0, r')
    /\ sink r' = repeat space k ++ [newline]
    /\ (13 + Z.of_nat k) mod 10 = 0.
Proof.
  destruct (write_newline_pads stdExt (set_lineWidth 13 (plain 10)))
    as (k & r' & E & Hs & Hm & _);
    [vm_compute; reflexivity | vm_compute; intros H; discriminate H |].
  exists k, r'. split; [exact E|]. split; [exact Hs | exact Hm].
Defined.

(** What [write] returns.  With a positive wrap width [write] returns
    normally for every buffer, and the number it returns is the number of
    bytes of the buffer that are not newlines: the newline written at the end
    of a line is not counted.  The wrap width and the word buffer are left as
    they were. *)
Theorem write_returns_bytes_before_newlines (ext : Externals) (r : Renderer) (buf : bytes) :
  0 < wordWrap r ->
  exists r',
    write ext buf r = Ok (len buf - countNewlines buf, r')
    /\ wordWrap r' = wordWrap r /\ wordBuffer r' = wordBuffer r.
Proof. exact (write_returns ext r buf). Qed.

(** Two lines of two bytes each: six bytes in the buffer, four counted. *)
Lemma write_returns_bytes_before_newlines_witness :
  exists r', write stdExt (str "ab" ++ [newline] ++ str "cd" ++ [newline]) (plain 10)
             = Ok (4, r').
Proof.
  destruct (write_returns_bytes_before_newlines stdExt (plain 10)
              (str "ab" ++ [newline] ++ str "cd" ++ [newline]))
    as (r' & E & _); [vm_compute; reflexivity|].
  exists r'. exact E.
Defined.

(** [Write] where word wrap is off in the current context, under a positive
    wrap width: a word left in the word buffer is flushed first, the buffer
    is written through, the number returned is the number of its bytes that
    are not newlines, and no word is left in the word buffer. *)
Theorem Write_unwrapped (ext : Externals) (r : Renderer) (buf : bytes) :
  0 < wordWrap r -> WordWrap r = false ->
  exists r',
    Write ext buf r = Ok (len buf - countNewlines buf, r') /\ wordBuffer r' = [].
Proof.
  intros Hw Hoff. unfold Write. rewrite (bind_returns get _ r r r eq_refl). rewrite Hoff.
  cbn [negb].
  assert (H1 : exists r1, when (0 <? len (wordBuffer r)) (flushWordBuffer ext) r = Ok (tt, r1)
                          /\ wordBuffer r1 = [] /\ wordWrap r1 = wordWrap r).
  { unfold when. destruct (Z.ltb_spec 0 (len (wordBuffer r))) as [E|E].
    - exact (flushWordBuffer_returns ext r Hw).
    - exists r. split; [reflexivity|]. split; [|reflexivity].
      unfold len in E. destruct (wordBuffer r); [reflexivity | simpl in E; lia]. }
  destruct H1 as (r1 & E1 & B1 & Hw1). rewrite (bind_returns _ _ r tt r1 E1).
  destruct (write_returns ext r1 buf) as (r2 & E2 & _ & B2); [lia|].
  rewrite (bind_returns _ _ r1 _ r2 E2). eexists. split; [reflexivity|].
  simpl. congruence.
Qed.

(** A word waits in the buffer, wrapping is off in the current context:
    the word is written before the text. *)
Lemma Write_unwrapped_witness :
  exists r',
    Write stdExt (str "cd") (set_wordBuffer (str "ab") (set_wrapping [false] (plain 10)))
    = Ok (2, r')
    /\ wordBuffer r' = [].
Proof.
  destruct (Write_unwrapped stdExt (set_wordBuffer (str "ab") (set_wrapping [false] (plain 10)))
              (str "cd")) as (r' & E & B); [vm_compute; reflexivity..|].
  exists r'. split; [exact E | exact B].
Defined.

(** [Write] where word wrap is on: it returns normally for every buffer and
    reports every byte of the buffer as written, whatever part of it is still
    held in the word buffer. *)
Theorem Write_wrapped_returns (ext : Externals) (r : Renderer) (buf : bytes) :
  WordWrap r = true ->
  exists r', Write ext buf r = Ok (len buf, r') /\ wordWrap r' = wordWrap r.
Proof.
  intros Hon. unfold Write. rewrite (bind_returns get _ r r r eq_refl). rewrite Hon.
  cbn [negb].
  assert (Hw : 0 < wordWrap r).
  { unfold WordWrap in Hon. apply andb_true_iff in Hon as [Hon _].
    apply andb_true_iff in Hon as [Hon _]. apply Z.ltb_lt in Hon. exact Hon. }
  destruct (WriteRunes_returns ext (length buf) buf 0 r Hw (Nat.le_refl _)) as (r' & E & Hw').
  exists r'. split; [exact E | exact Hw'].
Qed.

Lemma Write_wrapped_returns_witness :
  exists r', Write stdExt (str "Hello world") (set_wrapping [true] (plain 10)) = Ok (11, r').
Proof.
  destruct (Write_wrapped_returns stdExt (set_wrapping [true] (plain 10)) (str "Hello world"))
    as (r' & E & _); [vm_compute; reflexivity|].
  exists r'. exact E.
Defined.

(** A word is held back.  [Write] of letters (bytes below 128 that are not
    white space) where word wrap is on writes nothing: the bytes are appended
    to the word buffer, the byte offset advances by their number, and they
    reach the writer only when white space is written later. *)
Theorem Write_wrapped_holds_word (ext : Externals) (r : Renderer) (buf : bytes) :
  WordWrap r = true ->
  Forall (fun c => b2z c < 128 /\ IsSpace (b2z c) = false) buf ->
  exists r',
    Write ext buf r = Ok (len buf, r')
    /\ sink r' = sink r /\ wordBuffer r' = wordBuffer r ++ buf
    /\ byteOffset r' = byteOffset r + len buf
    /\ lineWidth r' = lineWidth r.
Proof.
  intros Hon Hall. unfold Write. rewrite (bind_returns get _ r r r eq_refl). rewrite Hon.
  cbn [negb].
  exact (WriteRunes_letters ext (length buf) buf 0 r (Nat.le_refl _) Hall).
Qed.

Lemma Write_wrapped_holds_word_witness :
  exists r',
    Write stdExt (str "word") (set_wrapping [true] (plain 10)) = Ok (4, r')
    /\ sink r' = [] /\ wordBuffer r' = str "word".
Proof.
  destruct (Write_wrapped_holds_word stdExt (set_wrapping [true] (plain 10)) (str "word"))
    as (r' & E & S1 & B1 & _).
  - vm_compute. reflexivity.
  - repeat constructor.
  - exists r'. split; [exact E|]. split; [exact S1 | exact B1].
Defined.

(** * The width of a text *)

Section Measure.

Context (ext : Externals).

(** The width accumulated so far is added to what the rest of the loop
    finds. *)
Lemma measureLoop_acc fuel : forall seg rest w,
  measureLoop ext fuel seg rest w = w + measureLoop ext fuel seg rest 0.
Proof.
  induction fuel as [|fuel IH]; intros seg rest w; simpl; [lia|].
  destruct (negb (csiDecode ext rest =? 0)%nat || (length rest =? 0)%nat).
  - destruct (skipn (csiDecode ext rest) rest) as [|c rest']; [lia|].
    rewrite (IH [] (c :: rest') (w + _)), (IH [] (c :: rest') (0 + _)). lia.
  - destruct rest as [|c rest']; [lia|]. apply IH.
Qed.

(** The loop does not depend on its fuel once it has a round for every byte
    and one more. *)
Lemma measureLoop_fuel fuel : forall fuel' seg rest w,
  (length rest < fuel)%nat -> (length rest < fuel')%nat ->
  measureLoop ext fuel seg rest w = measureLoop ext fuel' seg rest w.
Proof.
  induction fuel as [|fuel IH]; intros fuel' seg rest w H1 H2; [lia|].
  destruct fuel' as [|fuel']; [lia|]. simpl.
  destruct (negb (csiDecode ext rest =? 0)%nat || (length rest =? 0)%nat) eqn:Ec.
  - destruct (skipn (csiDecode ext rest) rest) as [|c rest'] eqn:Es; [reflexivity|].
    assert (Hl : (length (c :: rest') < length rest)%nat).
    { rewrite <- Es, length_skipn.
      destruct (csiDecode ext rest) as [|sz];
        [|destruct rest; simpl in *; [discriminate Es | lia]].
      simpl in Ec. destruct rest; [discriminate Es | discriminate Ec]. }
    apply IH; lia.
  - destruct rest as [|c rest']; [reflexivity|]. apply IH; simpl in *; lia.
Qed.

(** Scanning over bytes at which no control sequence starts. *)
Lemma measureLoop_scan seg : forall fuel seg0 tail w,
  tail <> [] ->
  (forall k, (k < length seg)%nat -> csiDecode ext (skipn k (seg ++ tail)) = 0%nat) ->
  measureLoop ext (length seg + fuel) seg0 (seg ++ tail) w
  = measureLoop ext fuel (seg0 ++ seg) tail w.
Proof.
  induction seg as [|c seg IH]; intros fuel seg0 tail w Ht Hk.
  - simpl. rewrite app_nil_r. reflexivity.
  - cbn [length Nat.add app measureLoop].
    pose proof (Hk 0%nat ltac:(simpl; lia)) as H0. cbn [skipn app] in H0. rewrite H0.
    cbn [Nat.eqb negb orb length].
    rewrite IH; [rewrite <- app_assoc; reflexivity | exact Ht |].
    intros k Hlt. apply (Hk (S k)). simpl. lia.
Qed.

Lemma measureLoop_end fuel seg w :
  measureLoop ext (S fuel) seg [] w = w + Z.of_nat (GraphemeClusterCount ext seg).
Proof.
  simpl. rewrite orb_true_r. destruct (csiDecode ext []); reflexivity.
Qed.

Lemma measureText_nonempty buf :
  buf <> [] -> measureText ext buf = measureLoop ext (S (length buf)) [] buf 0.
Proof. destruct buf; [contradiction | reflexivity]. Qed.

Lemma measureText_plain buf :
  buf <> [] ->
  (forall k, (k < length buf)%nat -> csiDecode ext (skipn k buf) = 0%nat) ->
  measureText ext buf = Z.of_nat (GraphemeClusterCount ext buf).
Proof.
  intros Hne Hk. unfold measureText. destruct buf as [|c buf]; [contradiction|].
  destruct (exists_last Hne) as (front & l & E). rewrite E in *.
  rewrite length_app in *. cbn [length] in *.
  replace (S (length front + 1)) with (length front + 2)%nat by lia.
  rewrite measureLoop_scan; [|discriminate|].
  - pose proof (Hk (length front) ltac:(lia)) as H0.
    rewrite skipn_app, skipn_all, Nat.sub_diag in H0. cbn [skipn app] in H0.
    cbn [app]. cbn [measureLoop]. rewrite H0.
    cbn [skipn app length Nat.eqb negb orb].
    rewrite orb_true_r. destruct (skipn (csiDecode ext []) []); reflexivity.
  - intros k Hlt. apply Hk. lia.
Qed.

Lemma measureText_segment seg csi rest :
  csi <> [] ->
  csiDecode ext (csi ++ rest) = length csi ->
  (forall k, (k < length seg)%nat -> csiDecode ext (skipn k (seg ++ csi ++ rest)) = 0%nat) ->
  measureText ext (seg ++ csi ++ rest)
  = Z.of_nat (GraphemeClusterCount ext seg) + measureText ext rest.
Proof.
  intros Hne Hsz Hk.
  rewrite (measureText_nonempty (seg ++ csi ++ rest))
    by (destruct seg; [destruct csi; [contradiction | discriminate] | discriminate]).
  rewrite !length_app.
  replace (S (length seg + (length csi + length rest)))
    with (length seg + S (length csi + length rest))%nat by lia.
  rewrite measureLoop_scan; [|destruct csi; [contradiction | discriminate] | exact Hk].
  cbn [app measureLoop]. rewrite Hsz.
  destruct csi as [|c csi]; [contradiction|].
  cbn [length Nat.eqb negb orb].
  change (S (length csi)) with (length (c :: csi)).
  rewrite skipn_app, skipn_all, Nat.sub_diag. cbn [skipn app].
  destruct rest as [|d rest]; cbn [skipn]; [simpl; lia|].
  rewrite measureLoop_acc. rewrite (measureText_nonempty (d :: rest)) by discriminate.
  rewrite (measureLoop_fuel _ (S (length (d :: rest)))); [lia | simpl; lia | simpl; lia].
Qed.

End Measure.

(** The width of a text without control sequences.  When no control
    sequence starts at any byte of a buffer that is not empty, [measureText]
    is the number of grapheme clusters of the whole buffer. *)
Theorem measureText_without_control_codes (ext : Externals) (buf : bytes) :
  buf <> [] ->
  (forall k, (k < length buf)%nat -> csiDecode ext (skipn k buf) = 0%nat) ->
  measureText ext buf = Z.of_nat (GraphemeClusterCount ext buf).
Proof. exact (measureText_plain ext buf). Qed.

Lemma measureText_without_control_codes_witness :
  measureText stdExt (str "abc") = 3.
Proof.
  refine (measureText_without_control_codes stdExt (str "abc") _ _).
  - discriminate.
  - intros [|[|[|k]]] Hk; [reflexivity.. | simpl in Hk; lia].
Defined.

(** Control sequences have no width.  When a buffer is a segment at whose
    bytes no control sequence starts, then a control sequence, then a rest,
    its width is the number of grapheme clusters of the segment plus the
    width of the rest. *)
Theorem measureText_skips_control_code (ext : Externals) (seg csi rest : bytes) :
  csi <> [] ->
  csiDecode ext (csi ++ rest) = length csi ->
  (forall k, (k < length seg)%nat -> csiDecode ext (skipn k (seg ++ csi ++ rest)) = 0%nat) ->
  measureText ext (seg ++ csi ++ rest)
  = Z.of_nat (GraphemeClusterCount ext seg) + measureText ext rest.
Proof. exact (measureText_segment ext seg csi rest). Qed.

(** Bold text: the sequence [ESC [ 1 m] between two letters. *)
Lemma measureText_skips_control_code_witness :
  measureText stdExt (str "a" ++ ([escape] ++ str "[1m") ++ str "b") = 1 + 1.
Proof.
  refine (measureText_skips_control_code stdExt (str "a") ([escape] ++ str "[1m") (str "b")
            _ _ _).
  - discriminate.
  - reflexivity.
  - intros [|k] Hk; [reflexivity | simpl in Hk; lia].
Defined.

(** * The decoder of the graphics protocol: bounds and what is never decoded *)

Section KittyBounds.

Context (base64Decode : bytes -> option bytes).

Lemma byte_eqb_neq (a b : byte) : a <> b -> Byte.eqb a b = false.
Proof.
  intros H. destruct (Byte.eqb a b) eqn:E; [|reflexivity].
  apply Byte.byte_dec_bl in E. contradiction.
Qed.

Lemma byte_eqb_eq (a b : byte) : Byte.eqb a b = true -> a = b.
Proof. apply Byte.byte_dec_bl. Qed.

(** [positiveIntegerDecoder] accepts no value: on the empty value and on a
    value that starts with a byte that is no digit it answers false, and on a
    value that starts with a digit its loop does not end. *)
Lemma positiveIntegerDecoder_rejects fuel dest c b c' :
  kitty.positiveIntegerDecoder fuel dest c b <> Returns (true, c').
Proof.
  unfold kitty.positiveIntegerDecoder. destruct b as [|c0 b].
  - destruct fuel; simpl; discriminate.
  - destruct ((b2z c0 <? 48) || (57 <? b2z c0)) eqn:E.
    + destruct fuel; simpl; rewrite E; discriminate.
    + rewrite (positiveIntegerLoop_digit fuel c0 b 0 false E). discriminate.
Qed.

Lemma positiveIntegerDecoder_returns fuel dest c b ok c' :
  kitty.positiveIntegerDecoder fuel dest c b = Returns (ok, c') -> ok = false /\ c' = c.
Proof.
  unfold kitty.positiveIntegerDecoder. destruct b as [|c0 b].
  - destruct fuel; simpl; intros H; inversion H; split; reflexivity.
  - destruct ((b2z c0 <? 48) || (57 <? b2z c0)) eqn:E.
    + destruct fuel; simpl; rewrite E; intros H; inversion H; split; reflexivity.
    + rewrite (positiveIntegerLoop_digit fuel c0 b 0 false E). discriminate.
Qed.

Lemma positiveIntegerDecoder_numeric fuel dest c b ok c' :
  kitty.positiveIntegerDecoder fuel dest c b = Returns (ok, c') ->
  numericFields c' = numericFields c /\ kitty.Medium c' = kitty.Medium c.
Proof.
  intros H. apply positiveIntegerDecoder_returns in H as [_ ->]. split; reflexivity.
Qed.

Lemma singleCharacterDecoder_numeric dest c b ok c' :
  kitty.singleCharacterDecoder dest c b = Returns (ok, c') ->
  numericFields c' = numericFields c /\ kitty.Medium c' = kitty.Medium c.
Proof.
  unfold kitty.singleCharacterDecoder. destruct b; intros H; inversion H; subst;
    split; reflexivity.
Qed.

Lemma boolDecoder_numeric c b ok c' :
  kitty.boolDecoder c b = Returns (ok, c') ->
  numericFields c' = numericFields c /\ kitty.Medium c' = kitty.Medium c.
Proof.
  unfold kitty.boolDecoder. destruct b; intros H; inversion H; subst; split; reflexivity.
Qed.

(** A value decoder that returns leaves the numbers and the medium alone. *)
Lemma decodeValue_numeric fuel k c v ok c' :
  kitty.decodeValue fuel k c v = Returns (ok, c') ->
  numericFields c' = numericFields c /\ kitty.Medium c' = kitty.Medium c.
Proof.
  unfold kitty.decodeValue.
  repeat match goal with
         | |- context [if ?b then _ else _] => destruct b
         end;
    intros H;
    first [ exact (singleCharacterDecoder_numeric _ _ _ _ _ H)
          | exact (boolDecoder_numeric _ _ _ _ H)
          | exact (positiveIntegerDecoder_numeric _ _ _ _ _ _ H)
          | discriminate H ].
Qed.

(** The extent of a value: what is consumed is cut from the front of the
    buffer. *)
Lemma valueExtent_spec start : forall b v n v' b' n',
  kitty.valueExtent start b v n = (v', b', n') ->
  n <= n' <= n + len b /\ b' = skipn (Z.to_nat (n' - n)) b.
Proof.
  induction b as [|c b IH]; intros v n v' b' n' H; simpl in H.
  - inversion H; subst. unfold len. simpl. rewrite Z.sub_diag. split; [lia | reflexivity].
  - destruct (Byte.eqb c ","%byte).
    + inversion H; subst. unfold len. cbn [length].
      replace (n + 1 - n) with 1 by lia. split; [lia | reflexivity].
    + destruct (Byte.eqb c ";"%byte).
      * inversion H; subst. unfold len. cbn [length]. rewrite Z.sub_diag.
        split; [lia | reflexivity].
      * apply IH in H as [Hn Hb]. unfold len in *. cbn [length]. split; [lia|].
        rewrite Hb. replace (Z.to_nat (n' - n)) with (S (Z.to_nat (n' - (n + 1)))) by lia.
        reflexivity.
Qed.

(** The control-data loop: what is consumed is cut from the front of the
    buffer, and the numbers and the medium are left alone. *)
Lemma controlData_spec rounds fuel : forall c b sz c' res,
  kitty.controlData rounds fuel c b sz = Returns (c', res) ->
  numericFields c' = numericFields c /\ kitty.Medium c' = kitty.Medium c
  /\ match res with
     | Some (b', sz') =>
       (b = [] /\ sz' = sz \/ sz + 1 <= sz') /\ sz' <= sz + len b
       /\ b' = skipn (Z.to_nat (sz' - sz)) b
     | None => True
     end.
Proof.
  induction rounds as [|rounds IH]; intros c b sz c' res H.
  - destruct b as [|k b1]; simpl in H.
    + inversion H; subst. rewrite Z.sub_diag. unfold len. simpl.
      repeat split; try reflexivity; [left; split; reflexivity | lia].
    + destruct (Byte.eqb k ";"%byte).
      * inversion H; subst. replace (sz + 1 - sz) with 1 by lia. unfold len. cbn [length].
        repeat split; try reflexivity; [right; lia | lia].
      * destruct b1 as [|e b2]; [inversion H; subst; repeat split; reflexivity|].
        destruct ((len (e :: b2) <? 2) || negb (Byte.eqb e "="%byte));
          [inversion H; subst; repeat split; reflexivity|].
        destruct (kitty.valueExtent b2 b2 [] 0) as [[v b3] n].
        destruct (kitty.decodeValue fuel k c v) as [[[] c1]| |] eqn:Ed; try discriminate H.
        inversion H; subst. destruct (decodeValue_numeric _ _ _ _ _ _ Ed) as [A B].
        split; [exact A|]. split; [exact B | exact I].
  - destruct b as [|k b1]; simpl in H.
    + inversion H; subst. rewrite Z.sub_diag. unfold len. simpl.
      repeat split; try reflexivity; [left; split; reflexivity | lia].
    + destruct (Byte.eqb k ";"%byte).
      * inversion H; subst. replace (sz + 1 - sz) with 1 by lia. unfold len. cbn [length].
        repeat split; try reflexivity; [right; lia | lia].
      * destruct b1 as [|e b2]; [inversion H; subst; repeat split; reflexivity|].
        destruct ((len (e :: b2) <? 2) || negb (Byte.eqb e "="%byte));
          [inversion H; subst; repeat split; reflexivity|].
        destruct (kitty.valueExtent b2 b2 [] 0) as [[v b3] n] eqn:Ev.
        apply valueExtent_spec in Ev as [Hn Hb3].
        destruct (kitty.decodeValue fuel k c v) as [[[] c1]| |] eqn:Ed; try discriminate H.
        { destruct (decodeValue_numeric _ _ _ _ _ _ Ed) as [A B].
          apply IH in H as (A' & B' & Hres).
          split; [congruence|]. split; [congruence|].
          destruct res as [[b' sz']|]; [|exact I].
          destruct Hres as (Hlo & Hhi & Hb').
          assert (Hl3 : len b3 = len b2 - n).
          { rewrite Hb3. unfold len. rewrite length_skipn. unfold len in Hn. lia. }
          unfold len in *. cbn [length].
          split; [right; destruct Hlo as [[_ ->]|Hlo]; lia|].
          split; [lia|].
          rewrite Hb', Hb3, skipn_skipn.
          replace (Z.to_nat (sz' - sz))
            with (S (S (Z.to_nat (sz' - (sz + 1 + 1 + n)) + Z.to_nat (n - 0))))
            by (destruct Hlo as [[_ ->]|Hlo]; lia).
          reflexivity. }
        inversion H; subst. destruct (decodeValue_numeric _ _ _ _ _ _ Ed) as [A B].
        split; [exact A|]. split; [exact B | exact I].
Qed.

Lemma indexTerminator_spec : forall b i t,
  kitty.indexTerminator b i = t -> t <> -1 -> 0 <= i ->
  i <= t /\ t - i + 2 <= len b
  /\ skipn (Z.to_nat (t - i)) b !! 0%nat = Some x1b
  /\ skipn (Z.to_nat (t - i)) b !! 1%nat = Some x5c.
Proof.
  induction b as [|c b IH]; intros i t H Ht Hi; simpl in H; [congruence|].
  destruct b as [|d b]; [congruence|].
  destruct (Byte.eqb c x1b && Byte.eqb d x5c) eqn:E.
  - subst t. rewrite Z.sub_diag. apply andb_true_iff in E as [E1 E2].
    apply byte_eqb_eq in E1, E2. subst. unfold len. cbn [length]. simpl.
    repeat split; try reflexivity; lia.
  - destruct (IH (i + 1) t H Ht) as (A & B & C & D); [lia|].
    unfold len in *. cbn [length] in *. split; [lia|]. split; [lia|].
    replace (Z.to_nat (t - i)) with (S (Z.to_nat (t - (i + 1)))) by lia.
    split; [exact C | exact D].
Qed.

(** What [DecodeCommand] returns. *)
Lemma DecodeCommand_spec fuel c b c' sz :
  kitty.DecodeCommand base64Decode fuel c b = Returns (c', sz) ->
  (sz = 0 \/ 6 <= sz) /\ sz <= len b
  /\ (sz <> 0 ->
      firstn 3 b = commandPrefix
      /\ b !! Z.to_nat (sz - 2) = Some x1b /\ b !! Z.to_nat (sz - 1) = Some x5c
      /\ numericFields c' = numericFields kitty.zero
      /\ kitty.Medium c' = kitty.Medium kitty.zero).
Proof.
  unfold kitty.DecodeCommand. pose proof (len_nonneg b) as Hlen.
  destruct b as [|b0 [|b1 [|b2 rest]]];
    try (intros H; inversion H; subst; split; [left; reflexivity|];
         split; [exact Hlen | intros F; contradiction]).
  destruct (Z.ltb_spec (len (b0 :: b1 :: b2 :: rest)) 5) as [E5|E5];
    [intros H; cbn [orb] in H; inversion H; subst; split; [left; reflexivity|];
     split; [exact Hlen | intros F; contradiction]|].
  cbn [orb].
  destruct (Byte.eqb b0 x1b) eqn:E0;
    [|intros H; cbn [negb orb] in H; inversion H; subst; split; [left; reflexivity|];
      split; [exact Hlen | intros F; contradiction]].
  destruct (Byte.eqb b1 "_"%byte) eqn:E1;
    [|intros H; cbn [negb orb] in H; inversion H; subst; split; [left; reflexivity|];
      split; [exact Hlen | intros F; contradiction]].
  destruct (Byte.eqb b2 "G"%byte) eqn:E2;
    [|intros H; cbn [negb orb] in H; inversion H; subst; split; [left; reflexivity|];
      split; [exact Hlen | intros F; contradiction]].
  cbn [negb orb].
  apply byte_eqb_eq in E0, E1, E2. subst b0 b1 b2.
  destruct (kitty.controlData (length rest) fuel kitty.zero rest 3) as [[c1 res]| |] eqn:Ec;
    try discriminate.
  apply controlData_spec in Ec as (A & B & Hres).
  destruct res as [[b' sz']|];
    [|intros H; inversion H; subst; split; [left; reflexivity|];
      split; [exact Hlen | intros F; contradiction]].
  destruct Hres as (Hlo & Hhi & Hb').
  destruct (Z.eqb_spec (kitty.indexTerminator b' 0) (-1)) as [Et|Et];
    [intros H; inversion H; subst; split; [left; reflexivity|];
     split; [exact Hlen | intros F; contradiction]|].
  destruct (indexTerminator_spec b' 0 _ eq_refl Et (Z.le_refl 0)) as (T1 & T2 & T3 & T4).
  set (t := kitty.indexTerminator b' 0) in *.
  assert (Hl' : len b' = len rest - (sz' - 3)).
  { rewrite Hb'. unfold len. rewrite length_skipn. unfold len in Hhi.
    destruct Hlo as [[-> ->]|Hlo]; simpl; lia. }
  assert (Hsz' : 4 <= sz').
  { destruct Hlo as [[-> _]|Hlo]; [unfold len in E5; simpl in E5; lia | lia]. }
  unfold len in Hlen, E5, Hl', T2, Hhi. cbn [length] in Hlen, E5.
  assert (Hfinal :
    forall c2, (6 <= sz' + t + 2) /\ sz' + t + 2 <= len (x1b :: "_"%byte :: "G"%byte :: rest)
    /\ (firstn 3 (x1b :: "_"%byte :: "G"%byte :: rest) = commandPrefix
        /\ (x1b :: "_"%byte :: "G"%byte :: rest) !! Z.to_nat (sz' + t + 2 - 2) = Some x1b
        /\ (x1b :: "_"%byte :: "G"%byte :: rest) !! Z.to_nat (sz' + t + 2 - 1) = Some x5c
        /\ numericFields (kitty.setPayload c2 c1) = numericFields kitty.zero
        /\ kitty.Medium (kitty.setPayload c2 c1) = kitty.Medium kitty.zero)).
  { intros c2. unfold len. cbn [length]. split; [lia|]. split; [lia|].
    split; [reflexivity|].
    rewrite Z.sub_0_r in T3, T4. rewrite Hb', skipn_skipn in T3, T4.
    rewrite lookup_drop in T3, T4.
    split.
    { replace (Z.to_nat (sz' + t + 2 - 2))
        with (S (S (S (Z.to_nat t + Z.to_nat (sz' - 3) + 0)))) by lia. exact T3. }
    split.
    { replace (Z.to_nat (sz' + t + 2 - 1))
        with (S (S (S (Z.to_nat t + Z.to_nat (sz' - 3) + 1)))) by lia. exact T4. }
    split; [exact A | exact B]. }
  destruct (base64Decode (firstn (Z.to_nat t) b')) as [payload|];
    [|intros H; inversion H; subst; split; [left; reflexivity|];
      split; [unfold len; cbn [length]; lia | intros F; contradiction]].
  destruct (negb (len payload =? kitty.DecodedLen (len (firstn (Z.to_nat t) b'))));
    [intros H; inversion H; subst; split; [left; reflexivity|];
     split; [unfold len; cbn [length]; lia | intros F; contradiction]|].
  intros H. inversion H; subst. destruct (Hfinal payload) as (F1 & F2 & F3).
  split; [right; exact F1|]. split; [exact F2 | intros _; exact F3].
Qed.

(** [DecodeCommands]: what the loop adds to the commands and to the size. *)
Lemma DecodeCommandsLoop_spec rounds fuel : forall cs b size cs' size',
  kitty.DecodeCommandsLoop base64Decode rounds fuel cs b size = Returns (cs', size') ->
  exists new,
    cs' = cs ++ new /\ size + 6 * len new <= size' /\ size' <= size + len b
    /\ (forall i c, new !! i = Some c -> (S i < length new)%nat -> kitty.More c = true)
    /\ Forall (fun c => numericFields c = numericFields kitty.zero) new.
Proof.
  induction rounds as [|rounds IH]; intros cs b size cs' size' H; simpl in H.
  - destruct (kitty.DecodeCommand base64Decode fuel kitty.zero b) as [[c sz]| |] eqn:Ed;
      try discriminate H.
    apply DecodeCommand_spec in Ed as (Hsz & Hhi & Hnz).
    destruct (Z.eqb_spec sz 0) as [E0|E0].
    + inversion H; subst. exists []. rewrite app_nil_r. pose proof (len_nonneg b).
      split; [reflexivity|]. unfold len in *. cbn [length]. split; [lia|]. split; [lia|].
      split; [intros i c0 F; discriminate F | constructor].
    + destruct (negb (kitty.More c)); [|discriminate H].
      inversion H; subst. exists [c]. unfold len. cbn [length].
      split; [reflexivity|]. split; [lia|]. split; [unfold len in Hhi; lia|].
      split; [intros i c0 _ Hi; simpl in Hi; lia|].
      constructor; [apply Hnz; exact E0 | constructor].
  - destruct (kitty.DecodeCommand base64Decode fuel kitty.zero b) as [[c sz]| |] eqn:Ed;
      try discriminate H.
    apply DecodeCommand_spec in Ed as (Hsz & Hhi & Hnz).
    destruct (Z.eqb_spec sz 0) as [E0|E0].
    + inversion H; subst. exists []. rewrite app_nil_r. pose proof (len_nonneg b).
      split; [reflexivity|]. unfold len in *. cbn [length]. split; [lia|]. split; [lia|].
      split; [intros i c0 F; discriminate F | constructor].
    + destruct (negb (kitty.More c)) eqn:Em.
      * inversion H; subst. exists [c]. unfold len. cbn [length].
        split; [reflexivity|]. split; [lia|]. split; [unfold len in Hhi; lia|].
        split; [intros i c0 _ Hi; simpl in Hi; lia|].
        constructor; [apply Hnz; exact E0 | constructor].
      * apply IH in H as (new & -> & Hlo & Hup & Hmore & Hnum).
        exists (c :: new). rewrite <- app_assoc. split; [reflexivity|].
        unfold len in *. rewrite length_skipn in Hup. cbn [length].
        split; [lia|]. split; [lia|].
        split.
        { intros [|i] c0 Hl Hi; simpl in Hl.
          - inversion Hl; subst. apply negb_false_iff in Em. exact Em.
          - apply (Hmore i c0 Hl). simpl in Hi. lia. }
        constructor; [apply Hnz; exact E0 | exact Hnum].
Qed.

End KittyBounds.

(** Inputs [DecodeCommand] rejects at once: a buffer of fewer than five
    bytes, or one that does not start with [ESC _ G].  It returns 0 and leaves
    the command as it was. *)
Theorem DecodeCommand_rejects_without_prefix (base64Decode : bytes -> option bytes)
    (fuel : nat) (c : kitty.Command) (b : bytes) :
  len b < 5 \/ firstn 3 b <> commandPrefix ->
  kitty.DecodeCommand base64Decode fuel c b = Returns (c, 0).
Proof.
  intros H. unfold kitty.DecodeCommand.
  destruct b as [|b0 [|b1 [|b2 rest]]]; try reflexivity.
  destruct (Z.ltb_spec (len (b0 :: b1 :: b2 :: rest)) 5) as [E5|E5]; [reflexivity|].
  destruct H as [H|H]; [lia|]. cbn [orb].
  destruct (Byte.eqb b0 x1b) eqn:E0; [|reflexivity].
  destruct (Byte.eqb b1 "_"%byte) eqn:E1; [|reflexivity].
  destruct (Byte.eqb b2 "G"%byte) eqn:E2; [|reflexivity].
  apply Byte.byte_dec_bl in E0, E1, E2. subst. exfalso. apply H. reflexivity.
Qed.

Lemma DecodeCommand_rejects_without_prefix_witness :
  kitty.DecodeCommand (fun _ => None) 0 kitty.zero (str "_Ga=T;") = Returns (kitty.zero, 0).
Proof.
  apply (DecodeCommand_rejects_without_prefix (fun _ => None) 0 kitty.zero (str "_Ga=T;")).
  right. discriminate.
Defined.

(** The number [DecodeCommand] returns.  When it returns, the number is 0
    or at least 6 and at most the length of the buffer; when it is not 0 the
    buffer starts with [ESC _ G] and the two bytes before the offset returned
    are the terminator [ESC \]. *)
Theorem DecodeCommand_size (base64Decode : bytes -> option bytes) (fuel : nat)
    (c c' : kitty.Command) (b : bytes) (sz : Z) :
  kitty.DecodeCommand base64Decode fuel c b = Returns (c', sz) ->
  (sz = 0 \/ 6 <= sz) /\ sz <= len b
  /\ (sz <> 0 ->
      firstn 3 b = commandPrefix
      /\ b !! Z.to_nat (sz - 2) = Some x1b /\ b !! Z.to_nat (sz - 1) = Some x5c).
Proof.
  intros H. apply DecodeCommand_spec in H as (A & B & C).
  split; [exact A|]. split; [exact B|]. intros Hnz.
  destruct (C Hnz) as (C1 & C2 & C3 & _). split; [exact C1|]. split; [exact C2 | exact C3].
Qed.

(** No number is decoded.  Whatever the input, a command [DecodeCommand]
    accepts has all its numeric fields (format, width, height, size, offset,
    id, number, placement) and its medium at zero: the decoder of numbers
    accepts no value, and no key is bound to the medium. *)
Theorem DecodeCommand_decodes_no_number (base64Decode : bytes -> option bytes) (fuel : nat)
    (c c' : kitty.Command) (b : bytes) (sz : Z) :
  kitty.DecodeCommand base64Decode fuel c b = Returns (c', sz) -> sz <> 0 ->
  numericFields c' = [0; 0; 0; 0; 0; 0; 0; 0] /\ kitty.Medium c' = x00.
Proof.
  intros H Hnz. apply DecodeCommand_spec in H as (_ & _ & C).
  destruct (C Hnz) as (_ & _ & _ & C4 & C5). split; [exact C4 | exact C5].
Qed.

(** [DecodeCommands].  When it returns, the size is at most the length of
    the buffer and at least six bytes for each command, every command but
    the last has its more flag set, and no command holds a number. *)
Theorem DecodeCommands_result (base64Decode : bytes -> option bytes) (fuel : nat)
    (b : bytes) (cs : list kitty.Command) (size : Z) :
  kitty.DecodeCommands base64Decode fuel b = Returns (cs, size) ->
  6 * len cs <= size /\ size <= len b
  /\ (forall i c, cs !! i = Some c -> (S i < length cs)%nat -> kitty.More c = true)
  /\ Forall (fun c => numericFields c = [0; 0; 0; 0; 0; 0; 0; 0]) cs.
Proof.
  intros H. unfold kitty.DecodeCommands in H.
  apply DecodeCommandsLoop_spec in H as (new & -> & Hlo & Hup & Hmore & Hnum).
  simpl. split; [lia|]. split; [lia|]. split; [exact Hmore | exact Hnum].
Qed.

(** A command with an action and a payload of four bytes, and a decoder for
    the payload that answers with zero bytes of the expected number. *)
Lemma DecodeCommand_size_witness :
  exists c' sz,
    kitty.DecodeCommand (fun p => Some (repeat x00 (Z.to_nat (kitty.DecodedLen (len p))))) 0
      kitty.zero ([escape] ++ str "_Ga=T;AAAA" ++ [escape; x5c]) = Returns (c', sz)
    /\ (sz = 0 \/ 6 <= sz) /\ sz <= 13.
Proof.
  pose (dec := fun p : bytes => Some (repeat x00 (Z.to_nat (kitty.DecodedLen (len p))))).
  pose (b := [escape] ++ str "_Ga=T;AAAA" ++ [escape; x5c]).
  pose (res := match kitty.DecodeCommand dec 0 kitty.zero b with
               | Returns x => x | _ => (kitty.zero, 0) end).
  assert (E : kitty.DecodeCommand dec 0 kitty.zero b = Returns (fst res, snd res))
    by (vm_compute; reflexivity).
  destruct (DecodeCommand_size dec 0 kitty.zero (fst res) b (snd res) E) as (H1 & H2 & _).
  exists (fst res), (snd res). split; [exact E|]. split; [exact H1 | exact H2].
Defined.

Lemma DecodeCommand_decodes_no_number_witness :
  exists c' sz,
    kitty.DecodeCommand (fun p => Some (repeat x00 (Z.to_nat (kitty.DecodedLen (len p))))) 0
      kitty.zero ([escape] ++ str "_Gq=2,a=T;AAAA" ++ [escape; x5c]) = Returns (c', sz)
    /\ kitty.Format c' = 0.
Proof.
  pose (dec := fun p : bytes => Some (repeat x00 (Z.to_nat (kitty.DecodedLen (len p))))).
  pose (b := [escape] ++ str "_Gq=2,a=T;AAAA" ++ [escape; x5c]).
  pose (res := match kitty.DecodeCommand dec 0 kitty.zero b with
               | Returns x => x | _ => (kitty.zero, 0) end).
  assert (E : kitty.DecodeCommand dec 0 kitty.zero b = Returns (fst res, snd res))
    by (vm_compute; reflexivity).
  exists (fst res), (snd res). split; [exact E|].
  destruct (DecodeCommand_decodes_no_number dec 0 kitty.zero (fst res) b (snd res) E)
    as [H _]; [vm_compute; intros F; discriminate F|].
  unfold numericFields in H. congruence.
Defined.

(** Two commands, the first with its more flag set. *)
Lemma DecodeCommands_result_witness :
  exists cs size,
    kitty.DecodeCommands (fun p => Some (repeat x00 (Z.to_nat (kitty.DecodedLen (len p))))) 0
      (([escape] ++ str "_Gm=1;AAAA" ++ [escape; x5c])
       ++ [escape] ++ str "_Gm=0;AAAA" ++ [escape; x5c]) = Returns (cs, size)
    /\ 6 * len cs <= size <= 26.
Proof.
  pose (dec := fun p : bytes => Some (repeat x00 (Z.to_nat (kitty.DecodedLen (len p))))).
  pose (b := ([escape] ++ str "_Gm=1;AAAA" ++ [escape; x5c])
             ++ [escape] ++ str "_Gm=0;AAAA" ++ [escape; x5c]).
  pose (res := match kitty.DecodeCommands dec 0 b with Returns x => x | _ => ([], 0) end).
  assert (E : kitty.DecodeCommands dec 0 b = Returns (fst res, snd res))
    by (vm_compute; reflexivity).
  exists (fst res), (snd res). split; [exact E|].
  destruct (DecodeCommands_result dec 0 b (fst res) (snd res) E) as (H1 & H2 & _).
  split; [exact H1 | exact H2].
Defined.

(** * Link destinations and titles *)

Section Links.

Lemma linkTitleDelimiter_from_spec title : forall prev,
  (linkTitleDelimiter_from prev title = x27
   /\ exists i, title !! i = Some x22
                /\ match i with
                   | O => match prev with None => True | Some p => p <> x5c end
                   | S j => title !! j <> Some x5c
                   end)
  \/ (linkTitleDelimiter_from prev title = x22
      /\ forall i, title !! i = Some x22 ->
                   match i with
                   | O => match prev with None => False | Some p => p = x5c end
                   | S j => title !! j = Some x5c
                   end).
Proof.
  induction title as [|c title IH]; intros prev.
  - right. split; [reflexivity|]. intros i H. destruct i; discriminate H.
  - simpl.
    destruct (Byte.eqb c x22
              && match prev with None => true | Some p => negb (Byte.eqb p x5c) end) eqn:E.
    + left. split; [reflexivity|]. exists 0%nat. apply andb_true_iff in E as [E1 E2].
      apply Byte.byte_dec_bl in E1. subst c. split; [reflexivity|].
      destruct prev as [p|]; [|exact I]. intros ->. discriminate E2.
    + destruct (IH (Some c)) as [[H1 (i & Hi & Hc)]|[H1 Hall]].
      * left. split; [exact H1|]. exists (S i). split; [exact Hi|].
        destruct i as [|j]; [simpl; congruence | exact Hc].
      * right. split; [exact H1|]. intros [|i] Hi.
        -- simpl in Hi. inversion Hi; subst c. simpl in E.
           destruct prev as [p|]; [|discriminate E].
           apply negb_false_iff in E. apply Byte.byte_dec_bl in E. exact E.
        -- specialize (Hall i Hi). destruct i as [|j]; [simpl; congruence | exact Hall].
Qed.

Lemma flat_map_escape_inj : forall a b : bytes,
  flat_map (fun c => if Byte.eqb c x3c || Byte.eqb c x3e then [x5c; c] else [c]) a
  = flat_map (fun c => if Byte.eqb c x3c || Byte.eqb c x3e then [x5c; c] else [c]) b ->
  a = b.
Proof.
  induction a as [|c a IH]; intros b H.
  - destruct b as [|d b]; [reflexivity|]. simpl in H.
    destruct (Byte.eqb d x3c || Byte.eqb d x3e); discriminate H.
  - destruct b as [|d b].
    { simpl in H. destruct (Byte.eqb c x3c || Byte.eqb c x3e); discriminate H. }
    simpl in H.
    destruct (Byte.eqb c x3c || Byte.eqb c x3e) eqn:Ec;
      destruct (Byte.eqb d x3c || Byte.eqb d x3e) eqn:Ed.
    + inversion H; subst. f_equal. apply IH. assumption.
    + (* c is an angle bracket, d is a backslash: the next byte of b would be c *)
      inversion H; subst d. destruct b as [|e b]; [discriminate|].
      match goal with Hx : _ :: _ = _ |- _ => simpl in Hx end.
      destruct (Byte.eqb e x3c || Byte.eqb e x3e) eqn:Ee.
      * match goal with Hx : c :: _ = _ |- _ => inversion Hx; subst c end.
        discriminate Ec.
      * match goal with Hx : c :: _ = _ |- _ => inversion Hx; subst e end.
        rewrite Ec in Ee. discriminate Ee.
    + inversion H; subst c. destruct a as [|e a]; [discriminate|].
      match goal with Hx : _ = _ :: _ |- _ => simpl in Hx end.
      destruct (Byte.eqb e x3c || Byte.eqb e x3e) eqn:Ee.
      * match goal with Hx : _ = d :: _ |- _ => inversion Hx; subst d end.
        discriminate Ed.
      * match goal with Hx : _ = d :: _ |- _ => inversion Hx; subst e end.
        rewrite Ed in Ee. discriminate Ee.
    + inversion H; subst. f_equal. apply IH. assumption.
Qed.

Lemma In_flat_map_escape (c : byte) (a : bytes) :
  In c a ->
  In c (flat_map (fun c => if Byte.eqb c x3c || Byte.eqb c x3e then [x5c; c] else [c]) a).
Proof.
  intros H. apply in_flat_map. exists c. split; [exact H|].
  destruct (Byte.eqb c x3c || Byte.eqb c x3e); simpl; auto.
Qed.

Lemma escapeLinkDest_brackets_differ (a b : bytes) :
  existsb needsBrackets a = true -> existsb needsBrackets b = false ->
  escapeLinkDest a <> escapeLinkDest b.
Proof.
  intros Ha Hb H. unfold escapeLinkDest in H. fold needsBrackets in H.
  change (fun c : byte => (b2z c <=? 32) || Byte.eqb c x28 || Byte.eqb c x29 || (b2z c =? 127))
    with needsBrackets in H.
  rewrite Ha, Hb in H. cbn [negb] in H.
  apply existsb_exists in Ha as (c & Hin & Hc).
  assert (Hinb : In c b).
  { rewrite <- H. apply in_or_app. right. apply in_or_app. left.
    apply In_flat_map_escape. exact Hin. }
  assert (F : existsb needsBrackets b = true) by (apply existsb_exists; eauto).
  congruence.
Qed.

End Links.

(** The delimiter of a link title.  [linkTitleDelimiter] answers with a
    single quote when the title holds a double quote that no backslash
    precedes, and with a double quote otherwise; no other byte is chosen. *)
Theorem linkTitleDelimiter_avoids_unescaped_quote (title : bytes) :
  (linkTitleDelimiter title = x27 /\ exists i, unescapedQuoteAt title i)
  \/ (linkTitleDelimiter title = x22 /\ forall i, ~ unescapedQuoteAt title i).
Proof.
  unfold linkTitleDelimiter, unescapedQuoteAt.
  destruct (linkTitleDelimiter_from_spec title None) as [[H (i & Hi & Hc)]|[H Hall]].
  - left. split; [exact H|]. exists i. split; [exact Hi|]. destruct i; [exact I | exact Hc].
  - right. split; [exact H|]. intros i [Hi Hc]. specialize (Hall i Hi).
    destruct i as [|j]; [exact Hall | contradiction].
Qed.

(** Destinations are told apart.  [escapeLinkDest] maps two destinations
    that differ to two texts that differ, whether or not it adds angle
    brackets and backslashes. *)
Theorem escapeLinkDest_injective (a b : bytes) :
  a <> b -> escapeLinkDest a <> escapeLinkDest b.
Proof.
  intros Hne H.
  destruct (existsb needsBrackets a) eqn:Ea; destruct (existsb needsBrackets b) eqn:Eb.
  - apply Hne. unfold escapeLinkDest in H.
    change (fun c : byte => (b2z c <=? 32) || Byte.eqb c x28 || Byte.eqb c x29 || (b2z c =? 127))
      with needsBrackets in H.
    rewrite Ea, Eb in H. cbn [negb] in H.
    apply app_inv_head in H. apply app_inv_tail in H.
    apply flat_map_escape_inj. exact H.
  - exact (escapeLinkDest_brackets_differ a b Ea Eb H).
  - exact (escapeLinkDest_brackets_differ b a Eb Ea (eq_sym H)).
  - apply Hne. unfold escapeLinkDest in H.
    change (fun c : byte => (b2z c <=? 32) || Byte.eqb c x28 || Byte.eqb c x29 || (b2z c =? 127))
      with needsBrackets in H.
    rewrite Ea, Eb in H. exact H.
Qed.

(** A destination with a space, and the text it is rendered to taken as a
    destination. *)
Lemma escapeLinkDest_injective_witness :
  escapeLinkDest (str "a b") <> escapeLinkDest (str "<a b>").
Proof. apply (escapeLinkDest_injective (str "a b") (str "<a b>")). discriminate. Defined.

(** * The measuring pass of a table *)

Section TableMeasure.

Lemma growColumns_spec (cw : list Z) (col : nat) (n : Z) :
  (col <= length cw)%nat ->
  growColumns cw col n
  = firstn col cw ++ [Z.max (default 0 (cw !! col)) n] ++ skipn (S col) cw.
Proof.
  intros Hc. unfold growColumns.
  destruct (Nat.eq_dec col (length cw)) as [E|E].
  - subst col. replace (S (length cw) - length cw)%nat with 1%nat by lia. cbn [repeat].
    rewrite lookup_app_r by lia. rewrite Nat.sub_diag. cbn [lookup list_lookup].
    rewrite (lookup_ge_None_2 cw (length cw)) by lia. cbn [default id].
    rewrite firstn_all, skipn_all2 by lia.
    destruct (Z.ltb_spec 0 n) as [H|H].
    + rewrite insert_app_r_alt by lia. rewrite Nat.sub_diag. cbn [insert list_insert].
      rewrite Z.max_r by lia. reflexivity.
    + rewrite Z.max_l by lia. reflexivity.
  - replace (S col - length cw)%nat with 0%nat by lia. cbn [repeat]. rewrite app_nil_r.
    destruct (cw !! col) as [w|] eqn:El; [|apply lookup_ge_None_1 in El; lia].
    cbn [default id]. destruct (Z.ltb_spec w n) as [H|H].
    + rewrite Z.max_r by lia. apply insert_take_drop. lia.
    + rewrite Z.max_l by lia. symmetry. apply take_drop_middle. exact El.
Qed.

Lemma measureRow_widen row : forall cw cells col,
  (col <= length cw)%nat ->
  measureRow cw cells col row = (firstn col cw ++ widen (skipn col cw) row, cells ++ row).
Proof.
  induction row as [|n row IH]; intros cw cells col Hc; simpl.
  - rewrite app_nil_r. destruct (skipn col cw) eqn:E; rewrite <- E, firstn_skipn; reflexivity.
  - rewrite growColumns_spec by exact Hc.
    rewrite IH.
    2:{ rewrite !length_app, length_firstn. cbn [length]. lia. }
    rewrite <- app_assoc. cbn [app]. f_equal.
    assert (Hl : length (firstn col cw) = col) by (rewrite length_firstn; lia).
    rewrite firstn_app, Hl, firstn_firstn, Nat.min_r by lia.
    replace (S col - col)%nat with 1%nat by lia. cbn [firstn].
    rewrite skipn_app, Hl.
    rewrite (skipn_all2 (firstn col cw)) by lia.
    replace (S col - col)%nat with 1%nat by lia. cbn [skipn app].
    rewrite <- app_assoc. f_equal.
    destruct (skipn col cw) as [|w rest] eqn:E.
    + assert (Hlen : (length cw <= col)%nat).
      { apply (f_equal (@length Z)) in E. rewrite length_skipn in E. simpl in E. lia. }
      rewrite (lookup_ge_None_2 cw col) by lia.
      rewrite skipn_all2 by lia. reflexivity.
    + assert (Hw : cw !! col = Some w).
      { rewrite <- (firstn_skipn col cw), lookup_app_r by (rewrite length_firstn; lia).
        rewrite E, length_firstn.
        assert (col < length cw)%nat.
        { apply (f_equal (@length Z)) in E. rewrite length_skipn in E. simpl in E. lia. }
        replace (col - Nat.min col (length cw))%nat with 0%nat by lia. reflexivity. }
      rewrite Hw. cbn [default id app widen]. f_equal. f_equal.
      change (S col) with (1 + col)%nat. rewrite <- skipn_skipn, E. reflexivity.
Qed.

Lemma widen_length cw : forall row, length (widen cw row) = Nat.max (length cw) (length row).
Proof.
  induction cw as [|w cw IH]; intros row.
  - induction row as [|n row IHr]; [reflexivity|]. cbn [widen length]. rewrite IHr.
    simpl. reflexivity.
  - destruct row as [|n row]; [cbn [widen length]; lia|]. cbn [widen length]. rewrite IH.
    lia.
Qed.

Lemma widen_lookup cw : forall row j,
  Forall (fun w => 0 <= w) cw ->
  default 0 (widen cw row !! j) = Z.max (default 0 (cw !! j)) (default 0 (row !! j)).
Proof.
  induction cw as [|w cw IH]; intros row j Hcw.
  - revert j. induction row as [|n row IHr]; intros j; [destruct j; reflexivity|].
    destruct j as [|j]; [reflexivity|]. cbn [widen]. cbn [lookup list_lookup].
    exact (IHr j).
  - apply Forall_cons in Hcw as [Hw Hcw].
    destruct row as [|n row].
    + cbn [widen]. destruct j as [|j]; cbn [lookup list_lookup default id].
      * lia.
      * assert (0 <= default 0 (cw !! j)).
        { destruct (cw !! j) as [x|] eqn:E; cbn [default id]; [|lia].
          rewrite Forall_forall in Hcw. apply Hcw. apply (list_elem_of_lookup_2 _ j).
          exact E. }
        symmetry. apply Z.max_l. exact H.
    + destruct j as [|j]; [reflexivity|]. cbn [widen]. cbn [lookup list_lookup].
      exact (IH row j Hcw).
Qed.

Lemma widen_nonneg cw : forall row,
  Forall (fun w => 0 <= w) cw -> Forall (fun w => 0 <= w) (widen cw row).
Proof.
  induction cw as [|w cw IH]; intros row Hcw.
  - induction row as [|n row IHr]; [constructor|]. cbn [widen]. constructor; [lia | exact IHr].
  - apply Forall_cons in Hcw as [Hw Hcw]. destruct row as [|n row].
    + constructor; assumption.
    + cbn [widen]. constructor; [lia | apply IH; exact Hcw].
Qed.

Lemma measureRows_spec rows : forall cw cells,
  Forall (fun w => 0 <= w) cw ->
  exists cw',
    measureRows cw cells rows = (cw', cells ++ concat rows)
    /\ length cw' = Nat.max (length cw) (columnCount rows)
    /\ forall j, default 0 (cw' !! j) = Z.max (default 0 (cw !! j)) (columnMax rows j).
Proof.
  induction rows as [|row rows IH]; intros cw cells Hcw.
  - exists cw. simpl. rewrite app_nil_r. split; [reflexivity|]. split; [lia|].
    intros j. destruct (cw !! j) as [x|] eqn:E; cbn [default id]; [|lia].
    rewrite Forall_forall in Hcw.
    assert (0 <= x) by (apply Hcw; apply (list_elem_of_lookup_2 _ j); exact E). lia.
  - cbn [measureRows]. rewrite (measureRow_widen row cw cells 0) by lia.
    change (firstn 0 cw ++ widen (skipn 0 cw) row) with (widen cw row).
    destruct (IH (widen cw row) (cells ++ row) (widen_nonneg cw row Hcw))
      as (cw' & E & Hl & Hj).
    exists cw'. rewrite E. cbn [concat]. rewrite <- app_assoc.
    split; [reflexivity|]. split.
    + rewrite Hl, widen_length. cbn [columnCount]. lia.
    + intros j. rewrite Hj, widen_lookup by exact Hcw. cbn [columnMax]. lia.
Qed.

Lemma columnMax_nonneg rows j : 0 <= columnMax rows j.
Proof. induction rows as [|row rows IH]; simpl; lia. Qed.

End TableMeasure.

(** The measuring pass of [RenderTable].  From the widths of the cells,
    row by row, it keeps every width in the order of the cells, makes as
    many columns as the longest row has cells, and gives each column the
    greatest width of its cells. *)
Theorem measureRows_column_maxima (rows : list (list Z)) :
  exists columnWidths,
    measureRows [] [] rows = (columnWidths, concat rows)
    /\ length columnWidths = columnCount rows
    /\ forall j, (j < columnCount rows)%nat -> columnWidths !! j = Some (columnMax rows j).
Proof.
  destruct (measureRows_spec rows [] []) as (cw & E & Hl & Hj); [constructor|].
  exists cw. split; [exact E|]. split; [exact Hl|].
  intros j Hlt. specialize (Hj j).
  destruct (cw !! j) as [x|] eqn:El.
  - pose proof (columnMax_nonneg rows j) as Hn.
    replace (default 0 (@nil Z !! j)) with 0 in Hj by (destruct j; reflexivity).
    cbn [default id] in Hj. unfold id in Hj. f_equal. lia.
  - apply lookup_ge_None_1 in El. simpl in Hl. lia.
Qed.

(** * What a whole walk keeps *)

Section WalkAny.

Context (ext : Externals).

(** A relation between the state before and after that is reflexive and
    transitive and that every rendering function respects is respected by
    the walk of a tree. *)
Variable P : Renderer -> Renderer -> Prop.
Hypothesis P_refl : forall r, P r r.
Hypothesis P_trans : forall r1 r2 r3, P r1 r2 -> P r2 r3 -> P r1 r3.
Hypothesis P_node : forall ctx n measure enter, frames P (renderNode ext ctx n measure enter).

Lemma walkChildren_any n cs :
  Forall (fun c => forall ctx, frames P (walkHelper ext ctx c)) cs ->
  forall first prev, frames P (walkChildren ext n first prev cs).
Proof.
  induction 1 as [|c cs Hc Hcs IH]; intros first prev r b r' H; simpl in H.
  - inversion H; subst. apply P_refl.
  - apply bind_Ok in H as (st & r1 & H1 & H).
    eapply P_trans; [eapply Hc; exact H1|].
    destruct (isStop st); [inversion H; subst; apply P_refl | eapply IH; exact H].
Qed.

Lemma walkHelper_any n : forall ctx, frames P (walkHelper ext ctx n).
Proof.
  induction n as [d blank ws cs IHcs] using ast_Node_ind.
  intros ctx r st r' H. rewrite walkHelper_eq in H. cbv zeta in H.
  set (n := ast.mkNode d blank ws cs) in *.
  set (measure := fun cr => measureCells (walkHelper ext) cr (ast.children n)) in *.
  apply bind_Ok in H as (status & r1 & Henter & H).
  eapply P_trans; [exact (P_node ctx n measure true _ _ _ Henter)|].
  destruct (isStop status); [inversion H; subst; apply P_refl|].
  apply bind_Ok in H as (stopped & r2 & Hkids & H).
  assert (Hk : P r1 r2).
  { destruct (isSkipChildren status); [inversion Hkids; subst; apply P_refl|].
    exact (walkChildren_any n cs IHcs true None _ _ _ Hkids). }
  eapply P_trans; [exact Hk|].
  destruct stopped; [inversion H; subst; apply P_refl|].
  apply bind_Ok in H as (status' & r3 & Hexit & H).
  eapply P_trans; [exact (P_node ctx n measure false _ _ _ Hexit)|].
  destruct (isStop status'); inversion H; subst; apply P_refl.
Qed.

Lemma Render_any r doc r' : Render ext r doc = Ok r' -> P (set_sink [] r) r'.
Proof.
  unfold Render. intros H.
  destruct (walkHelper ext ast.rootContext doc (set_sink [] r)) as [[st r1]| |] eqn:E;
    inversion H; subst r1; clear H.
  exact (walkHelper_any doc _ _ _ _ E).
Qed.

End WalkAny.

Section WalkFrames.

Context (ext : Externals).

(** The same for a relation that holds across every step that leaves the
    spans alone, across [OpenSpan] and [CloseSpan], and across the switch of
    the image flag. *)
Variable P : Renderer -> Renderer -> Prop.
Hypothesis P_refl : forall r, P r r.
Hypothesis P_trans : forall r1 r2 r3, P r1 r2 -> P r2 r3 -> P r1 r3.
Hypothesis P_frame : forall r r', spanFrame r r' -> P r r'.
Hypothesis P_open : forall n, frames P (OpenSpan n).
Hypothesis P_close : frames P CloseSpan.
Hypothesis P_inImage : forall b r, P r (set_inImage b r).

Lemma opens_frames {A} (m : M A) : opensSpan m -> frames P m.
Proof.
  intros Hm r a r' H. destruct (Hm r a r' H) as (n & r0 & u & r1 & F1 & HO & F2).
  eapply P_trans; [apply P_frame; exact F1|].
  eapply P_trans; [eapply P_open; exact HO | apply P_frame; exact F2].
Qed.

Lemma closes_frames {A} (m : M A) : closesSpan m -> frames P m.
Proof.
  intros Hm r a r' H. destruct (Hm r a r' H) as (r0 & u & r1 & F1 & HC & F2).
  eapply P_trans; [apply P_frame; exact F1|].
  eapply P_trans; [eapply P_close; exact HC | apply P_frame; exact F2].
Qed.

Lemma RenderImage_frames n rt l d t enter : frames P (RenderImage ext n rt l d t enter).
Proof.
  intros r a r' H. unfold RenderImage in H.
  apply bind_Ok in H as (r0 & r1 & Hget & H). inversion Hget; subst r0 r1; clear Hget.
  assert (Hopen : opensSpan (renderLinkOrImage ext n (str "![") rt l d t true ;;
                             ret ast.WalkContinue)).
  { unfold renderLinkOrImage, WriteString. cbv beta iota. span_tac ext. }
  assert (Hclose : closesSpan (renderLinkOrImage ext n (str "![") rt l d t false ;;
                               ret ast.WalkContinue)).
  { unfold renderLinkOrImage, WriteString, WriteByte. cbv beta iota. span_tac ext. }
  assert (Hfb : frames P (renderLinkOrImage ext n (str "![") rt l d t enter ;;
                          ret ast.WalkContinue)).
  { destruct enter; [apply opens_frames; exact Hopen | apply closes_frames; exact Hclose]. }
  destruct (images r); [|exact (Hfb _ _ _ H)].
  destruct enter.
  - apply bind_Ok in H as (sent & r2 & Hsent & H).
    pose proof (P_frame _ _ (frames_renderImage ext d _ _ _ Hsent)) as F.
    destruct sent.
    + apply bind_Ok in H as (u & r3 & Hmod & H). inversion Hmod; subst; clear Hmod.
      inversion H; subst; clear H. eapply P_trans; [exact F | apply P_inImage].
    + eapply P_trans; [exact F | exact (Hfb _ _ _ H)].
  - destruct (inImage r); [|exact (Hfb _ _ _ H)].
    apply bind_Ok in H as (u & r3 & Hmod & H). inversion Hmod; subst; clear Hmod.
    inversion H; subst. apply P_inImage.
Qed.

Lemma renderNode_frames ctx n measure enter : frames P (renderNode ext ctx n measure enter).
Proof.
  destruct (spanKind (ast.data n)) eqn:Ek; [|destruct (isImage (ast.data n)) eqn:Ei].
  - destruct enter.
    + apply opens_frames. apply renderNode_opens. exact Ek.
    + apply closes_frames. apply renderNode_closes. exact Ek.
  - destruct n as [d blank ws cs]. simpl in Ei. destruct d; try discriminate Ei.
    unfold renderNode. simpl. apply RenderImage_frames.
  - intros r a r' H. apply P_frame. exact (renderNode_flat ext ctx n measure enter Ek Ei _ _ _ H).
Qed.

Lemma Render_frames r doc r' : Render ext r doc = Ok r' -> P (set_sink [] r) r'.
Proof. exact (Render_any ext P P_refl P_trans renderNode_frames r doc r'). Qed.

End WalkFrames.

(** ** Spans stay where they were opened *)

Lemma spanKept_refl s : spanKept s s.
Proof. unfold spanKept. repeat split. exists []. rewrite app_nil_r. reflexivity. Qed.

Lemma spanKept_trans s1 s2 s3 : spanKept s1 s2 -> spanKept s2 s3 -> spanKept s1 s3.
Proof.
  unfold spanKept. intros (A1 & A2 & A3 & A4 & m1 & A5) (B1 & B2 & B3 & B4 & m2 & B5).
  split; [congruence|]. split; [congruence|]. split; [congruence|]. split; [congruence|].
  exists (m1 ++ m2). rewrite B5, A5, app_assoc. reflexivity.
Qed.

Lemma spansKept_refl r : spansKept r r.
Proof. split; [lia|]. intros i s H. exists s. split; [exact H | apply spanKept_refl]. Qed.

Lemma spansKept_trans r1 r2 r3 : spansKept r1 r2 -> spansKept r2 r3 -> spansKept r1 r3.
Proof.
  intros [A1 A2] [B1 B2]. split; [lia|]. intros i s H.
  destruct (A2 i s H) as (s2 & H2 & K2). destruct (B2 i s2 H2) as (s3 & H3 & K3).
  exists s3. split; [exact H3 | eapply spanKept_trans; eassumption].
Qed.

Lemma spansKept_frame r r' : spanFrame r r' -> spansKept r r'.
Proof.
  intros F. apply spanFrame_fields in F as (_ & _ & _ & Hh & Hb).
  split; [exact Hb|]. intros i s H. exists s. rewrite Hh. split; [exact H | apply spanKept_refl].
Qed.

Lemma alter_kept (f : NodeSpan -> NodeSpan) (i : nat) (h : list NodeSpan) :
  (forall s, spanKept s (f s)) ->
  forall (j : nat) s,
    h !! j = Some s -> exists s', alter f i h !! j = Some s' /\ spanKept s s'.
Proof.
  intros Hf j s H. destruct (decide (i = j)) as [->|Hne].
  - rewrite list_lookup_alter_eq, H. exists (f s). split; [reflexivity | apply Hf].
  - rewrite list_lookup_alter_ne by exact Hne. exists s. split; [exact H | apply spanKept_refl].
Qed.

Lemma addChild_kept p s : spanKept s (addChild p s).
Proof. unfold spanKept. simpl. repeat split. exists [p]. reflexivity. Qed.

Lemma setNext_kept p s : spanKept s (setNext p s).
Proof. unfold spanKept. simpl. repeat split. exists []. rewrite app_nil_r. reflexivity. Qed.

Lemma setEnd_kept e s : spanKept s (setEnd e s).
Proof. unfold spanKept. simpl. repeat split. exists []. rewrite app_nil_r. reflexivity. Qed.

Lemma spansKept_OpenSpan n : frames spansKept (OpenSpan n).
Proof.
  intros r u r' H. apply OpenSpan_result in H as (Hh & _ & Hb & _).
  split; [lia|]. intros i s Hi. rewrite Hh. unfold openedHeap.
  assert (H1 : exists s1, match top (spanStack r) with
                          | Some q => alter (addChild (length (heap r))) q (heap r)
                          | None => heap r
                          end !! i = Some s1 /\ spanKept s s1).
  { destruct (top (spanStack r)).
    - apply alter_kept; [apply addChild_kept | exact Hi].
    - exists s. split; [exact Hi | apply spanKept_refl]. }
  destruct H1 as (s1 & H1 & K1).
  assert (H2 : exists s2, match lastSpan r with
                          | Some l => alter (setNext (length (heap r))) l
                                        match top (spanStack r) with
                                        | Some q => alter (addChild (length (heap r))) q (heap r)
                                        | None => heap r
                                        end
                          | None => match top (spanStack r) with
                                    | Some q => alter (addChild (length (heap r))) q (heap r)
                                    | None => heap r
                                    end
                          end !! i = Some s2 /\ spanKept s1 s2).
  { destruct (lastSpan r).
    - apply alter_kept; [apply setNext_kept | exact H1].
    - exists s1. split; [exact H1 | apply spanKept_refl]. }
  destruct H2 as (s2 & H2 & K2).
  exists s2. split; [|eapply spanKept_trans; eassumption].
  apply lookup_app_l_Some. exact H2.
Qed.

Lemma spansKept_CloseSpan : frames spansKept CloseSpan.
Proof.
  intros r u r' H. apply CloseSpan_result in H as (p & _ & Hh & Hb & _).
  split; [lia|]. intros i s Hi. rewrite Hh.
  apply alter_kept; [apply setEnd_kept | exact Hi].
Qed.

Lemma spansKept_inImage b r : spansKept r (set_inImage b r).
Proof. split; [simpl; lia|]. intros i s H. exists s. split; [exact H | apply spanKept_refl]. Qed.

(** ** Spans are linked in the order in which they are opened *)

Lemma keepsLinked_frame r r' : spanFrame r r' -> keepsLinked r r'.
Proof.
  unfold spanFrame, keepsLinked, linked.
  intros (_ & _ & _ & _ & _ & Hl & _ & _ & Hh & _) [L1 L2].
  rewrite Hh, Hl. split; assumption.
Qed.

Lemma keepsLinked_CloseSpan : frames keepsLinked CloseSpan.
Proof.
  intros r u r' H. unfold CloseSpan in H.
  destruct (top (spanStack r)) as [p|]; [|discriminate H].
  inversion H; subst; clear H. unfold keepsLinked, linked.
  cbn [heap lastSpan set_spanStack set_heap]. intros [L1 L2].
  rewrite length_alter. split; [exact L1|]. intros i s Hi.
  destruct (decide (p = i)) as [->|Hne].
  - rewrite list_lookup_alter_eq in Hi. destruct (heap r !! i) as [s0|] eqn:E; [|discriminate].
    cbn [fmap option_fmap option_map] in Hi. inversion Hi; subst s.
    cbn [Prev Next setEnd]. exact (L2 i s0 E).
  - rewrite list_lookup_alter_ne in Hi by exact Hne. exact (L2 i s Hi).
Qed.

Lemma keepsLinked_inImage b r : keepsLinked r (set_inImage b r).
Proof. unfold keepsLinked, linked. simpl. tauto. Qed.

Lemma lookup_alter_addChild p (q : nat) (h : list NodeSpan) (i : nat) s :
  alter (addChild p) q h !! i = Some s ->
  exists s0, h !! i = Some s0 /\ Prev s = Prev s0 /\ Next s = Next s0.
Proof.
  destruct (decide (q = i)) as [->|Hne].
  - rewrite list_lookup_alter_eq. destruct (h !! i) as [s0|]; [|discriminate].
    simpl. intros H. inversion H; subst. exists s0. repeat split.
  - rewrite list_lookup_alter_ne by exact Hne. intros H. exists s. repeat split. exact H.
Qed.

Lemma keepsLinked_OpenSpan n : frames keepsLinked (OpenSpan n).
Proof.
  intros r u r' H. unfold OpenSpan in H. inversion H; subst; clear H.
  unfold keepsLinked, linked.
  cbn [heap lastSpan set_spanStack set_lastSpan set_rootSpan set_heap].
  intros [L1 L2].
  remember (length (heap r)) as p eqn:Ep.
  assert (Hlast : match lastSpan r with Some l => p = S l | None => p = 0%nat end).
  { rewrite L1. destruct p; reflexivity. }
  set (h1 := match top (spanStack r) with
             | Some q => alter (addChild p) q (heap r)
             | None => heap r
             end).
  assert (Hl1 : length h1 = p).
  { unfold h1. destruct (top (spanStack r)); [rewrite length_alter|]; symmetry; exact Ep. }
  assert (H1 : forall (i : nat) s, h1 !! i = Some s ->
                 exists s0, heap r !! i = Some s0 /\ Prev s = Prev s0 /\ Next s = Next s0).
  { unfold h1. intros i s Hi. destruct (top (spanStack r)).
    - exact (lookup_alter_addChild _ _ _ _ _ Hi).
    - exists s. repeat split. exact Hi. }
  set (h2 := match lastSpan r with
             | Some l => alter (setNext p) l h1
             | None => h1
             end).
  assert (Hl2 : length h2 = p).
  { unfold h2. destruct (lastSpan r); [rewrite length_alter|]; exact Hl1. }
  rewrite length_app, Hl2. cbn [length]. replace (p + 1)%nat with (S p) by lia.
  split; [reflexivity|].
  intros i s Hi.
  destruct (Nat.lt_ge_cases i p) as [Hlt|Hge].
  - rewrite lookup_app_l in Hi by lia.
    replace (S i =? S p)%nat with false by (symmetry; apply Nat.eqb_neq; lia).
    unfold h2 in Hi. destruct (lastSpan r) as [l|] eqn:El; [|lia].
    destruct (decide (l = i)) as [->|Hne].
    + rewrite list_lookup_alter_eq in Hi.
      destruct (h1 !! i) as [s1|] eqn:E1; [|discriminate Hi].
      cbn [fmap option_fmap option_map] in Hi. inversion Hi; subst s.
      cbn [Prev Next setNext].
      destruct (H1 i s1 E1) as (s0 & E0 & Hprev & _). rewrite Hprev.
      split; [exact (proj1 (L2 i s0 E0)) | congruence].
    + rewrite list_lookup_alter_ne in Hi by exact Hne.
      destruct (H1 i s Hi) as (s0 & E0 & Hprev & Hnext). rewrite Hprev, Hnext.
      destruct (L2 i s0 E0) as [A B]. split; [exact A|]. rewrite B.
      replace (S i =? p)%nat with false by (symmetry; apply Nat.eqb_neq; lia).
      reflexivity.
  - rewrite lookup_app_r in Hi by lia. rewrite Hl2 in Hi.
    destruct (i - p)%nat as [|k] eqn:Ek; [|destruct k; discriminate Hi].
    assert (i = p) by lia. subst i. cbn [lookup list_lookup] in Hi.
    inversion Hi; subst s. cbn [Prev Next].
    rewrite Nat.eqb_refl. split; [|reflexivity].
    rewrite L1. reflexivity.
Qed.

Lemma keepsLinked_refl r : keepsLinked r r.
Proof. unfold keepsLinked. tauto. Qed.

Lemma keepsLinked_trans r1 r2 r3 : keepsLinked r1 r2 -> keepsLinked r2 r3 -> keepsLinked r1 r3.
Proof. unfold keepsLinked. tauto. Qed.

Lemma Render_linked ext r doc r' : Render ext r doc = Ok r' -> linked r -> linked r'.
Proof.
  intros H L.
  refine (Render_frames ext keepsLinked keepsLinked_refl keepsLinked_trans keepsLinked_frame
            keepsLinked_OpenSpan keepsLinked_CloseSpan keepsLinked_inImage r doc r' H _).
  exact L.
Qed.

Lemma completed_linked ext r : completed ext r -> linked r.
Proof.
  induction 1 as [th w hl im mw cr sb doc r' H | r doc r' _ IH H].
  - apply (Render_linked ext _ _ _ H). unfold linked. simpl. split; [reflexivity|].
    intros i s F. destruct i; discriminate F.
  - exact (Render_linked ext _ _ _ H IH).
Qed.

(** Opened spans stay.  A render that returns normally leaves every span
    that was on the heap before it in its place, with its start, its node,
    its parent and its link to the previous span; children are only added at
    the end of its list of children.  The byte offset does not go back. *)
Theorem Render_keeps_opened_spans (ext : Externals) (r r' : Renderer) (doc : ast.Node) :
  Render ext r doc = Ok r' ->
  byteOffset r <= byteOffset r'
  /\ forall i s, heap r !! i = Some s ->
       exists s', heap r' !! i = Some s'
                  /\ Start s' = Start s /\ Node s' = Node s /\ Parent s' = Parent s
                  /\ Prev s' = Prev s /\ exists more, Children s' = Children s ++ more.
Proof.
  intros H.
  exact (Render_frames ext spansKept spansKept_refl spansKept_trans spansKept_frame
           spansKept_OpenSpan spansKept_CloseSpan spansKept_inImage r doc r' H).
Qed.

(** The heading rendered a second time with the same renderer: the root
    span of the first render is still at index 0 and still starts at 0. *)
Lemma Render_keeps_opened_spans_witness :
  exists r1 r2 s s',
    Render stdExt (plain 3) headingT = Ok r1 /\ Render stdExt r1 headingT = Ok r2
    /\ heap r1 !! 0%nat = Some s /\ heap r2 !! 0%nat = Some s' /\ Start s' = Start s.
Proof.
  pose (r1 := match Render stdExt (plain 3) headingT with Ok r => r | _ => plain 3 end).
  pose (r2 := match Render stdExt r1 headingT with Ok r => r | _ => plain 3 end).
  pose (s := match heap r1 !! 0%nat with Some s => s | None =>
               {| Start := 0; End_ := 0; Node := headingT; Parent := None; Next := None;
                  Prev := None; Children := [] |} end).
  assert (E1 : Render stdExt (plain 3) headingT = Ok r1) by (vm_compute; reflexivity).
  assert (E2 : Render stdExt r1 headingT = Ok r2) by (vm_compute; reflexivity).
  assert (Es : heap r1 !! 0%nat = Some s) by (vm_compute; reflexivity).
  destruct (Render_keeps_opened_spans stdExt r1 r2 headingT E2) as [_ H].
  destruct (H 0%nat s Es) as (s' & Es' & Hstart & _).
  exists r1, r2, s, s'. split; [exact E1|]. split; [exact E2|]. split; [exact Es|].
  split; [exact Es' | exact Hstart].
Defined.

(** The links between spans.  After every completed render the spans are
    linked in the order in which [OpenSpan] made them: the k-th span has the
    span before it as [Prev] and the span after it as [Next], the first span
    has no [Prev], the last span has no [Next] and is the renderer's last
    span. *)
Theorem completed_render_links_spans (ext : Externals) (r : Renderer) :
  completed ext r ->
  lastSpan r = match length (heap r) with O => None | S k => Some k end
  /\ forall i s, heap r !! i = Some s ->
       Prev s = match i with O => None | S j => Some j end
       /\ Next s = if (S i =? length (heap r))%nat then None else Some (S i).
Proof. exact (completed_linked ext r). Qed.

(** Scenario 1: the document, the heading and its text are linked in this
    order. *)
Lemma completed_render_links_spans_witness :
  exists r s, Render stdExt (plain 10) scenario1 = Ok r
              /\ heap r !! 1%nat = Some s /\ Prev s = Some 0%nat /\ Next s = Some 2%nat.
Proof.
  pose (r := match Render stdExt (plain 10) scenario1 with Ok r => r | _ => plain 10 end).
  pose (s := match heap r !! 1%nat with Some s => s | None =>
               {| Start := 0; End_ := 0; Node := scenario1; Parent := None; Next := None;
                  Prev := None; Children := [] |} end).
  assert (E : Render stdExt (plain 10) scenario1 = Ok r) by (vm_compute; reflexivity).
  assert (Es : heap r !! 1%nat = Some s) by (vm_compute; reflexivity).
  assert (C : completed stdExt r)
    by exact (completed_first stdExt None 10 false false 0 [] false scenario1 r E).
  destruct (completed_render_links_spans stdExt r C) as [_ H].
  destruct (H 1%nat s Es) as [Hp Hn].
  exists r, s. split; [exact E|]. split; [exact Es|]. split; [exact Hp|].
  rewrite Hn. vm_compute. reflexivity.
Defined.

(** Every span is closed.  After every completed render no span is left on
    the span stack, and the renderer is not inside an image. *)
Theorem completed_render_closes_spans (ext : Externals) (r : Renderer) :
  completed ext r -> spanStack r = [] /\ inImage r = false.
Proof.
  intros H. destruct (completed_Inv ext r H) as (_ & Him & Hs). split; assumption.
Qed.

Lemma completed_render_closes_spans_witness :
  exists r, Render stdExt (plain 10) scenario1 = Ok r /\ spanStack r = [].
Proof.
  pose (r := match Render stdExt (plain 10) scenario1 with Ok r => r | _ => plain 10 end).
  assert (E : Render stdExt (plain 10) scenario1 = Ok r) by (vm_compute; reflexivity).
  exists r. split; [exact E|].
  exact (proj1 (completed_render_closes_spans stdExt r
                  (completed_first stdExt None 10 false false 0 [] false scenario1 r E))).
Defined.

(** * Rendering leaves the options alone *)

Lemma optionsKept_refl r : optionsKept r r.
Proof. unfold optionsKept. repeat split. Qed.

Lemma optionsKept_trans r1 r2 r3 : optionsKept r1 r2 -> optionsKept r2 r3 -> optionsKept r1 r3.
Proof. unfold optionsKept. intuition congruence. Qed.

Lemma textFrame_optionsKept r r' : textFrame r r' -> optionsKept r r'.
Proof. unfold textFrame, optionsKept. intuition. Qed.

Create HintDb options.

Ltac options_fields :=
  intros; unfold optionsKept;
  repeat match goal with
         | |- context [if ?c then _ else _] => destruct c
         | |- context [match ?c with _ => _ end] => destruct c
         end;
  simpl; repeat split; reflexivity.

(** Walks down a method as [frames_tac] does, for the relation
    [optionsKept]. *)
Ltac options_tac :=
  lazymatch goal with
  | |- frames _ (bind _ _) =>
    apply frames_bind; [exact optionsKept_trans | options_tac | intros ?; options_tac]
  | |- frames _ (ret _) => apply frames_ret; exact optionsKept_refl
  | |- frames _ get => apply frames_get; exact optionsKept_refl
  | |- frames _ (lift _) => apply frames_lift; exact optionsKept_refl
  | |- frames _ (raise _) => apply frames_raise
  | |- frames _ (fail _) => apply frames_fail
  | |- frames _ (when _ _) => apply frames_when; [exact optionsKept_refl | options_tac]
  | |- frames _ (modify _) => apply frames_modify; options_fields
  | |- frames _ (forEach _ _) =>
    apply frames_forEach;
      [exact optionsKept_refl | exact optionsKept_trans | intros ?; options_tac]
  | |- frames _ (mapM _ _) =>
    apply frames_mapM;
      [exact optionsKept_refl | exact optionsKept_trans | intros ?; options_tac]
  | |- frames _ (if ?c then _ else _) => destruct c; options_tac
  | |- frames _ (match ?c with _ => _ end) => destruct c; options_tac
  | |- _ =>
    first [ solve [auto with options]
          | apply (frames_weaken textFrame optionsKept _ textFrame_optionsKept);
            solve [auto with frames] ]
  end.

Section OptionsKept.

Context (ext : Externals).

Lemma options_OpenSpan n : frames optionsKept (OpenSpan n).
Proof. intros r a r' H. unfold OpenSpan in H. inversion H; subst. options_fields. Qed.

Lemma options_CloseSpan : frames optionsKept CloseSpan.
Proof.
  intros r a r' H. unfold CloseSpan in H. destruct (top (spanStack r)); inversion H; subst.
  options_fields.
Qed.

Lemma options_PushPrefix p : frames optionsKept (PushPrefix p).
Proof. unfold PushPrefix. options_tac. Qed.

Hint Resolve options_OpenSpan options_CloseSpan options_PushPrefix : options.

Lemma options_PushIndent n : frames optionsKept (PushIndent n).
Proof. unfold PushIndent. options_tac. Qed.

Lemma options_PopPrefix : frames optionsKept PopPrefix.
Proof.
  intros r a r' H. unfold PopPrefix in H.
  destruct (top (prefixStack r)); [|discriminate].
  destruct (len (prefix r) <? len l); inversion H; subst. options_fields.
Qed.

Lemma options_PushWordWrap b : frames optionsKept (PushWordWrap b).
Proof. unfold PushWordWrap. options_tac. Qed.

Lemma options_PopWordWrap : frames optionsKept PopWordWrap.
Proof.
  intros r a r' H. unfold PopWordWrap in H.
  destruct (wrapping r); inversion H; subst. options_fields.
Qed.

Lemma options_PushStyle t : frames optionsKept (PushStyle ext t).
Proof. unfold PushStyle. options_tac. Qed.

Lemma options_PopStyle : frames optionsKept (PopStyle ext).
Proof. unfold PopStyle. options_tac. Qed.

Lemma options_topListState : frames optionsKept topListState.
Proof.
  intros r a r' H. unfold topListState in H. destruct (top (listStack r)); inversion H; subst.
  apply optionsKept_refl.
Qed.

Lemma options_topTableState : frames optionsKept topTableState.
Proof.
  intros r a r' H. unfold topTableState in H. destruct (top (tableStack r)); inversion H; subst.
  apply optionsKept_refl.
Qed.

Lemma options_updateTableState f : frames optionsKept (updateTableState f).
Proof.
  intros r a r' H. unfold updateTableState in H.
  destruct (top (tableStack r)); inversion H; subst. options_fields.
Qed.

Lemma options_markFresh : frames optionsKept markFresh.
Proof.
  intros r a r' H. unfold markFresh in H. destruct (top (openBlocks r)); inversion H; subst.
  options_fields.
Qed.

Lemma options_popOpenBlock : frames optionsKept popOpenBlock.
Proof.
  intros r a r' H. unfold popOpenBlock in H. destruct (openBlocks r); inversion H; subst.
  options_fields.
Qed.

Lemma options_popListState : frames optionsKept popListState.
Proof.
  intros r a r' H. unfold popListState in H. destruct (listStack r); inversion H; subst.
  options_fields.
Qed.

Lemma options_popTableState : frames optionsKept popTableState.
Proof.
  intros r a r' H. unfold popTableState in H. destruct (tableStack r); inversion H; subst.
  options_fields.
Qed.

Hint Resolve options_PushIndent options_PopPrefix options_PushWordWrap options_PopWordWrap
  options_PushStyle options_PopStyle options_topListState options_topTableState
  options_updateTableState options_markFresh options_popOpenBlock options_popListState
  options_popTableState : options.

Lemma options_imageChunks fuel : forall first data,
  frames optionsKept (imageChunks fuel first data).
Proof.
  induction fuel as [|fuel IH]; intros first data; simpl.
  - destruct data; options_tac.
  - destruct data as [|b data]; [options_tac|].
    repeat (apply frames_bind; [exact optionsKept_trans | options_tac | intros _]). apply IH.
Qed.

Lemma options_borderColumns widths : forall i join,
  frames optionsKept (borderColumns ext i widths join).
Proof.
  induction widths as [|w widths IH]; intros i join; simpl.
  - options_tac.
  - repeat (apply frames_bind;
            [exact optionsKept_trans | unfold WriteRune, WriteString; options_tac | intros ?]).
    apply IH.
Qed.

Hint Resolve options_imageChunks options_borderColumns : options.

Lemma options_renderNode ctx n measure enter :
  frames optionsKept (renderNode ext ctx n measure enter).
Proof.
  destruct n as [d blank ws cs]. unfold renderNode, ast.data.
  destruct d; destruct enter;
    unfold RenderDocument, RenderHeading, RenderBlockquote, RenderCodeBlock,
      RenderFencedCodeBlock, RenderHTMLBlock, RenderLinkReferenceDefinition, RenderList,
      RenderListItem, RenderParagraph, RenderTextBlock, RenderThematicBreak, RenderTable,
      RenderTableHeader, RenderTableRow, RenderTableCell, RenderAutoLink, RenderCodeSpan,
      RenderEmphasis, RenderImage, RenderLink, renderLinkOrImage, renderHyperlink,
      RenderRawHTML, RenderText, RenderString, RenderWhitespace, OpenBlock, CloseBlock,
      renderTableBorder, renderImage, writeCodeLines, writeCode, writeLines,
      WriteString, WriteRune, WriteByte;
    cbn [negb]; cbv beta iota zeta; options_tac.
Qed.

Lemma Render_options r doc r' : Render ext r doc = Ok r' -> optionsKept r r'.
Proof.
  intros H.
  exact (Render_any ext optionsKept optionsKept_refl optionsKept_trans options_renderNode
           r doc r' H).
Qed.

End OptionsKept.

(** The options are not touched.  A render that returns normally leaves
    the theme, the wrap width, the hyperlink and image switches, the greatest
    image width, the content root and the soft-break switch of the renderer as
    they were. *)
Theorem Render_keeps_options (ext : Externals) (r r' : Renderer) (doc : ast.Node) :
  Render ext r doc = Ok r' ->
  theme r' = theme r /\ wordWrap r' = wordWrap r /\ hyperlinks r' = hyperlinks r
  /\ images r' = images r /\ maxImageWidth r' = maxImageWidth r
  /\ contentRoot r' = contentRoot r /\ softBreak r' = softBreak r.
Proof. exact (Render_options ext r doc r'). Qed.

Lemma Render_keeps_options_witness :
  exists r', Render stdExt (plain 10) scenario2 = Ok r' /\ wordWrap r' = 10.
Proof.
  pose (r' := match Render stdExt (plain 10) scenario2 with Ok r => r | _ => plain 10 end).
  assert (E : Render stdExt (plain 10) scenario2 = Ok r') by (vm_compute; reflexivity).
  exists r'. split; [exact E|].
  exact (proj1 (proj2 (Render_keeps_options stdExt (plain 10) r' scenario2 E))).
Defined.

(** * The line prefix and the prefix stack *)

Lemma keepsPrefix_refl r : keepsPrefix r r.
Proof. unfold keepsPrefix. tauto. Qed.

Lemma keepsPrefix_trans r1 r2 r3 : keepsPrefix r1 r2 -> keepsPrefix r2 r3 -> keepsPrefix r1 r3.
Proof. unfold keepsPrefix. tauto. Qed.

Lemma textFrame_keepsPrefix r r' : textFrame r r' -> keepsPrefix r r'.
Proof.
  unfold textFrame, keepsPrefix, prefixInv.
  intros (_ & _ & _ & _ & _ & _ & _ & _ & _ & _ & _ & _ & _ & _ & Hs & Hp & _) H.
  rewrite Hs, Hp. exact H.
Qed.

Create HintDb prefixes.

Ltac prefix_fields :=
  intros; unfold keepsPrefix, prefixInv;
  repeat match goal with
         | |- context [if ?c then _ else _] => destruct c
         | |- context [match ?c with _ => _ end] => destruct c
         end;
  simpl; first [tauto | intros _; reflexivity].

(** Walks down a method as [frames_tac] does, for the relation
    [keepsPrefix]. *)
Ltac prefix_tac :=
  lazymatch goal with
  | |- frames _ (bind _ _) =>
    apply frames_bind; [exact keepsPrefix_trans | prefix_tac | intros ?; prefix_tac]
  | |- frames _ (ret _) => apply frames_ret; exact keepsPrefix_refl
  | |- frames _ get => apply frames_get; exact keepsPrefix_refl
  | |- frames _ (lift _) => apply frames_lift; exact keepsPrefix_refl
  | |- frames _ (raise _) => apply frames_raise
  | |- frames _ (fail _) => apply frames_fail
  | |- frames _ (when _ _) => apply frames_when; [exact keepsPrefix_refl | prefix_tac]
  | |- frames _ (modify _) => apply frames_modify; prefix_fields
  | |- frames _ (forEach _ _) =>
    apply frames_forEach;
      [exact keepsPrefix_refl | exact keepsPrefix_trans | intros ?; prefix_tac]
  | |- frames _ (mapM _ _) =>
    apply frames_mapM;
      [exact keepsPrefix_refl | exact keepsPrefix_trans | intros ?; prefix_tac]
  | |- frames _ (if ?c then _ else _) => destruct c; prefix_tac
  | |- frames _ (match ?c with _ => _ end) => destruct c; prefix_tac
  | |- _ =>
    first [ solve [auto with prefixes]
          | apply (frames_weaken textFrame keepsPrefix _ textFrame_keepsPrefix);
            solve [auto with frames] ]
  end.

Section PrefixKept.

Context (ext : Externals).

Lemma firstn_app_length {A} (a b : list A) : firstn (length (a ++ b) - length b) (a ++ b) = a.
Proof.
  rewrite length_app. replace (length a + length b - length b)%nat with (length a) by lia.
  rewrite firstn_app, Nat.sub_diag, firstn_all. simpl. apply app_nil_r.
Qed.

(** [PopPrefix] under the invariant: it takes the top of the stack off both
    the stack and the prefix. *)
Lemma PopPrefix_inv r rest p :
  prefixInv r -> prefixStack r = rest ++ [p] ->
  PopPrefix r = Ok (tt, set_prefixStack rest (set_prefix (concat rest) r)).
Proof.
  unfold prefixInv. intros Hinv Hs. unfold PopPrefix. rewrite Hs in *.
  rewrite top_snoc, pop_snoc. rewrite concat_app in Hinv. simpl in Hinv.
  rewrite app_nil_r in Hinv. rewrite Hinv.
  destruct (Z.ltb_spec (len (concat rest ++ p)) (len p)) as [E|E].
  - unfold len in E. rewrite length_app in E. lia.
  - rewrite firstn_app_length. reflexivity.
Qed.

Lemma prefix_PushPrefix p : frames keepsPrefix (PushPrefix p).
Proof.
  unfold PushPrefix. apply frames_modify. intros r. unfold keepsPrefix, prefixInv. simpl.
  intros ->. rewrite concat_app. simpl. rewrite app_nil_r. reflexivity.
Qed.

Hint Resolve prefix_PushPrefix : prefixes.

Lemma prefix_PushIndent n : frames keepsPrefix (PushIndent n).
Proof. unfold PushIndent. prefix_tac. Qed.

Lemma prefix_PopPrefix : frames keepsPrefix PopPrefix.
Proof.
  intros r a r' H Hinv. destruct a.
  destruct (top (prefixStack r)) as [p|] eqn:Et;
    [|unfold PopPrefix in H; rewrite Et in H; discriminate].
  unfold top in Et. apply last_Some in Et as [rest Es].
  rewrite (PopPrefix_inv r rest p Hinv Es) in H. inversion H; subst.
  unfold prefixInv. reflexivity.
Qed.

Lemma prefix_OpenSpan n : frames keepsPrefix (OpenSpan n).
Proof. intros r a r' H. unfold OpenSpan in H. inversion H; subst. prefix_fields. Qed.

Lemma prefix_CloseSpan : frames keepsPrefix CloseSpan.
Proof.
  intros r a r' H. unfold CloseSpan in H. destruct (top (spanStack r)); inversion H; subst.
  prefix_fields.
Qed.

Lemma prefix_PushWordWrap b : frames keepsPrefix (PushWordWrap b).
Proof. unfold PushWordWrap. prefix_tac. Qed.

Lemma prefix_PopWordWrap : frames keepsPrefix PopWordWrap.
Proof.
  intros r a r' H. unfold PopWordWrap in H.
  destruct (wrapping r); inversion H; subst. prefix_fields.
Qed.

Lemma prefix_PushStyle t : frames keepsPrefix (PushStyle ext t).
Proof. unfold PushStyle. prefix_tac. Qed.

Lemma prefix_PopStyle : frames keepsPrefix (PopStyle ext).
Proof. unfold PopStyle. prefix_tac. Qed.

Lemma prefix_topListState : frames keepsPrefix topListState.
Proof.
  intros r a r' H. unfold topListState in H. destruct (top (listStack r)); inversion H; subst.
  apply keepsPrefix_refl.
Qed.

Lemma prefix_topTableState : frames keepsPrefix topTableState.
Proof.
  intros r a r' H. unfold topTableState in H. destruct (top (tableStack r)); inversion H; subst.
  apply keepsPrefix_refl.
Qed.

Lemma prefix_updateTableState f : frames keepsPrefix (updateTableState f).
Proof.
  intros r a r' H. unfold updateTableState in H.
  destruct (top (tableStack r)); inversion H; subst. prefix_fields.
Qed.

Lemma prefix_markFresh : frames keepsPrefix markFresh.
Proof.
  intros r a r' H. unfold markFresh in H. destruct (top (openBlocks r)); inversion H; subst.
  prefix_fields.
Qed.

Lemma prefix_popOpenBlock : frames keepsPrefix popOpenBlock.
Proof.
  intros r a r' H. unfold popOpenBlock in H. destruct (openBlocks r); inversion H; subst.
  prefix_fields.
Qed.

Lemma prefix_popListState : frames keepsPrefix popListState.
Proof.
  intros r a r' H. unfold popListState in H. destruct (listStack r); inversion H; subst.
  prefix_fields.
Qed.

Lemma prefix_popTableState : frames keepsPrefix popTableState.
Proof.
  intros r a r' H. unfold popTableState in H. destruct (tableStack r); inversion H; subst.
  prefix_fields.
Qed.

Hint Resolve prefix_PushIndent prefix_PopPrefix prefix_OpenSpan prefix_CloseSpan
  prefix_PushWordWrap prefix_PopWordWrap prefix_PushStyle prefix_PopStyle prefix_topListState
  prefix_topTableState prefix_updateTableState prefix_markFresh prefix_popOpenBlock
  prefix_popListState prefix_popTableState : prefixes.

Lemma prefix_imageChunks fuel : forall first data,
  frames keepsPrefix (imageChunks fuel first data).
Proof.
  induction fuel as [|fuel IH]; intros first data; simpl.
  - destruct data; prefix_tac.
  - destruct data as [|b data]; [prefix_tac|].
    repeat (apply frames_bind; [exact keepsPrefix_trans | prefix_tac | intros _]). apply IH.
Qed.

Lemma prefix_borderColumns widths : forall i join,
  frames keepsPrefix (borderColumns ext i widths join).
Proof.
  induction widths as [|w widths IH]; intros i join; simpl.
  - prefix_tac.
  - repeat (apply frames_bind;
            [exact keepsPrefix_trans | unfold WriteRune, WriteString; prefix_tac | intros ?]).
    apply IH.
Qed.

Hint Resolve prefix_imageChunks prefix_borderColumns : prefixes.

Lemma prefix_renderNode ctx n measure enter :
  frames keepsPrefix (renderNode ext ctx n measure enter).
Proof.
  destruct n as [d blank ws cs]. unfold renderNode, ast.data.
  destruct d; destruct enter;
    unfold RenderDocument, RenderHeading, RenderBlockquote, RenderCodeBlock,
      RenderFencedCodeBlock, RenderHTMLBlock, RenderLinkReferenceDefinition, RenderList,
      RenderListItem, RenderParagraph, RenderTextBlock, RenderThematicBreak, RenderTable,
      RenderTableHeader, RenderTableRow, RenderTableCell, RenderAutoLink, RenderCodeSpan,
      RenderEmphasis, RenderImage, RenderLink, renderLinkOrImage, renderHyperlink,
      RenderRawHTML, RenderText, RenderString, RenderWhitespace, OpenBlock, CloseBlock,
      renderTableBorder, renderImage, writeCodeLines, writeCode, writeLines,
      WriteString, WriteRune, WriteByte;
    cbn [negb]; cbv beta iota zeta; prefix_tac.
Qed.

Lemma Render_prefix r doc r' : Render ext r doc = Ok r' -> prefixInv r -> prefixInv r'.
Proof.
  intros H.
  exact (Render_any ext keepsPrefix keepsPrefix_refl keepsPrefix_trans prefix_renderNode
           r doc r' H).
Qed.

End PrefixKept.

(** The line prefix is the concatenation of the prefix stack: [New] makes
    it so, [PushPrefix], [PushIndent], [PopPrefix] and every render that
    returns normally keep it so, and under it [PopPrefix] takes exactly the
    top entry of the stack off the end of the prefix and panics only on an
    empty stack. *)
Theorem prefix_is_concat_of_stack (ext : Externals) :
  (forall theme wordWrap hyperlinks images maxImageWidth contentRoot softBreak,
     prefixInv (New theme wordWrap hyperlinks images maxImageWidth contentRoot softBreak))
  /\ (forall p r r', PushPrefix p r = Ok (tt, r') -> prefixInv r -> prefixInv r')
  /\ (forall n r r', PushIndent n r = Ok (tt, r') -> prefixInv r -> prefixInv r')
  /\ (forall r r' doc, Render ext r doc = Ok r' -> prefixInv r -> prefixInv r')
  /\ (forall r rest p, prefixInv r -> prefixStack r = rest ++ [p] ->
        exists r', PopPrefix r = Ok (tt, r') /\ prefixStack r' = rest
                   /\ prefix r' = concat rest)
  /\ (forall r, prefixStack r = [] -> PopPrefix r = Panic IndexOutOfRange).
Proof.
  split; [intros; reflexivity|].
  split; [intros p r r' H; exact (prefix_PushPrefix p r tt r' H)|].
  split; [intros n r r' H; exact (prefix_PushIndent n r tt r' H)|].
  split; [intros r r' doc H; exact (Render_prefix ext r doc r' H)|].
  split.
  - intros r rest p Hinv Hs. rewrite (PopPrefix_inv r rest p Hinv Hs).
    eexists. split; [reflexivity|]. split; reflexivity.
  - intros r Hs. unfold PopPrefix. rewrite Hs. reflexivity.
Qed.

(** * A walk that returns normally has run to its end *)

Section WalkEnds.

Context (ext : Externals).

Lemma walkChildren_not_stopped n cs :
  Forall (fun c => forall ctx r st r', walkHelper ext ctx c r = Ok (st, r') ->
                     st = ast.WalkContinue) cs ->
  forall first prev r b r', walkChildren ext n first prev cs r = Ok (b, r') -> b = false.
Proof.
  induction 1 as [|c cs Hc Hcs IH]; intros first prev r b r' H; simpl in H.
  - inversion H; reflexivity.
  - apply bind_Ok in H as (st & r1 & H1 & H).
    rewrite (Hc _ _ _ _ H1) in H. simpl in H. exact (IH _ _ _ _ _ H).
Qed.

(** The walk of a node that returns normally: the function of the node has
    run on entering, the children were walked unless it asked to skip them,
    and the function has run on leaving, which gives the final state. *)
Lemma walkHelper_ends n : forall ctx r st r',
  walkHelper ext ctx n r = Ok (st, r') ->
  st = ast.WalkContinue
  /\ exists r2 status,
       renderNode ext ctx n (fun cr => measureCells (walkHelper ext) cr (ast.children n))
         false r2 = Ok (status, r').
Proof.
  induction n as [d blank ws cs IHcs] using ast_Node_ind.
  intros ctx r st r' H. rewrite walkHelper_eq in H. cbv zeta in H.
  set (n := ast.mkNode d blank ws cs) in *.
  set (measure := fun cr => measureCells (walkHelper ext) cr (ast.children n)) in *.
  apply bind_Ok in H as (status & r1 & Henter & H).
  pose proof (renderNode_noStop ext ctx n measure true _ _ _ Henter) as Hns.
  assert (Estop : isStop status = false) by (destruct status; try reflexivity; contradiction).
  rewrite Estop in H.
  apply bind_Ok in H as (stopped & r2 & Hkids & H).
  assert (Hstopped : stopped = false).
  { destruct (isSkipChildren status); [inversion Hkids; reflexivity|].
    refine (walkChildren_not_stopped n cs _ true None _ _ _ Hkids).
    eapply Forall_impl; [exact IHcs|]. intros c Hc ctx' ra sta ra' Ha.
    exact (proj1 (Hc ctx' ra sta ra' Ha)). }
  subst stopped.
  apply bind_Ok in H as (status' & r3 & Hexit & H).
  pose proof (renderNode_noStop ext ctx n measure false _ _ _ Hexit) as Hns'.
  assert (Estop' : isStop status' = false)
    by (destruct status'; try reflexivity; contradiction).
  rewrite Estop' in H. inversion H; subst. split; [reflexivity|].
  exists r2, status'. exact Hexit.
Qed.

(** What the function of the document node leaves behind on leaving. *)
Lemma RenderDocument_exit n r st r' :
  RenderDocument ext n false r = Ok (st, r') ->
  prefix r' = [] /\ prefixStack r' = [] /\ listStack r' = [] /\ wrapping r' = [true]
  /\ styles r' = [].
Proof.
  unfold RenderDocument. intros H.
  apply bind_Ok in H as (u & r1 & H1 & H). inversion H1; subst r1; clear H1.
  apply bind_Ok in H as (u1 & r2 & Hbody & H). inversion H; subst; clear H.
  apply bind_Ok in Hbody as (u2 & r3 & Hpop & Hbody).
  apply bind_Ok in Hbody as (u3 & r4 & Hmod & Hclose). inversion Hmod; subst r4; clear Hmod.
  assert (F : prefix r3 = [] /\ prefixStack r3 = [] /\ listStack r3 = []
              /\ wrapping r3 = [true]).
  { unfold PopStyle in Hpop. apply bind_Ok in Hpop as (r0 & r0' & Hg & Hpop).
    inversion Hg; subst r0 r0'; clear Hg.
    cbn [theme set_atNewline set_wrapping set_prefix set_prefixStack set_listStack] in Hpop.
    destruct (theme r); [|inversion Hpop; subst; repeat split; reflexivity].
    destruct (top (styles _)); [|discriminate Hpop].
    apply bind_Ok in Hpop as (u4 & r5 & Hd & Hpop). inversion Hpop; subst; clear Hpop.
    apply frames_writeDelta in Hd. unfold textFrame in Hd.
    destruct Hd as (_ & _ & _ & _ & _ & _ & _ & Hl & _ & Hw & _ & _ & _ & _ & Hs & Hp & _).
    simpl in *. repeat split; assumption. }
  destruct F as (F1 & F2 & F3 & F4).
  unfold CloseSpan in Hclose.
  cbn [spanStack set_styles] in Hclose.
  destruct (top (spanStack r3)); [|discriminate Hclose]. inversion Hclose; subst; clear Hclose.
  simpl. repeat split; assumption.
Qed.

End WalkEnds.



(** After the render of a document.  When the render of a tree whose root
    is a document returns normally, the renderer is left with an empty
    prefix, an empty prefix stack, an empty list stack, an empty style stack
    and the wrap stack it starts a document with. *)
Theorem Render_document_resets_stacks (ext : Externals) (r r' : Renderer) (doc : ast.Node) :
  ast.data doc = ast.Document -> Render ext r doc = Ok r' ->
  prefix r' = [] /\ prefixStack r' = [] /\ listStack r' = [] /\ wrapping r' = [true]
  /\ styles r' = [].
Proof.
  intros Hd H. unfold Render in H.
  destruct (walkHelper ext ast.rootContext doc (set_sink [] r)) as [[st r1]| |] eqn:E;
    inversion H; subst r1; clear H.
  apply walkHelper_ends in E as (_ & r2 & status & Hexit).
  unfold renderNode in Hexit. rewrite Hd in Hexit.
  exact (RenderDocument_exit ext doc r2 status r' Hexit).
Qed.

Lemma Render_document_resets_stacks_witness :
  exists r', Render stdExt (plain 10) quoted = Ok r' /\ prefix r' = [] /\ prefixStack r' = [].
Proof.
  pose (r' := match Render stdExt (plain 10) quoted with Ok r => r | _ => plain 10 end).
  assert (E : Render stdExt (plain 10) quoted = Ok r') by (vm_compute; reflexivity).
  destruct (Render_document_resets_stacks stdExt (plain 10) r' quoted) as (A & B & _);
    [vm_compute; reflexivity | exact E |].
  exists r'. split; [exact E|]. split; [exact A | exact B].
Defined.

(** * Style deltas *)

Section StyleDeltas.

Context (ext : Externals).

Lemma Trilean_eqb_refl a : chroma.Trilean_eqb a a = true.
Proof. destruct a; reflexivity. Qed.

Lemma deltaCommands_same s : chroma.IsZero s = false -> deltaCommands s s = [].
Proof.
  intros Hz. unfold deltaCommands. rewrite Hz, !Z.eqb_refl, !Trilean_eqb_refl.
  cbn [negb orb]. rewrite !andb_false_r. reflexivity.
Qed.

(** After the commands of a delta from a style the terminal shows, the
    terminal shows the style the delta leads to, when that style is the
    resolved style of a token. *)
Lemma delta_shows base tokenStyle t :
  chroma.IsZero tokenStyle = false ->
  shows base t ->
  shows (resolve tokenStyle base)
        (runSGR (deltaCommands base (resolve tokenStyle base)) t).
Proof.
  intros Hz Hs.
  pose proof (resolve_not_zero tokenStyle base Hz) as Hnz.
  pose proof (delta_fields base (resolve tokenStyle base) t Hnz) as (P1 & P2 & P3 & P4 & P5).
  unfold shows. rewrite Hnz. unfold shows in Hs.
  destruct (chroma.IsZero base) eqn:Hb.
  - cbn [orb] in P1, P2, P3, P4, P5. rewrite andb_true_r in P1, P2.
    split; [exact P3|]. split; [exact P4|]. split; [exact P5|].
    split; intros Hset.
    + rewrite P1, Hset. reflexivity.
    + rewrite P2, Hset. reflexivity.
  - destruct Hs as (Hbold & Hunder & Hital & Hbg & Hfg). cbn [orb] in P1, P2, P3, P4, P5.
    split.
    { rewrite P3.
      destruct (chroma.Trilean_eqb (chroma.Bold (resolve tokenStyle base)) (chroma.Bold base))
        eqn:E; [|reflexivity].
      cbn [negb]. apply Trilean_eqb_eq in E. rewrite E. exact Hbold. }
    split.
    { rewrite P4.
      destruct (chroma.Trilean_eqb (chroma.Underline (resolve tokenStyle base))
                  (chroma.Underline base)) eqn:E; [|reflexivity].
      cbn [negb]. apply Trilean_eqb_eq in E. rewrite E. exact Hunder. }
    split.
    { rewrite P5.
      destruct (chroma.Trilean_eqb (chroma.Italic (resolve tokenStyle base))
                  (chroma.Italic base)) eqn:E; [|reflexivity].
      cbn [negb]. apply Trilean_eqb_eq in E. rewrite E. exact Hital. }
    split; intros Hset.
    + rewrite P1, Hset. cbn [andb].
      destruct (Z.eqb_spec (chroma.Background (resolve tokenStyle base))
                  (chroma.Background base)) as [E|E]; [|reflexivity].
      cbn [negb]. rewrite E. apply Hbg. rewrite <- E. exact Hset.
    + rewrite P2, Hset. cbn [andb].
      destruct (Z.eqb_spec (chroma.Colour_ (resolve tokenStyle base))
                  (chroma.Colour_ base)) as [E|E]; [|reflexivity].
      cbn [negb]. rewrite E. apply Hfg. rewrite <- E. exact Hset.
Qed.

End StyleDeltas.

(** No delta between equal styles.  [writeDelta] from a style that is not
    the zero style to the same style writes nothing and changes nothing. *)
Theorem writeDelta_between_equal_styles (ext : Externals) (s : chroma.StyleEntry)
    (r : Renderer) :
  chroma.IsZero s = false -> writeDelta ext s s r = Ok (tt, r).
Proof.
  intros Hz. rewrite writeDelta_commands, (deltaCommands_same s Hz). reflexivity.
Qed.

Lemma writeDelta_between_equal_styles_witness :
  writeDelta stdExt boldStyle boldStyle boldRenderer = Ok (tt, boldRenderer).
Proof. apply (writeDelta_between_equal_styles stdExt boldStyle boldRenderer). reflexivity. Defined.

(** After a push the terminal shows the pushed style.  When the terminal
    shows the style on top of the style stack and the token has a style in
    the theme, [PushStyle] pushes the style of the token with its unset flags
    taken from the top of the stack, and after the commands it writes the
    terminal shows that style. *)
Theorem PushStyle_terminal_shows_pushed_style (ext : Externals) (th : chroma.Style)
    (token : chroma.TokenType) (r r1 : Renderer) (t : Terminal) :
  theme r = Some th ->
  chroma.IsZero (th token) = false ->
  shows (topStyle (styles r)) t ->
  PushStyle ext token r = Ok (tt, r1) ->
  topStyle (styles r1) = resolve (th token) (topStyle (styles r))
  /\ shows (topStyle (styles r1)) (runSGR (pushCommands th token (styles r)) t).
Proof.
  intros Hth Hz Hs Hpush.
  destruct (PushStyle_result ext th token r r1 Hth Hz Hpush) as [Hs1 _].
  assert (Htop : topStyle (styles r1) = resolve (th token) (topStyle (styles r))).
  { unfold topStyle at 1. rewrite Hs1, top_snoc. reflexivity. }
  split; [exact Htop|]. rewrite Htop. unfold pushCommands. rewrite Hz.
  apply delta_shows; assumption.
Qed.

(** Token 2 (red) pushed on the bold style: the terminal shows bold red. *)
Lemma PushStyle_terminal_shows_pushed_style_witness :
  exists r1,
    PushStyle stdExt 2 boldRenderer = Ok (tt, r1)
    /\ shows (topStyle (styles r1))
             (runSGR (pushCommands exampleTheme 2 (styles boldRenderer)) boldTerminal).
Proof.
  pose (r1 := match PushStyle stdExt 2 boldRenderer with Ok (_, r) => r | _ => boldRenderer end).
  assert (E : PushStyle stdExt 2 boldRenderer = Ok (tt, r1)) by (vm_compute; reflexivity).
  exists r1. split; [exact E|].
  refine (proj2 (PushStyle_terminal_shows_pushed_style stdExt exampleTheme 2 boldRenderer r1
                   boldTerminal _ _ _ E)).
  - reflexivity.
  - reflexivity.
  - vm_compute. repeat split; intros H; discriminate H.
Defined.

(** * Looking an offset up in the span tree *)

Section SpanLookup.

(** Every child of an ordered list of children lies between the bounds. *)
Lemma inOrder_mem st en lo cs hi c :
  inOrder st en lo cs hi -> c ∈ cs -> lo <= st c /\ st c <= en c /\ en c <= hi.
Proof.
  revert lo. induction cs as [|d cs IH]; intros lo H Hin; [inversion Hin|].
  destruct H as (H1 & H2 & H3).
  apply elem_of_cons in Hin as [->|Hin].
  - apply inOrder_le in H3. lia.
  - destruct (IH _ H3 Hin) as (A & B & C). lia.
Qed.

(** A child ends before every later child starts. *)
Lemma inOrder_before st en lo cs hi k l c1 c2 :
  inOrder st en lo cs hi -> (k < l)%nat -> cs !! k = Some c1 -> cs !! l = Some c2 ->
  en c1 <= st c2.
Proof.
  revert lo k l. induction cs as [|d cs IH]; intros lo k l H Hkl H1 H2; [discriminate|].
  destruct H as (_ & _ & H). destruct l as [|l]; [lia|]. cbn [lookup list_lookup] in H2.
  destruct k as [|k].
  - cbn [lookup list_lookup] in H1. inversion H1; subst d.
    apply (inOrder_mem _ _ _ _ _ c2 H). apply (list_elem_of_lookup_2 _ l). exact H2.
  - cbn [lookup list_lookup] in H1. apply (IH _ k l H); [lia | exact H1 | exact H2].
Qed.

Lemma completed_ordered ext r i s :
  completed ext r -> heap r !! i = Some s ->
  inOrder (startOf (heap r)) (endOf (heap r)) (Start s) (Children s) (End_ s).
Proof.
  intros Hc Hs. destruct (completed_Inv ext r Hc) as (HI & _ & Hstk).
  unfold SpanInv in HI. rewrite Hstk in HI.
  assert (Hi : (i < length (heap r))%nat) by (eapply lookup_lt_Some; exact Hs).
  pose proof (Inv_contained _ _ i HI Hi) as Hord. unfold contained in Hord.
  unfold startOf at 2 in Hord. unfold endOf at 2 in Hord. unfold childrenOf in Hord.
  rewrite Hs in Hord. exact Hord.
Qed.

End SpanLookup.

(** Descending the span tree.  After every completed render, a child of a
    span (any child, not only the first and the last) starts and ends within
    the span, so every offset a child contains its parent contains: a
    search for the span at an offset may stop at a span that does not contain
    it. *)
Theorem child_span_within_parent (ext : Externals) (r : Renderer) (i c : nat)
    (s sc : NodeSpan) :
  completed ext r -> heap r !! i = Some s -> c ∈ Children s -> heap r !! c = Some sc ->
  Start s <= Start sc /\ Start sc <= End_ sc /\ End_ sc <= End_ s
  /\ forall offset, Contains sc offset = true -> Contains s offset = true.
Proof.
  intros Hc Hs Hin Hsc.
  pose proof (inOrder_mem _ _ _ _ _ c (completed_ordered ext r i s Hc Hs) Hin) as H.
  unfold startOf, endOf in H. rewrite Hsc in H. destruct H as (A & B & C).
  split; [exact A|]. split; [exact B|]. split; [exact C|].
  intros offset. unfold Contains. rewrite !andb_true_iff, !Z.leb_le, !Z.ltb_lt. lia.
Qed.

(** The theorem at the paragraph span of scenario 2 and its text child. *)
Lemma child_span_within_parent_witness :
  exists r s sc,
    Render stdExt (plain 10) scenario2 = Ok r
    /\ heap r !! 1%nat = Some s /\ heap r !! 2%nat = Some sc
    /\ Start s <= Start sc /\ End_ sc <= End_ s.
Proof.
  eexists. eexists. eexists.
  split; [vm_compute; reflexivity|].
  split; [vm_compute; reflexivity|].
  split; [vm_compute; reflexivity|].
  refine (let H := child_span_within_parent stdExt _ 1%nat 2%nat _ _ _ _ _ _ in
          conj (proj1 H) (proj1 (proj2 (proj2 H)))).
  - eapply (completed_first stdExt None 10 false false 0 [] false scenario2).
    vm_compute. reflexivity.
  - vm_compute. reflexivity.
  - vm_compute. apply list_elem_of_here.
  - vm_compute. reflexivity.
Defined.

(** Siblings do not overlap.  After every completed render, of two
    children of one span the earlier ends at or before the start of the
    later, and no offset is contained in both. *)
Theorem sibling_spans_disjoint (ext : Externals) (r : Renderer) (i k l c1 c2 : nat)
    (s s1 s2 : NodeSpan) :
  completed ext r -> heap r !! i = Some s ->
  (k < l)%nat -> Children s !! k = Some c1 -> Children s !! l = Some c2 ->
  heap r !! c1 = Some s1 -> heap r !! c2 = Some s2 ->
  End_ s1 <= Start s2
  /\ forall offset, Contains s1 offset = true -> Contains s2 offset = false.
Proof.
  intros Hc Hs Hkl H1 H2 L1 L2.
  pose proof (inOrder_before _ _ _ _ _ k l c1 c2 (completed_ordered ext r i s Hc Hs) Hkl H1 H2)
    as H.
  unfold startOf, endOf in H. rewrite L1, L2 in H.
  split; [exact H|].
  intros offset. unfold Contains. rewrite andb_true_iff, andb_false_iff, Z.leb_le, Z.ltb_lt.
  intros [_ Hlt]. left. apply Z.leb_gt. lia.
Qed.

(** The theorem at the document span of scenario 1, whose children are the
    spans of the heading and of the paragraph. *)
Lemma sibling_spans_disjoint_witness :
  exists r s s1 s2,
    Render stdExt (plain 20) scenario1 = Ok r
    /\ heap r !! 0%nat = Some s /\ Children s = [1%nat; 3%nat]
    /\ heap r !! 1%nat = Some s1 /\ heap r !! 3%nat = Some s2
    /\ End_ s1 <= Start s2.
Proof.
  eexists. eexists. eexists. eexists.
  split; [vm_compute; reflexivity|].
  split; [vm_compute; reflexivity|].
  split; [vm_compute; reflexivity|].
  split; [vm_compute; reflexivity|].
  split; [vm_compute; reflexivity|].
  refine (proj1 (sibling_spans_disjoint stdExt _ 0%nat 0%nat 1%nat 1%nat 3%nat _ _ _
                   _ _ _ _ _ _ _)).
  - eapply (completed_first stdExt None 20 false false 0 [] false scenario1).
    vm_compute. reflexivity.
  - vm_compute. reflexivity.
  - lia.
  - vm_compute. reflexivity.
  - vm_compute. reflexivity.
  - vm_compute. reflexivity.
  - vm_compute. reflexivity.
Defined.

(** * Blocks: how they open and how they close *)

Lemma blocksKept_refl r : blocksKept r r.
Proof. split; reflexivity. Qed.

Lemma blocksKept_trans r1 r2 r3 : blocksKept r1 r2 -> blocksKept r2 r3 -> blocksKept r1 r3.
Proof. unfold blocksKept. intros [A B] [C D]. split; congruence. Qed.

Lemma markNotFresh_kept bs :
  pop (markNotFresh bs) = pop bs
  /\ option_map node (top (markNotFresh bs)) = option_map node (top bs).
Proof.
  unfold markNotFresh. destruct (top bs) as [b|] eqn:E.
  - rewrite pop_snoc, top_snoc. split; reflexivity.
  - split; [reflexivity|]. rewrite E. reflexivity.
Qed.

Create HintDb blocks.

Ltac blocks_fields :=
  intros; unfold blocksKept;
  repeat match goal with
         | |- context [if ?c then _ else _] => destruct c
         | |- context [match ?c with _ => _ end] => destruct c
         end;
  simpl; split; reflexivity.

(** Walks down a method as [frames_tac] does, for the relation
    [blocksKept]. *)
Ltac blocks_tac :=
  lazymatch goal with
  | |- frames _ (bind _ _) =>
    apply frames_bind; [exact blocksKept_trans | blocks_tac | intros ?; blocks_tac]
  | |- frames _ (ret _) => apply frames_ret; exact blocksKept_refl
  | |- frames _ get => apply frames_get; exact blocksKept_refl
  | |- frames _ (lift _) => apply frames_lift; exact blocksKept_refl
  | |- frames _ (raise _) => apply frames_raise
  | |- frames _ (when _ _) => apply frames_when; [exact blocksKept_refl | blocks_tac]
  | |- frames _ (modify _) => apply frames_modify; blocks_fields
  | |- frames _ (if ?c then _ else _) => destruct c; blocks_tac
  | |- _ => solve [auto with blocks]
  end.

Section Blocks.

Context (ext : Externals).

Lemma blocks_wWrite b : frames blocksKept (wWrite b).
Proof. unfold wWrite. blocks_tac. Qed.

Lemma blocks_beginLine : frames blocksKept beginLine.
Proof.
  intros r a r' H. unfold beginLine in H.
  destruct (isContinuation r); [inversion H; subst; apply blocksKept_refl|].
  destruct (len (prefix r) =? 0); inversion H; subst; clear H; blocks_fields.
Qed.

Hint Resolve blocks_wWrite blocks_beginLine : blocks.

(** [write] clears the fresh mark of the top block and leaves the rest of
    the open blocks alone. *)
Lemma blocks_writeChunk line hasNewline : frames blocksKept (writeChunk ext line hasNewline).
Proof.
  unfold writeChunk.
  apply frames_bind; [exact blocksKept_trans | blocks_tac | intros r0].
  apply frames_bind; [exact blocksKept_trans | blocks_tac | intros _].
  apply frames_bind; [exact blocksKept_trans | blocks_tac | intros _].
  apply frames_bind; [exact blocksKept_trans | blocks_tac | intros _].
  apply frames_modify. intros r. unfold blocksKept.
  pose proof (markNotFresh_kept (openBlocks r)) as H.
  cbn [openBlocks set_openBlocks set_atNewline set_lineWidth atNewline].
  destruct (atNewline r && (measureText ext line =? 0) || hasNewline);
    cbn [openBlocks set_openBlocks set_atNewline set_lineWidth atNewline]; exact H.
Qed.

Hint Resolve blocks_writeChunk : blocks.

Lemma blocks_writeChunks cs : forall written, frames blocksKept (writeChunks ext cs written).
Proof.
  induction cs as [|[line hasNewline] cs IH]; intros written; simpl.
  - blocks_tac.
  - apply frames_bind; [exact blocksKept_trans | auto with blocks | intros _; apply IH].
Qed.

Lemma blocks_write buf : frames blocksKept (write ext buf).
Proof. apply blocks_writeChunks. Qed.

Hint Resolve blocks_write : blocks.

Lemma blocks_flushWordBuffer : frames blocksKept (flushWordBuffer ext).
Proof. unfold flushWordBuffer. blocks_tac. Qed.

Hint Resolve blocks_flushWordBuffer : blocks.

Lemma blocks_WriteRunes fuel : forall buf written,
  frames blocksKept (WriteRunes ext fuel buf written).
Proof.
  induction fuel as [|fuel IH]; intros buf written; simpl.
  - destruct buf; blocks_tac.
  - destruct buf as [|b buf]; [blocks_tac|].
    destruct (DecodeRune (b :: buf)) as [c sz].
    apply frames_bind; [exact blocksKept_trans | blocks_tac | intros _].
    apply frames_bind; [exact blocksKept_trans | blocks_tac | intros _; apply IH].
Qed.

Hint Resolve blocks_WriteRunes : blocks.

Lemma blocks_Write buf : frames blocksKept (Write ext buf).
Proof. unfold Write. blocks_tac. Qed.

Hint Resolve blocks_Write : blocks.

Lemma blocks_WriteByte c : frames blocksKept (WriteByte ext c).
Proof. unfold WriteByte. blocks_tac. Qed.

(** After a newline the renderer is at the start of a line. *)
Lemma write_newline_atNewline r n r' : write ext [newline] r = Ok (n, r') -> atNewline r' = true.
Proof.
  intros H. rewrite write_newline_eq in H.
  match type of H with
  | match ?x with _ => _ end = _ => destruct x as [pad| |]
  end; inversion H; subst; reflexivity.
Qed.

Lemma WriteByte_newline_atNewline r u r' :
  WriteByte ext newline r = Ok (u, r') -> atNewline r' = true.
Proof.
  unfold WriteByte, Write. intros H.
  apply bind_Ok in H as (n & r1 & H & Hret). inversion Hret; subst r1; clear Hret.
  apply bind_Ok in H as (r0 & r0' & Hg & H). inversion Hg; subst r0 r0'; clear Hg.
  destruct (negb (WordWrap r)).
  - apply bind_Ok in H as (u1 & r1 & _ & H).
    apply bind_Ok in H as (k & r2 & Hw & H).
    apply bind_Ok in H as (u2 & r3 & Hm & H). inversion H; subst; clear H.
    inversion Hm; subst; clear Hm. simpl. exact (write_newline_atNewline _ _ _ Hw).
  - assert (ED : DecodeRune [newline] = (10, 1%nat)) by (vm_compute; reflexivity).
    assert (ES : IsSpace 10 = true) by (vm_compute; reflexivity).
    cbn [WriteRunes length] in H. rewrite ED, ES in H. cbn [firstn skipn] in H.
    apply bind_Ok in H as (u1 & r1 & Hs & H).
    apply bind_Ok in H as (u2 & r2 & Hm & H). inversion H; subst; clear H.
    inversion Hm; subst; clear Hm.
    apply bind_Ok in Hs as (u3 & r3 & _ & Hs).
    apply bind_Ok in Hs as (k & r4 & Hw & Hs). inversion Hs; subst; clear Hs.
    simpl. exact (write_newline_atNewline _ _ _ Hw).
Qed.

(** [Write], and with it [WriteByte], returns under a positive wrap width. *)
Lemma Write_returns r buf : 0 < wordWrap r -> exists n r', Write ext buf r = Ok (n, r').
Proof.
  intros Hw. unfold Write. rewrite (bind_returns get _ r r r eq_refl).
  destruct (negb (WordWrap r)).
  - assert (H1 : exists r1, when (0 <? len (wordBuffer r)) (flushWordBuffer ext) r = Ok (tt, r1)
                            /\ wordWrap r1 = wordWrap r).
    { unfold when. destruct (0 <? len (wordBuffer r)).
      - destruct (flushWordBuffer_returns ext r Hw) as (r1 & E & _ & Hw1). exists r1.
        split; assumption.
      - exists r. split; reflexivity. }
    destruct H1 as (r1 & E1 & Hw1).
    destruct (write_returns ext r1 buf) as (r2 & E2 & _); [lia|].
    rewrite (bind_returns _ _ r tt r1 E1). rewrite (bind_returns _ _ r1 _ r2 E2).
    eexists. eexists. reflexivity.
  - destruct (WriteRunes_returns ext (length buf) buf 0 r Hw (Nat.le_refl _)) as (r1 & E & _).
    eexists. eexists. exact E.
Qed.

Lemma WriteByte_returns r c : 0 < wordWrap r -> exists r', WriteByte ext c r = Ok (tt, r').
Proof.
  intros Hw. unfold WriteByte. destruct (Write_returns r [c] Hw) as (n & r' & E).
  rewrite (bind_returns _ _ r n r' E). exists r'. reflexivity.
Qed.

Lemma openedHeap_new r n :
  openedHeap r n !! length (heap r)
  = Some {| Start := byteOffset r; End_ := 0; Node := n; Parent := top (spanStack r);
            Next := None; Prev := lastSpan r; Children := [] |}.
Proof.
  unfold openedHeap. cbv zeta.
  match goal with
  | |- (?h ++ _) !! _ = _ =>
    assert (Hl : length h = length (heap r))
      by (destruct (lastSpan r), (top (spanStack r)); rewrite ?length_alter; reflexivity)
  end.
  rewrite lookup_app_r by lia. rewrite Hl, Nat.sub_diag. reflexivity.
Qed.

End Blocks.

(** [OpenBlock].  When it returns, the block of the node is on top of the
    open blocks and is marked fresh, whatever was written before it; the span
    of the node is on top of the span stack, is the last span of the heap, and
    starts at the byte offset at which [OpenBlock] was called (before the
    blank line and the leading white space it writes). *)
Theorem OpenBlock_pushes_fresh_block (ext : Externals) (ctx : ast.Context) (n : ast.Node)
    (r r' : Renderer) :
  OpenBlock ext ctx n r = Ok (tt, r') ->
  openBlocks r' = openBlocks r ++ [{| node := n; fresh := true |}]
  /\ spanStack r' = spanStack r ++ [length (heap r)]
  /\ length (heap r') = S (length (heap r))
  /\ exists s, heap r' !! length (heap r) = Some s
               /\ Start s = byteOffset r /\ Node s = n /\ Parent s = top (spanStack r).
Proof.
  unfold OpenBlock. intros H.
  apply bind_Ok in H as (u1 & r1 & Hopen & H).
  apply bind_Ok in H as (u2 & r2 & Hmod & H). inversion Hmod; subst r2; clear Hmod.
  apply bind_Ok in H as (u3 & r3 & Hblank & H).
  apply bind_Ok in H as (u4 & r4 & Hws & Hfresh).
  assert (Eb : openBlocks (set_openBlocks (openBlocks r1 ++ [{| node := n; fresh := true |}]) r1)
               = openBlocks r ++ [{| node := n; fresh := true |}]).
  { unfold OpenSpan in Hopen. inversion Hopen; subst; reflexivity. }
  apply OpenSpan_result in Hopen as (Hh & Hs & _).
  set (r2 := set_openBlocks (openBlocks r1 ++ [{| node := n; fresh := true |}]) r1) in *.
  assert (K3 : blocksKept r2 r3 /\ textFrame r2 r3).
  { split.
    - refine (frames_when blocksKept _ _ blocksKept_refl (blocks_WriteByte ext newline)
                _ _ _ Hblank).
    - refine (frames_when textFrame _ _ textFrame_refl (frames_WriteByte ext newline)
                _ _ _ Hblank). }
  assert (K4 : blocksKept r3 r4 /\ textFrame r3 r4).
  { unfold when in Hws.
    destruct (negb (len (ast.LeadingWhitespace n) =? 0));
      [|inversion Hws; subst; split; [apply blocksKept_refl | apply textFrame_refl]].
    apply bind_Ok in Hws as (k & r5 & Hw & Hret). inversion Hret; subst r5; clear Hret.
    split; [exact (blocks_Write ext _ _ _ _ Hw) | exact (frames_Write ext _ _ _ _ Hw)]. }
  destruct K3 as [B3 T3]. destruct K4 as [B4 T4].
  pose proof (blocksKept_trans _ _ _ B3 B4) as [Bp Bt].
  pose proof (textFrame_trans _ _ _ T3 T4) as T.
  rewrite Eb, pop_snoc in Bp. rewrite Eb, top_snoc in Bt. cbn [option_map node] in Bt.
  unfold markFresh in Hfresh.
  destruct (top (openBlocks r4)) as [b|]; [|discriminate Hfresh].
  inversion Hfresh; subst r'; clear Hfresh.
  cbn [option_map] in Bt. inversion Bt as [Bn].
  unfold textFrame in T.
  destruct T as (_ & _ & _ & _ & _ & _ & _ & _ & _ & _ & Tstk & _ & _ & _ & _ & _ & _ & Th & _).
  cbn [openBlocks spanStack heap set_openBlocks] in *.
  assert (Eh : heap r4 = openedHeap r n) by (rewrite Th; exact Hh).
  split; [unfold replaceTop; rewrite Bp; reflexivity|].
  split; [rewrite Tstk; exact Hs|].
  split.
  { rewrite Eh. unfold openedHeap. cbv zeta. rewrite length_app. cbn [length].
    destruct (lastSpan r), (top (spanStack r)); rewrite ?length_alter; lia. }
  eexists. split; [rewrite Eh; apply openedHeap_new|]. cbn. repeat split.
  symmetry. exact Bn.
Qed.

(** The theorem at a paragraph that follows a blank line, opened in a new
    renderer with wrap width 10. *)
Lemma OpenBlock_pushes_fresh_block_witness :
  exists r',
    OpenBlock stdExt ast.rootContext (blockAfterBlank ast.Paragraph [text "x"]) (plain 10)
    = Ok (tt, r')
    /\ openBlocks r' = [{| node := blockAfterBlank ast.Paragraph [text "x"]; fresh := true |}].
Proof.
  eexists. split; [vm_compute; reflexivity|].
  refine (proj1 (OpenBlock_pushes_fresh_block stdExt ast.rootContext _ (plain 10) _ _)).
  vm_compute. reflexivity.
Defined.

(** [CloseBlock].  With a positive wrap width, or at the start of a line,
    [CloseBlock] of an open block returns: the renderer is at the start of a
    line afterwards, the top block is taken off the open blocks, and the top
    span is taken off the span stack and ends at the byte offset. *)
Theorem CloseBlock_ends_line (ext : Externals) (r : Renderer) :
  0 < wordWrap r \/ atNewline r = true ->
  openBlocks r <> [] -> spanStack r <> [] ->
  exists r' p,
    CloseBlock ext r = Ok (tt, r')
    /\ atNewline r' = true
    /\ openBlocks r' = pop (openBlocks r)
    /\ spanStack r = spanStack r' ++ [p]
    /\ heap r' = alter (setEnd (byteOffset r')) p (heap r).
Proof.
  intros Hw Hb Hs. unfold CloseBlock. rewrite (bind_returns get _ r r r eq_refl).
  assert (H1 : exists r1, when (negb (atNewline r)) (WriteByte ext newline) r = Ok (tt, r1)
                          /\ atNewline r1 = true).
  { unfold when. destruct (atNewline r) eqn:Ea; cbn [negb].
    - exists r. split; [reflexivity | exact Ea].
    - destruct Hw as [Hw|Hw]; [|discriminate Hw].
      destruct (WriteByte_returns ext r newline Hw) as (r1 & E). exists r1.
      split; [exact E | exact (WriteByte_newline_atNewline ext _ _ _ E)]. }
  destruct H1 as (r1 & E1 & Ha).
  pose proof (frames_when blocksKept _ _ blocksKept_refl (blocks_WriteByte ext newline)
                _ _ _ E1) as [Bp Bt].
  pose proof (frames_when textFrame _ _ textFrame_refl (frames_WriteByte ext newline)
                _ _ _ E1) as T.
  unfold textFrame in T.
  destruct T as (_ & _ & _ & _ & _ & _ & _ & _ & _ & _ & Tstk & _ & _ & _ & _ & _ & _ & Th & _).
  rewrite (bind_returns _ _ r tt r1 E1).
  assert (Hb1 : openBlocks r1 <> []).
  { intros E. rewrite E in Bt. cbn in Bt.
    destruct (top (openBlocks r)) as [b|] eqn:Et; [discriminate Bt|].
    unfold top in Et. apply last_None in Et. contradiction. }
  assert (E2 : popOpenBlock r1 = Ok (tt, set_openBlocks (pop (openBlocks r1)) r1)).
  { unfold popOpenBlock. destruct (openBlocks r1); [contradiction | reflexivity]. }
  rewrite (bind_returns _ _ r1 tt _ E2).
  destruct (top (spanStack r)) as [p|] eqn:Et;
    [|unfold top in Et; apply last_None in Et; contradiction].
  unfold CloseSpan. cbn [spanStack set_openBlocks heap byteOffset]. rewrite Tstk, Et.
  eexists. exists p. split; [reflexivity|].
  cbn. split; [exact Ha|]. split; [exact Bp|].
  unfold top in Et. apply last_Some in Et as [l' El]. rewrite El.
  unfold pop. rewrite removelast_last. split; [reflexivity|]. rewrite Th.
  reflexivity.
Qed.

(** The theorem at the renderer in which that paragraph was opened. *)
Lemma CloseBlock_ends_line_witness :
  exists r r',
    OpenBlock stdExt ast.rootContext (blockAfterBlank ast.Paragraph [text "x"]) (plain 10)
    = Ok (tt, r)
    /\ CloseBlock stdExt r = Ok (tt, r')
    /\ atNewline r' = true /\ openBlocks r' = [] /\ spanStack r' = [].
Proof.
  pose (r := match OpenBlock stdExt ast.rootContext (blockAfterBlank ast.Paragraph [text "x"])
                     (plain 10) with
             | Ok (_, r) => r
             | _ => plain 10
             end).
  assert (E0 : OpenBlock stdExt ast.rootContext (blockAfterBlank ast.Paragraph [text "x"])
                 (plain 10) = Ok (tt, r)) by (vm_compute; reflexivity).
  destruct (CloseBlock_ends_line stdExt r) as (r' & p & E & Ha & Hb & Hs & _).
  - left. vm_compute. reflexivity.
  - vm_compute. intros H. discriminate H.
  - vm_compute. intros H. discriminate H.
  - exists r, r'. split; [exact E0|]. split; [exact E|]. split; [exact Ha|].
    split; [rewrite Hb; vm_compute; reflexivity|].
    assert (Er : spanStack r = [0%nat]) by (vm_compute; reflexivity).
    rewrite Er in Hs. destruct (spanStack r') as [|q l]; [reflexivity|].
    destruct l; discriminate Hs.
Defined.
